(** * Curved state-label placement: a shallow embedding and its properties

    The development follows the label engine of the map generator:

    - [src/utils/label-raycast.ts] (and its twin inside
      [modules/labels-generator]): [raycast], [scoreRayAngle],
      [getAngleDelta], [evaluateArc], [scoreCurvature], [findBestRayPair];
    - [modules/labels-generator]: [generateStateLabelsData],
      [getLinesAndRatio], [checkIfLabelFitsState];
    - [renderers/draw-state-labels.ts]: [stateLabelsRenderer] and its
      [renderAndRefineLabels].

    Numbers.  A JavaScript number is modelled by an exact rational ([Q]):
    every finite value the engine handles (angles in whole degrees, lengths
    in multiples of five, coordinates) is one, and the rounding of binary
    floating point is idealised away.  Where the source divides by a value
    that can be zero (a string length, a measured length) the quotient is a
    [jsnum], which adds the two infinities and NaN to the rationals.
    Transcendental values (the sine and cosine of an angle) and the
    measurements the browser supplies are inputs of the model.

    Where a result depends on the rounding itself (the font-size ratio of
    the fitter and of the fallback is a rounded quotient, and a double can
    fall on the other side of a half than the exact value), the functions
    are modelled once more on IEEE 754 binary64 values, the primitive
    floats of the kernel, in [Module Double]. *)

From Stdlib Require Import QArith Qabs Qround Qminmax ZArith Lia Lqa List Bool String Ascii
  DecimalString Arith.
From Stdlib Require Floats.
Import ListNotations.
Open Scope Q_scope.

(** ** Rational helpers *)

Module Num.

(** Strict comparison of two rationals, as a boolean. *)
Definition Qlt_bool (a b : Q) : bool := negb (Qle_bool b a).

(** Truncation toward zero. *)
Definition Qtrunc (q : Q) : Z :=
  if Qle_bool 0 q then Qfloor q else Qceiling q.

(** The remainder operator [a % m] of JavaScript on finite numbers with
    [m <> 0]: [a - m * trunc (a / m)]; the result has the sign of [a].  The
    engine only uses it with the constants 180 and 360. *)
Definition jsrem (a m : Q) : Q := a - m * inject_Z (Qtrunc (a / m)).

(** The mathematical (floor) modulus, for comparison with [jsrem]. *)
Definition Qmodulo (a m : Q) : Q := a - m * inject_Z (Qfloor (a / m)).

End Num.
Import Num.


(** ** JavaScript numbers that may be infinite or NaN *)

(** A quotient by a string length or by a measured length can leave the
    rationals.  Zero stands for JavaScript's [+0]: every divisor of the
    engine that can vanish is a length, whose zero is positive. *)
Inductive jsnum : Type :=
| Fin (q : Q)
| PInf
| NInf
| NaN.

Module Js.

(** [a / b]. *)
Definition div (a b : jsnum) : jsnum :=
  match a, b with
  | NaN, _ | _, NaN => NaN
  | Fin p, Fin q =>
      if Qeq_bool q 0 then
        if Qlt_bool 0 p then PInf else if Qlt_bool p 0 then NInf else NaN
      else Fin (p / q)
  | Fin _, (PInf | NInf) => Fin 0
  | PInf, Fin q => if Qlt_bool q 0 then NInf else PInf
  | NInf, Fin q => if Qlt_bool q 0 then PInf else NInf
  | (PInf | NInf), (PInf | NInf) => NaN
  end.

(** [a * b]. *)
Definition mul (a b : jsnum) : jsnum :=
  match a, b with
  | NaN, _ | _, NaN => NaN
  | Fin p, Fin q => Fin (p * q)
  | Fin p, PInf | PInf, Fin p =>
      if Qlt_bool 0 p then PInf else if Qlt_bool p 0 then NInf else NaN
  | Fin p, NInf | NInf, Fin p =>
      if Qlt_bool 0 p then NInf else if Qlt_bool p 0 then PInf else NaN
  | PInf, PInf | NInf, NInf => PInf
  | PInf, NInf | NInf, PInf => NInf
  end.

(** [a < b]; every comparison with NaN is false. *)
Definition lt (a b : jsnum) : bool :=
  match a, b with
  | NaN, _ | _, NaN => false
  | Fin p, Fin q => Qlt_bool p q
  | NInf, (Fin _ | PInf) => true
  | Fin _, PInf => true
  | _, _ => false
  end.

(** [a > b]. *)
Definition gt (a b : jsnum) : bool := lt b a.

(** Truthiness of a number: false for zero and NaN. *)
Definition truthy (a : jsnum) : bool :=
  match a with
  | Fin q => negb (Qeq_bool q 0)
  | PInf | NInf => true
  | NaN => false
  end.

(** Equality of numbers up to the representation of a rational; NaN is
    identified with itself here (this relation compares models, it is not
    the [===] of the language). *)
Definition eqv (a b : jsnum) : Prop :=
  match a, b with
  | Fin p, Fin q => p == q
  | PInf, PInf | NInf, NInf | NaN, NaN => True
  | _, _ => False
  end.

(** The length of a string or of an array, as a number. *)
Definition of_nat (n : nat) : Q := inject_Z (Z.of_nat n).

End Js.

(** Modelled from the spec: [rn], the rounding helper that the fitter
    imports from [utils] ("round"); the file of [utils] that defines it is
    missing from the sources.  A finite value goes to its nearest integer,
    halves upward as [Math.round] does; infinities and NaN are left as
    they are. *)
Definition rn (v : jsnum) : jsnum :=
  match v with
  | Fin q => Fin (inject_Z (Qfloor (q + (1 # 2))))
  | other => other
  end.

(** Modelled from the spec: [minmax], the clamping helper that the fitter
    imports from [utils] ("clamp"), [Math.min (Math.max value min) max];
    the file of [utils] that defines it is missing from the sources. *)
Definition minmax (value : jsnum) (min max : Q) : jsnum :=
  match value with
  | Fin q => Fin (Qmin (Qmax q min) max)
  | PInf => Fin max
  | NInf => Fin (Qmin min max)
  | NaN => NaN
  end.

(** ** Loops *)

(** The values taken by the counter of
    [for (let v = start; v < stop; v += step)], for a positive [step] and a
    body that leaves [v] alone: [start], [start + step], ... while below
    [stop]. *)
Definition for_range (start stop step : Q) : list Q :=
  let n := Z.to_nat (Qceiling ((stop - start) / step)) in
  map (fun k => start + Js.of_nat k * step) (seq 0 n).

(** ** Exceptions *)

(** A computation that may throw (a [TypeError] on reading a property of
    [undefined] or on destructuring [null]) yields [None]. *)
Definition bind {A B : Type} (m : option A) (k : A -> option B) : option B :=
  match m with
  | Some a => k a
  | None => None
  end.

Notation "x <- m ;; k" := (bind m (fun x => k))
  (at level 61, m at next level, right associativity).

(** [xs.map(f)] where [f] may throw: elements are visited in order. *)
Fixpoint mapM {A B : Type} (f : A -> option B) (xs : list A) : option (list B) :=
  match xs with
  | [] => Some []
  | a :: rest => b <- f a ;; bs <- mapM f rest ;; Some (b :: bs)
  end.

(** [a && b] where evaluating an operand may throw: [b] is evaluated only
    when [a] is true. *)
Definition andM (a b : option bool) : option bool :=
  match a with
  | Some true => b
  | other => other
  end.

(** ** Rays and their scores ([label-raycast.ts]) *)

(** [interface Ray]: the farthest point reached along a direction. *)
Record Ray : Type := mkRay {
  ray_angle : Q;
  ray_length : Q;
  ray_x : Q;
  ray_y : Q
}.

(** What [raycast] returns: [{ length, x, y }]. *)
Record RayHit : Type := mkRayHit {
  hit_length : Q;
  hit_x : Q;
  hit_y : Q
}.

(** [interface AngleData]: a sampled direction. *)
Record AngleData : Type := mkAngleData {
  ad_angle : Q;
  ad_dx : Q;
  ad_dy : Q
}.

Definition ANGLE_STEP : Q := 9.
Definition LENGTH_START : Q := 5.
Definition LENGTH_STEP : Q := 5.
Definition LENGTH_MAX : Q := 300.

(** [scoreRayAngle]: preference for near-horizontal rays. *)
Definition scoreRayAngle (angle : Q) : Q :=
  let normalizedAngle := Qabs (jsrem angle 180) in
  let horizontality := Qabs (normalizedAngle - 90) / 90 in
  if Qeq_bool horizontality 1 then 1
  else if Qle_bool 0.75 horizontality then 0.9
  else if Qle_bool 0.5 horizontality then 0.6
  else if Qle_bool 0.25 horizontality then 0.5
  else if Qle_bool 0.15 horizontality then 0.2
  else 0.1.

(** [getAngleDelta]: the angle between two directions, in [0, 180]. *)
Definition getAngleDelta (angle1 angle2 : Q) : Q :=
  let delta := jsrem (Qabs (angle1 - angle2)) 360 in
  if Qlt_bool 180 delta then 360 - delta else delta.

(** [evaluateArc]: how alike the two angles lie with respect to the x-axis. *)
Definition evaluateArc (angle1 angle2 : Q) : Q :=
  let proximity1 := Qabs (jsrem angle1 180 - 90) in
  let proximity2 := Qabs (jsrem angle2 180 - 90) in
  1 - Qabs (proximity1 - proximity2) / 90.

(** [scoreCurvature]: the multiplier of a pair of rays. *)
Definition scoreCurvature (angle1 angle2 : Q) : Q :=
  let delta := getAngleDelta angle1 angle2 in
  let similarity := evaluateArc angle1 angle2 in
  if Qeq_bool delta 180 then 1
  else if Qlt_bool delta 90 then 0
  else if Qlt_bool delta 120 then 0.6 * similarity
  else if Qlt_bool delta 140 then 0.7 * similarity
  else if Qlt_bool delta 160 then 0.8 * similarity
  else similarity.

(** The score of the pair [(rays[i], rays[j])], as the inner loop of
    [findBestRayPair] computes it. *)
Definition pairScore (ri rj : Ray) : Q :=
  let score1 := ray_length ri * scoreRayAngle (ray_angle ri) in
  let score2 := ray_length rj * scoreRayAngle (ray_angle rj) in
  (score1 + score2) * scoreCurvature (ray_angle ri) (ray_angle rj).

(** The state of the scan: [bestPair] and [bestScore]. *)
Definition Best : Type := (option (Ray * Ray) * jsnum)%type.

(** One turn of the inner loop: the pair replaces the best one only when
    its score is strictly greater. *)
Definition scanPair (ri : Ray) (best : Best) (rj : Ray) : Best :=
  if Js.gt (Fin (pairScore ri rj)) (snd best)
  then (Some (ri, rj), Fin (pairScore ri rj))
  else best.

(** The inner loop, [j] from [i + 1] upward: [rest] holds [rays[i+1..]]. *)
Definition scanRow (ri : Ray) (rest : list Ray) (best : Best) : Best :=
  fold_left (scanPair ri) rest best.

(** The outer loop, [i] upward. *)
Fixpoint scanRays (rays : list Ray) (best : Best) : Best :=
  match rays with
  | [] => best
  | ri :: rest => scanRays rest (scanRow ri rest best)
  end.

(** [findBestRayPair]: [None] is the [null] the function returns (under a
    non-null assertion that leaves no trace at run time) when no pair was
    scanned. *)
Definition findBestRayPair (rays : list Ray) : option (Ray * Ray) :=
  fst (scanRays rays (None, NInf)).

(** *** The invariant of the scan *)

Section ScanInvariant.

Variable rays : list Ray.

(** [rays[k]] for an index inside the array, and the score of the pair
    of indices [(k, l)]. *)
Definition rayAt (k : nat) : Ray := nth k rays (mkRay 0 0 0 0).
Definition scoreAt (k l : nat) : Q := pairScore (rayAt k) (rayAt l).

(** [(k, l)] is a pair of the scan that comes before the turn [(i, j)]. *)
Definition scannedBefore (i j k l : nat) : Prop :=
  (k < l < List.length rays)%nat /\ (k < i \/ (k = i /\ l < j))%nat.

(** The state of the scan when it reaches the turn [(i, j)]: nothing yet,
    or the first of the best pairs seen so far. *)
Definition BestAt (i j : nat) (best : Best) : Prop :=
  (best = (None, NInf) /\ forall k l, ~ scannedBefore i j k l)
  \/
  (exists bi bj,
      scannedBefore i j bi bj /\
      best = (Some (rayAt bi, rayAt bj), Fin (scoreAt bi bj)) /\
      forall k l, scannedBefore i j k l ->
        scoreAt k l <= scoreAt bi bj /\
        (scannedBefore bi bj k l -> scoreAt k l < scoreAt bi bj)).

End ScanInvariant.

(** The terms of the banding rule, written as the specification words
    them: [proximity a = |a mod 180 - 90|] and
    [similarity = 1 - |proximity a1 - proximity a2| / 90]. *)
Definition proximity (a : Q) : Q := Qabs (jsrem a 180 - 90).
Definition similarity (a1 a2 : Q) : Q :=
  1 - Qabs (proximity a1 - proximity a2) / 90.

(** ** The map: cells, features, states *)

(** A feature of the map, as far as the engine reads it: [type],
    [shoreline], [cells]. *)
Record Feature : Type := mkFeature {
  f_type : string;
  f_shoreline : list nat;
  f_cells : Q
}.

(** A state, as far as the engine reads it. *)
Record State : Type := mkState {
  st_i : nat;
  st_removed : bool;
  st_lock : bool;
  st_cells : Q;
  st_pole : Q * Q;
  st_name : string;
  st_fullName : string
}.

(** [stateIds[cellId] === stateId]: reading past the end of the array gives
    [undefined], which is no state id. *)
Definition stateIs (stateIds : list nat) (cellId stateId : nat) : bool :=
  match nth_error stateIds cellId with
  | Some s => Nat.eqb s stateId
  | None => false
  end.

(** [getOffsetWidth]. *)
Definition getOffsetWidth (cellsNumber : Q) : Q :=
  if Qlt_bool cellsNumber 40 then 0
  else if Qlt_bool cellsNumber 200 then 5
  else 10.

Section Raycast.

(** The ambient map: the canvas size, the spatial index
    ([findClosestCell], from [utils], total on the canvas) and the tables
    [pack.cells.state], [pack.cells.f] and [pack.features]. *)
Variable graphWidth graphHeight : Q.
Variable findClosestCell : Q -> Q -> nat.
Variable cellStateIds : list nat.
Variable cells_f : list nat.
Variable features : list Feature.

(** [features[cells.f[cellId]]]; [None] when the entry is [undefined]. *)
Definition featureOfCell (cellId : nat) : option Feature :=
  match nth_error cells_f cellId with
  | Some f => nth_error features f
  | None => None
  end.

Section Cast.

Variable stateId : nat.
Variable x0 y0 dx dy : Q.
Variable maxLakeSize : Q.
Variable offset : Q.

Definition isInnerLake (feature : Feature) : bool :=
  forallb (fun cellId => stateIs cellStateIds cellId stateId)
          (f_shoreline feature).

Definition isSmallLake (feature : Feature) : bool :=
  Qle_bool (f_cells feature) maxLakeSize.

(** [isInsideState]; reading [type] of an [undefined] feature throws. *)
Definition isInsideState (x y : Q) : option bool :=
  if Qlt_bool x 0 || Qlt_bool graphWidth x
     || Qlt_bool y 0 || Qlt_bool graphHeight y
  then Some false
  else
    let cellId := findClosestCell x y in
    feature <- featureOfCell cellId ;;
    if String.eqb (f_type feature) "lake"
    then Some (isInnerLake feature || isSmallLake feature)
    else Some (stateIs cellStateIds cellId stateId).

(** The test of one candidate length: the point on the ray and the two
    points offset perpendicularly to it. *)
Definition inState (length : Q) : option bool :=
  let x := x0 + length * dx in
  let y := y0 + length * dy in
  let offset1 := (x + - dy * offset, y + dx * offset) in
  let offset2 := (x + dy * offset, y + - dx * offset) in
  andM (andM (isInsideState x y)
             (isInsideState (fst offset1) (snd offset1)))
       (isInsideState (fst offset2) (snd offset2)).

(** The body of the loop over the candidate lengths, with its [break]. *)
Fixpoint castAlong (lengths : list Q) (ray : RayHit) : option RayHit :=
  match lengths with
  | [] => Some ray
  | length :: rest =>
      ok <- inState length ;;
      if negb ok then Some ray
      else castAlong rest
             (mkRayHit length (x0 + length * dx) (y0 + length * dy))
  end.

(** [raycast]. *)
Definition raycast : option RayHit :=
  castAlong (for_range LENGTH_START LENGTH_MAX LENGTH_STEP)
            (mkRayHit 0 x0 y0).

(** The [k]-th value of the loop counter [length], counting from zero. *)
Definition candidate (k : nat) : Q := LENGTH_START + Js.of_nat k * LENGTH_STEP.

(** The ray held once the first [m] candidates were accepted: the
    zero-length ray at the reference point when there is none. *)
Definition rayAfter (m : nat) : RayHit :=
  match m with
  | O => mkRayHit 0 x0 y0
  | S k => mkRayHit (candidate k) (x0 + candidate k * dx)
                    (y0 + candidate k * dy)
  end.

(** "The scan tests the first [count] candidates in turn, stops at the
    first one rejected and returns the last one accepted": whenever the
    candidates before the [m]-th are accepted and the [m]-th, if there is
    one, is rejected, the result is the ray after [m] acceptances. *)
Definition ReturnsLastAccepted (count : nat) : Prop :=
  forall m : nat,
    (m <= count)%nat ->
    (forall k, (k < m)%nat -> inState (candidate k) = Some true) ->
    ((m < count)%nat -> inState (candidate m) = Some false) ->
    raycast = Some (rayAfter m).

End Cast.

End Raycast.

(** ** Labels ([modules/labels-generator]) *)

Definition PathPoints : Type := list (Q * Q).

(** [interface StateLabel]; the tag [type: "state"] is the constructor
    [StateL] below. *)
Record StateLabel : Type := mkStateLabel {
  sl_i : string;
  sl_name : string;
  sl_stateId : nat;
  sl_points : PathPoints;
  sl_startOffset : Q;
  sl_fontSize : jsnum;
  sl_letterSpacing : Q;
  sl_transform : string
}.

(** [interface BurgLabel]. *)
Record BurgLabel : Type := mkBurgLabel {
  bl_i : string;
  bl_name : string;
  bl_group : string;
  bl_burgId : nat
}.

(** [interface CustomLabel]; optional fields are options. *)
Record CustomLabel : Type := mkCustomLabel {
  cl_i : string;
  cl_name : string;
  cl_group : option string;
  cl_points : option PathPoints;
  cl_pathData : option string;
  cl_startOffset : option Q;
  cl_fontSize : option Q;
  cl_letterSpacing : option Q;
  cl_transform : option string
}.

(** [type Label = StateLabel | BurgLabel | CustomLabel]. *)
Inductive Label : Type :=
| StateL (l : StateLabel)
| BurgL (l : BurgLabel)
| CustomL (l : CustomLabel).

(** [label.i]. *)
Definition label_i (l : Label) : string :=
  match l with
  | StateL s => sl_i s
  | BurgL b => bl_i b
  | CustomL c => cl_i c
  end.

(** [label.type]. *)
Definition label_type (l : Label) : string :=
  match l with
  | StateL _ => "state"
  | BurgL _ => "burg"
  | CustomL _ => "custom"
  end.

(** The template [`stateLabel${stateId}`], for a state id that is a
    natural number. *)
Definition stateLabelId (stateId : nat) : string :=
  "stateLabel" ++ NilEmpty.string_of_uint (Nat.to_uint stateId).

(** [array.includes(v)] on numbers and on strings. *)
Definition includesNat (xs : list nat) (v : nat) : bool :=
  existsb (Nat.eqb v) xs.
Definition includesString (xs : list string) (v : string) : bool :=
  existsb (String.eqb v) xs.

(** A generated label carries the id of its state, which is a listed one
    when a list was given. *)
Definition Generated (stateIds : option (list nat)) (label : StateLabel) : Prop :=
  sl_i label = stateLabelId (sl_stateId label) /\
  match stateIds with
  | Some ids => In (sl_stateId label) ids
  | None => True
  end.

(** The path of a label, as [generateStateLabelsData] builds it from the
    chosen rays: the two end points with the pole between them, reversed
    when the first ray ends to the right of the second. *)
Definition labelPath (ray1 ray2 : Ray) (pole : Q * Q) : PathPoints :=
  let pathPoints :=
    [(ray_x ray1, ray_y ray1); pole; (ray_x ray2, ray_y ray2)] in
  if Qlt_bool (ray_x ray2) (ray_x ray1) then rev pathPoints else pathPoints.

(** [array[i] = v] for an index inside the array (the engine writes only
    where it has just read). *)
Fixpoint assignAt {A : Type} (i : nat) (v : A) (xs : list A) : list A :=
  match xs, i with
  | [], _ => []
  | _ :: rest, O => v :: rest
  | a :: rest, S i' => a :: assignAt i' v rest
  end.

(** [array.at(-1)]. *)
Definition atLast {A : Type} (xs : list A) : option A :=
  nth_error xs (List.length xs - 1).

(** The corrective stretch of [renderAndRefineLabels]: both ends move away
    from the middle of the segment that joins them, by the factor [mod]
    (here [factor]: [mod] is an operator of the notation).
    Destructuring a missing end point throws. *)
Definition prolongate (pathPoints : PathPoints) (factor : Q) : option PathPoints :=
  p1 <- nth_error pathPoints 0 ;;
  p2 <- atLast pathPoints ;;
  let '(x1, y1) := p1 in
  let '(x2, y2) := p2 in
  let dx := (x2 - x1) / 2 in
  let dy := (y2 - y1) / 2 in
  let pathPoints :=
    assignAt 0 (x1 + dx - dx * factor, y1 + dy - dy * factor) pathPoints in
  Some (assignAt (List.length pathPoints - 1)
                 (x2 - dx + dx * factor, y2 - dy + dy * factor) pathPoints).

(** The invariant of a label path: at least two points, and the first one
    not to the right of the last one. *)
Definition CanonicalPath (pathPoints : PathPoints) : Prop :=
  (2 <= List.length pathPoints)%nat /\
  exists first last : Q * Q,
    nth_error pathPoints 0 = Some first /\
    atLast pathPoints = Some last /\
    fst first <= fst last.

(** [max(lines.map((line) => line.length)) || 0]. *)
Definition longestLine (lines : list string) : nat :=
  fold_right Nat.max 0%nat (map String.length lines).

(** The fitter in exact arithmetic; [Double.getLinesAndRatio], further
    down, is the same function on doubles. *)
Section Fitter.

(** [splitInTwo], from [utils]: the two-line split of a name. *)
Variable splitInTwo : string -> list string.

Section Lines.

Variable mode name fullName : string.
Variable pathLength : jsnum.

Definition getShortOneLine : list string * jsnum :=
  let ratio := Js.div pathLength (Fin (Js.of_nat (String.length name))) in
  ([name], minmax (rn (Js.mul ratio (Fin 60))) 50 150).

Definition getFullOneLine : list string * jsnum :=
  let ratio := Js.div pathLength (Fin (Js.of_nat (String.length fullName))) in
  ([fullName], minmax (rn (Js.mul ratio (Fin 70))) 70 170).

Definition getFullTwoLines : list string * jsnum :=
  let lines := splitInTwo fullName in
  let longestLineLength := longestLine lines in
  let ratio := Js.div pathLength (Fin (Js.of_nat longestLineLength)) in
  (lines, minmax (rn (Js.mul ratio (Fin 60))) 70 150).

(** [getLinesAndRatio]. *)
Definition getLinesAndRatio : list string * jsnum :=
  if String.eqb mode "short" then getShortOneLine
  else if Js.gt pathLength (Fin (Js.of_nat (String.length fullName) * 2))
  then getFullOneLine
  else getFullTwoLines.

End Lines.

End Fitter.

(** A bounding box, as [getBBox] returns it. *)
Record BBox : Type := mkBBox {
  bb_x : Q;
  bb_y : Q;
  bb_width : Q;
  bb_height : Q
}.

Section Verifier.

Variable findClosestCell : Q -> Q -> nat.

(** Angles in radians and the functions of [Math] on them. *)
Variable radians : Type.
Variable Math_sin Math_cos : radians -> Q.

(** Whether a point resolves to a cell of the state, and how many points
    of a list do. *)
Definition pointInside (stateIds : list nat) (stateId : nat) (p : Q * Q) : bool :=
  stateIs stateIds (findClosestCell (fst p) (snd p)) stateId.

Definition insideCount (stateIds : list nat) (stateId : nat)
    (points : PathPoints) : nat :=
  List.length (filter (pointInside stateIds stateId) points).

(** The counting loop of [checkIfLabelFitsState], with its early
    [return true]. *)
Fixpoint countInside (stateIds : list nat) (stateId : nat)
    (rotatedPoints : PathPoints) (pointsInside : nat) : bool :=
  match rotatedPoints with
  | [] => false
  | (x, y) :: rest =>
      let isInside := stateIs stateIds (findClosestCell x y) stateId in
      let pointsInside := if isInside then S pointsInside else pointsInside in
      if (4 <? pointsInside)%nat then true
      else countInside stateIds stateId rest pointsInside
  end.

(** The six sample points, relative to the centre of the text. *)
Definition samplePoints (halfwidth halfheight : Q) : PathPoints :=
  [(- halfwidth, - halfheight);
   (halfwidth, - halfheight);
   (halfwidth, halfheight);
   (- halfwidth, halfheight);
   (0, halfheight);
   (0, - halfheight)].

(** The sample points turned by the angle about [(cx, cy)]. *)
Definition rotatePoints (cx cy sin_a cos_a : Q) (points : PathPoints) : PathPoints :=
  map (fun p => let '(x, y) := p in
                (cx + x * cos_a - y * sin_a, cy + x * sin_a + y * cos_a)) points.

(** [checkIfLabelFitsState]; the text element is given by the bounding box
    it reports. *)
Definition checkIfLabelFitsState (bbox : BBox) (angleRad : radians)
    (halfwidth halfheight : Q) (stateIds : list nat) (stateId : nat) : bool :=
  let cx := bb_x bbox + bb_width bbox / 2 in
  let cy := bb_y bbox + bb_height bbox / 2 in
  let points := samplePoints halfwidth halfheight in
  let sin_a := Math_sin angleRad in
  let cos_a := Math_cos angleRad in
  let rotatedPoints := rotatePoints cx cy sin_a cos_a points in
  countInside stateIds stateId rotatedPoints 0.

End Verifier.

(** ** Generation and rendering of the state labels *)

Section Engine.

(** The map. *)
Variable graphWidth graphHeight : Q.
Variable findClosestCell : Q -> Q -> nat.
Variable cellStateIds : list nat.
Variable cells_f : list nat.
Variable features : list Feature.
Variable states : list State.

(** [Math]: radians, the conversion [angle * RAD] of degrees, and the
    trigonometric functions. *)
Variable radians : Type.
Variable toRadians : Q -> radians.
Variable Math_sin Math_cos : radians -> Q.
Variable Math_atan2 : Q -> Q -> radians.

(** What the renderer reads from the document and from the rendered text:
    the label mode of the options, the length of one letter
    ([checkExampleLetterLength]), the total length of the curve drawn
    through the points of a path, the box of a text block before it is
    attached to its path, and its box on the path. *)
Variable stateLabelsMode : string.
Variable letterLength : Q.
Variable getTotalLength : PathPoints -> Q.
Variable textBBox : list string -> jsnum -> BBox.
Variable placedBBox : PathPoints -> list string -> jsnum -> BBox.
Variable splitInTwo : string -> list string.

(** [precalculateAngles]. *)
Definition precalculateAngles (step : Q) : list AngleData :=
  map (fun angle =>
         mkAngleData angle (Math_cos (toRadians angle))
                           (Math_sin (toRadians angle)))
      (for_range 0 360 step).

(** The rays of a state: one [raycast] per direction. *)
Definition castRays (angles : list AngleData) (state : State) : option (list Ray) :=
  let offset := getOffsetWidth (st_cells state) in
  let maxLakeSize := st_cells state / 20 in
  let '(x0, y0) := st_pole state in
  mapM (fun a =>
          hit <- raycast graphWidth graphHeight findClosestCell cellStateIds
                         cells_f features (st_i state) x0 y0
                         (ad_dx a) (ad_dy a) maxLakeSize offset ;;
          Some (mkRay (ad_angle a) (hit_length hit) (hit_x hit) (hit_y hit)))
       angles.

(** The label of one state; destructuring the [null] of
    [findBestRayPair] throws. *)
Definition generateStateLabel (angles : list AngleData) (state : State)
    : option StateLabel :=
  rays <- castRays angles state ;;
  pair <- findBestRayPair rays ;;
  let '(ray1, ray2) := pair in
  let pathPoints := labelPath ray1 ray2 (st_pole state) in
  Some (mkStateLabel (stateLabelId (st_i state)) (st_name state)
                     (st_i state) pathPoints 50 (Fin 100) 0 "").

(** The loop of [generateStateLabelsData] over the states. *)
Fixpoint generateLoop (angles : list AngleData) (stateIds : option (list nat))
    (todo : list State) (labels : list StateLabel) : option (list StateLabel) :=
  match todo with
  | [] => Some labels
  | state :: rest =>
      if Nat.eqb (st_i state) 0 || st_removed state || st_lock state
      then generateLoop angles stateIds rest labels
      else if match stateIds with
              | Some ids => negb (includesNat ids (st_i state))
              | None => false
              end
      then generateLoop angles stateIds rest labels
      else
        label <- generateStateLabel angles state ;;
        generateLoop angles stateIds rest (labels ++ [label])
  end.

(** [generateStateLabelsData]. *)
Definition generateStateLabelsData (stateIds : option (list nat))
    : option (list StateLabel) :=
  let angles := precalculateAngles ANGLE_STEP in
  generateLoop angles stateIds states [].

(** [options.stateLabelsMode || "auto"]. *)
Definition labelMode : string :=
  if String.eqb stateLabelsMode "" then "auto" else stateLabelsMode.

(** The re-layout of a label that does not fit its state: one line, the
    full name on a long enough path and the short name otherwise. *)
Definition fallbackLayout (state : State) (pathLength : jsnum) : string * jsnum :=
  let text :=
    if Js.gt pathLength
             (Fin (Js.of_nat (String.length (st_fullName state)) * 1.8))
    then st_fullName state
    else st_name state in
  let correctedRatio :=
    minmax (rn (Js.mul
                  (Js.div pathLength (Fin (Js.of_nat (String.length text))))
                  (Fin 50)))
           50 130 in
  (text, correctedRatio).

(** [finalName] and [finalRatio] of a label; [fits] is the call of
    [checkIfLabelFitsState], made only for a layout of several lines in a
    mode other than ["full"]. *)
Definition finalLayout (mode : string) (state : State) (pathLength : jsnum)
    (lines : list string) (ratio : jsnum) (fits : option bool)
    : option (string * jsnum) :=
  if negb (String.eqb mode "full") && (1 <? List.length lines)%nat
  then
    isInsideState <- fits ;;
    if negb isInsideState then Some (fallbackLayout state pathLength)
    else Some (String.concat "|" lines, ratio)
  else Some (String.concat "|" lines, ratio).

(** The path after the test "prolongate path if it's too short".  A truthy
    [pathLength] below a line length is finite and not zero, or minus
    infinity; either way the factor [mod] is finite. *)
Definition stretchedPath (pathPoints : PathPoints) (pathLength : jsnum)
    (longestLineLength : nat) : option PathPoints :=
  if Js.truthy pathLength
     && Js.lt pathLength (Fin (Js.of_nat longestLineLength))
  then
    match Js.div (Fin (Js.of_nat longestLineLength)) pathLength with
    | Fin factor => prolongate pathPoints factor
    | _ => None
    end
  else Some pathPoints.

(** The body of the loop of [renderAndRefineLabels]: [Some None] stands for
    [continue], [Some (Some l)] for the label pushed. *)
Definition refineLabel (label : StateLabel) : option (option StateLabel) :=
  state <- nth_error states (sl_stateId label) ;;
  if Nat.eqb (st_i state) 0 || st_removed state then Some None
  else
    let pathPoints := sl_points label in
    if (List.length pathPoints <? 2)%nat then Some None
    else
      let pathLength :=
        Js.div (Fin (getTotalLength pathPoints)) (Fin letterLength) in
      let '(lines, ratio) :=
        getLinesAndRatio splitInTwo labelMode (st_name state)
                         (st_fullName state) pathLength in
      let longestLineLength := longestLine lines in
      pathPoints <- stretchedPath pathPoints pathLength longestLineLength ;;
      let box := textBBox lines ratio in
      let fits :=
        p1 <- nth_error pathPoints 0 ;;
        p2 <- atLast pathPoints ;;
        let angleRad := Math_atan2 (snd p2 - snd p1) (fst p2 - fst p1) in
        Some (checkIfLabelFitsState findClosestCell radians Math_sin Math_cos
                (placedBBox pathPoints lines ratio) angleRad
                (bb_width box / 2) (bb_height box / 2)
                cellStateIds (sl_stateId label)) in
      layout <- finalLayout labelMode state pathLength lines ratio fits ;;
      let '(finalName, finalRatio) := layout in
      Some (Some (mkStateLabel (sl_i label) finalName (sl_stateId label)
                               pathPoints (sl_startOffset label) finalRatio
                               (sl_letterSpacing label) (sl_transform label))).

(** [renderAndRefineLabels]. *)
Fixpoint renderAndRefineLabels (labels : list StateLabel)
    (refinedLabels : list StateLabel) : option (list StateLabel) :=
  match labels with
  | [] => Some refinedLabels
  | label :: rest =>
      r <- refineLabel label ;;
      match r with
      | None => renderAndRefineLabels rest refinedLabels
      | Some refined => renderAndRefineLabels rest (refinedLabels ++ [refined])
      end
  end.

(** The first step of [stateLabelsRenderer]: the labels to regenerate
    leave [pack.labels]; [idList] is the optional argument [list]. *)
Definition clearStateLabels (idList : option (list nat)) (packLabels : list Label)
    : list Label :=
  match idList with
  | None =>
      filter (fun label => negb (String.eqb (label_type label) "state"))
             packLabels
  | Some ids =>
      let labelsToRemove := map stateLabelId ids in
      filter (fun l => negb (includesString labelsToRemove (label_i l)))
             packLabels
  end.

(** [stateLabelsRenderer], as a transformer of [pack.labels] ([None]: not
    yet initialised); [idList] is the optional argument [list].  The result is the content of [pack.labels] when the
    call ends, and whether it ended normally ([true]) or by an exception
    ([false]), which leaves the cleared store behind. *)
Definition stateLabelsRenderer (idList : option (list nat))
    (packLabels : option (list Label)) : list Label * bool :=
  let labels0 := match packLabels with Some ls => ls | None => [] end in
  let labels1 := clearStateLabels idList labels0 in
  match generateStateLabelsData idList with
  | None => (labels1, false)
  | Some generatedLabels =>
      match renderAndRefineLabels generatedLabels [] with
      | None => (labels1, false)
      | Some refinedLabels => (labels1 ++ map StateL refinedLabels, true)
      end
  end.

End Engine.

(** "Every persisted label that is not a state label of a listed region
    (all burg and custom labels, and the state labels of unlisted
    regions) is present in the store after the regeneration", for a
    regeneration given as a function of the list and the store. *)
Definition KeepsOtherLabels
    (regenerate : list nat -> list Label -> list Label) : Prop :=
  forall (ids : list nat) (before : list Label) (l : Label),
    In l before ->
    (forall s : StateLabel, l = StateL s -> ~ In (sl_stateId s) ids) ->
    In l (regenerate ids before).

(** ** The ratios in double precision

    [getLinesAndRatio] and the fallback of [renderAndRefineLabels] once
    more, on the numbers the engine computes with: IEEE 754 binary64
    values, every operation rounded to the nearest one.  The exact model
    above and this one give the same ratio except where the rounded
    product [(pathLength / length) * scale] falls on the other side of a
    half than the exact one. *)
Module Double.

Import Floats.

(** A whole number as a double (exact up to [2 ^ 53]). *)
Definition of_Z (k : Z) : float :=
  if (k <? 0)%Z then PrimFloat.opp (PrimFloat.of_uint63 (Uint63.of_Z (- k)))
  else PrimFloat.of_uint63 (Uint63.of_Z k).

(** [string.length], as a number. *)
Definition of_nat (n : nat) : float := of_Z (Z.of_nat n).

(** [Math.round]: the nearest whole number, a half going upward.  A
    finite double is [m * 2 ^ e] with a sign; with [e >= 0] it is whole
    already, otherwise the floor of the value plus one half is taken in
    exact arithmetic.  A result of zero keeps the sign of the argument;
    NaN and the infinities are returned as they are. *)
Definition Math_round (x : float) : float :=
  match Prim2SF x with
  | S754_finite s m e =>
      if (0 <=? e)%Z then x
      else
        let num := if s then Z.neg m else Z.pos m in
        let k := ((2 * num + 2 ^ (- e)) / 2 ^ (- e + 1))%Z in
        if (k =? 0)%Z then (if s then PrimFloat.neg_zero else PrimFloat.zero)
        else of_Z k
  | _ => x
  end.

(** [Math.max] and [Math.min] of two numbers: NaN if either is NaN; of
    the two zeros the positive one is the greater. *)
Definition Math_max (a b : float) : float :=
  if PrimFloat.is_nan a || PrimFloat.is_nan b then PrimFloat.nan
  else if PrimFloat.ltb a b then b
  else if PrimFloat.ltb b a then a
  else if PrimFloat.get_sign a then b else a.

Definition Math_min (a b : float) : float :=
  if PrimFloat.is_nan a || PrimFloat.is_nan b then PrimFloat.nan
  else if PrimFloat.ltb a b then a
  else if PrimFloat.ltb b a then b
  else if PrimFloat.get_sign a then a else b.

(** Modelled from the spec: [rn], the rounding helper of [utils] ("round"),
    called with no number of decimals: [Math.round].  The file of [utils]
    that defines it is missing from the sources. *)
Definition rn (v : float) : float := Math_round v.

(** Modelled from the spec: [minmax], the clamping helper of [utils]
    ("clamp"), [Math.min (Math.max value min) max]; the file of [utils]
    that defines it is missing from the sources. *)
Definition minmax (value min max : float) : float :=
  Math_min (Math_max value min) max.

(** The literal [1.8] of the source denotes the double nearest to it. *)
Definition one_point_eight : float := 0x1.ccccccccccccdp+0%float.

Section Fitter.

(** [splitInTwo], from [utils]: the two-line split of a name. *)
Variable splitInTwo : string -> list string.

Section Lines.

Variable mode name fullName : string.
Variable pathLength : float.

Definition getShortOneLine : list string * float :=
  let ratio := PrimFloat.div pathLength (of_nat (String.length name)) in
  ([name], minmax (rn (PrimFloat.mul ratio 60%float)) 50%float 150%float).

Definition getFullOneLine : list string * float :=
  let ratio := PrimFloat.div pathLength (of_nat (String.length fullName)) in
  ([fullName],
   minmax (rn (PrimFloat.mul ratio 70%float)) 70%float 170%float).

Definition getFullTwoLines : list string * float :=
  let lines := splitInTwo fullName in
  let longestLineLength := longestLine lines in
  let ratio := PrimFloat.div pathLength (of_nat longestLineLength) in
  (lines, minmax (rn (PrimFloat.mul ratio 60%float)) 70%float 150%float).

(** [getLinesAndRatio]; [pathLength > fullName.length * 2] is
    [fullName.length * 2 < pathLength]. *)
Definition getLinesAndRatio : list string * float :=
  if String.eqb mode "short" then getShortOneLine
  else if PrimFloat.ltb (PrimFloat.mul (of_nat (String.length fullName))
                                       2%float)
                        pathLength
  then getFullOneLine
  else getFullTwoLines.

End Lines.

End Fitter.

(** The re-layout of a label that does not fit its state (the body of
    [if (!isInsideState)] in [renderAndRefineLabels]): one line, the full
    name on a long enough path and the short name otherwise. *)
Definition fallbackLayout (state : State) (pathLength : float)
    : string * float :=
  let text :=
    if PrimFloat.ltb
         (PrimFloat.mul (of_nat (String.length (st_fullName state)))
                        one_point_eight)
         pathLength
    then st_fullName state
    else st_name state in
  let correctedRatio :=
    minmax (rn (PrimFloat.mul
                  (PrimFloat.div pathLength (of_nat (String.length text)))
                  50%float))
           50%float 130%float in
  (text, correctedRatio).

(** [finalName] and [finalRatio] of a label; [fits] is the call of
    [checkIfLabelFitsState], made only for a layout of several lines in a
    mode other than ["full"]. *)
Definition finalLayout (mode : string) (state : State) (pathLength : float)
    (lines : list string) (ratio : float) (fits : option bool)
    : option (string * float) :=
  if negb (String.eqb mode "full") && (1 <? List.length lines)%nat
  then
    isInsideState <- fits ;;
    if negb isInsideState then Some (fallbackLayout state pathLength)
    else Some (String.concat "|" lines, ratio)
  else Some (String.concat "|" lines, ratio).

(** "A layout of several lines that the verifier rejects, in a mode other
    than full, is replaced by one line: the full name when
    [pathLength > 1.8 * len fullName] and the short name otherwise, at the
    ratio that [formula] gives for the path length and the length of the
    text; nothing is thrown." *)
Definition FallsBackWith (formula : float -> float -> float) (state : State)
    (pathLength : float) : Prop :=
  forall (mode : string) (lines : list string) (ratio : float),
    mode <> "full"%string ->
    (1 < List.length lines)%nat ->
    exists (text : string) (r : float),
      finalLayout mode state pathLength lines ratio (Some false)
        = Some (text, r) /\
      text = (if PrimFloat.ltb
                   (PrimFloat.mul (of_nat (String.length (st_fullName state)))
                                  one_point_eight)
                   pathLength
              then st_fullName state else st_name state) /\
      r = formula pathLength (of_nat (String.length text)).

(** The ratio in the order in which the source computes it, the quotient
    first: [clamp (round ((pathLength / length) * scale), lo, hi)]. *)
Definition quotientFirst (scale lo hi : float) (pathLength length : float)
    : float :=
  minmax (rn (PrimFloat.mul (PrimFloat.div pathLength length) scale)) lo hi.

(** The ratio in the order of the words
    "clamp (round (scale x pathLength / length), lo, hi)". *)
Definition scaleFirst (scale lo hi : float) (pathLength length : float)
    : float :=
  minmax (rn (PrimFloat.div (PrimFloat.mul scale pathLength) length)) lo hi.

(** "The ratio is clamp (round (60 x pathLength / len shortName), 50, 150)
    in mode short, clamp (round (70 x pathLength / len fullName), 70, 170)
    on one line of the full name and
    clamp (round (60 x pathLength / maxLineLength), 70, 150) on two
    lines." *)
Definition RatiosScaleFirst : Prop :=
  forall (splitInTwo : string -> list string) (mode name fullName : string)
         (pathLength : float),
    snd (getLinesAndRatio splitInTwo mode name fullName pathLength)
    = if String.eqb mode "short"
      then scaleFirst 60%float 50%float 150%float pathLength
                      (of_nat (String.length name))
      else if PrimFloat.ltb
                (PrimFloat.mul (of_nat (String.length fullName)) 2%float)
                pathLength
      then scaleFirst 70%float 70%float 170%float pathLength
                      (of_nat (String.length fullName))
      else scaleFirst 60%float 70%float 150%float pathLength
                      (of_nat (longestLine (splitInTwo fullName))).

End Double.

(** ** Concrete maps, for the examples *)

(** A map that is one state all over: a single land cell of state 1 on a
    canvas of 1000 by 1000. *)
Module OneState.
Definition graphWidth : Q := 1000.
Definition graphHeight : Q := 1000.
Definition findClosestCell (_ _ : Q) : nat := 0.
Definition cellStateIds : list nat := [1%nat].
Definition cells_f : list nat := [0%nat].
Definition features : list Feature := [mkFeature "island" [] 1].
Definition cast : option RayHit :=
  raycast graphWidth graphHeight findClosestCell cellStateIds cells_f
          features 1 500 500 1 0 0 0.
Definition accepts : Q -> option bool :=
  inState graphWidth graphHeight findClosestCell cellStateIds cells_f
          features 1 500 500 1 0 0 0.
End OneState.

(** The state of the examples. *)
Module Rus.
Definition state : State :=
  mkState 1 false false 100 (500, 500) "Rus" "Kingdom of Rus".
End Rus.

(** A second state, for the ratios that fall next to a half. *)
Module Padua.
Definition state : State :=
  mkState 2 false false 100 (500, 500) "Padua" "Republic of Padua".
End Padua.

(** One state, "Rus", on the map [OneState].  The unit circle is replaced
    by a rational stand-in that sends every direction east or west, and
    the measurements of the document by fixed boxes: enough to run the
    whole pipeline. *)
Module Demo.

Definition states : list State :=
  [mkState 0 false false 0 (0, 0) "Neutrals" "Neutrals";
   mkState 1 false false 100 (500, 500) "Rus" "Kingdom of Rus"].

Definition toRadians (a : Q) : Q := a.
Definition Math_cos (a : Q) : Q :=
  if Qlt_bool a 90 then 1 else if Qlt_bool a 270 then -1 else 1.
Definition Math_sin (a : Q) : Q := 0.
Definition Math_atan2 (y x : Q) : Q := 0.

Definition getTotalLength (p : PathPoints) : Q :=
  match p with
  | (x1, _) :: _ :: (x2, _) :: _ => Qabs (x2 - x1)
  | _ => 0
  end.
Definition textBBox (lines : list string) (ratio : jsnum) : BBox :=
  mkBBox 0 0 40 20.
Definition placedBBox (p : PathPoints) (lines : list string) (ratio : jsnum)
    : BBox :=
  mkBBox 480 490 40 20.
Definition splitInTwo (s : string) : list string :=
  ["Kingdom"; "of Rus"]%string.

Definition generate (ids : option (list nat)) : option (list StateLabel) :=
  generateStateLabelsData OneState.graphWidth OneState.graphHeight
    OneState.findClosestCell OneState.cellStateIds OneState.cells_f
    OneState.features states Q toRadians Math_sin Math_cos ids.

Definition run (ids : option (list nat)) (store : option (list Label))
    : list Label * bool :=
  stateLabelsRenderer OneState.graphWidth OneState.graphHeight
    OneState.findClosestCell OneState.cellStateIds OneState.cells_f
    OneState.features states Q toRadians Math_sin Math_cos Math_atan2
    "auto" 10 getTotalLength textBBox placedBBox splitInTwo ids store.

Definition kiev : Label := BurgL (mkBurgLabel "burgLabel3" "Kiev" "towns" 3).
Definition oldRus : Label :=
  StateL (mkStateLabel "stateLabel1" "Rus" 1 [(400, 500); (600, 500)]
                       50 (Fin 100) 0 "").
Definition newRus : Label :=
  StateL (mkStateLabel "stateLabel1" "Kingdom of Rus" 1
                       [(205, 500); (500, 500); (795, 500)]
                       50 (Fin 170) 0 "").

(** A custom label that carries the id of the label of state 1. *)
Definition marker : Label :=
  CustomL (mkCustomLabel "stateLabel1" "Here be dragons" None None None None
                         None None None).

(** A lake of three cells whose shore is all of state 1. *)
Definition lakeFeatures : list Feature := [mkFeature "lake" [0%nat] 3].

Definition tieRays : list Ray :=
  [mkRay 0 10 10 0; mkRay 180 10 (-10) 0; mkRay 0 10 11 0; mkRay 180 10 (-11) 0].

End Demo.

From Stdlib Require Import DecimalNat.

(** ** Further definitions *)

(** The horizontality of an angle, as [scoreRayAngle] computes it before
    banding: 1 for a horizontal direction, 0 for a vertical one. *)
Definition horizontality (angle : Q) : Q :=
  Qabs (Qabs (jsrem angle 180) - 90) / 90.

(** A state from whose pole no direction can advance: the first candidate
    is rejected along every direction of [angles]. *)
Definition Stuck (graphWidth graphHeight : Q) (findClosestCell : Q -> Q -> nat)
    (cellStateIds cells_f : list nat) (features : list Feature)
    (angles : list AngleData) (state : State) : Prop :=
  forall a : AngleData, In a angles ->
    inState graphWidth graphHeight findClosestCell cellStateIds cells_f
            features (st_i state) (fst (st_pole state)) (snd (st_pole state))
            (ad_dx a) (ad_dy a) (st_cells state / 20)
            (getOffsetWidth (st_cells state)) (candidate 0)
    = Some false.

(** A map for the edge cases: the single cell of the map [OneState], whose
    owner is state 1, and a second state, 2, whose pole lies on that
    cell, outside of it. *)
Module Edge.

Definition states : list State :=
  [mkState 0 false false 0 (0, 0) "Neutrals" "Neutrals";
   mkState 1 false false 100 (500, 500) "Rus" "Kingdom of Rus";
   mkState 2 false false 100 (300, 300) "Lit" "Duchy of Lit"].

Definition generateOne (state : State) : option StateLabel :=
  generateStateLabel OneState.graphWidth OneState.graphHeight
    OneState.findClosestCell OneState.cellStateIds OneState.cells_f
    OneState.features
    (precalculateAngles Q Demo.toRadians Demo.Math_sin Demo.Math_cos
                        ANGLE_STEP)
    state.

End Edge.

(** The states that [generateStateLabelsData] labels: not the neutral
    state, not removed, not locked, and listed when a list is given. *)
Definition labelled (stateIds : option (list nat)) (state : State) : bool :=
  negb (Nat.eqb (st_i state) 0 || st_removed state || st_lock state)
  && match stateIds with
     | Some ids => includesNat ids (st_i state)
     | None => true
     end.

(** A font-size ratio within [lo, hi]: a whole number in that range, or
    NaN. *)
Definition RatioWithin (lo hi : Q) (ratio : jsnum) : Prop :=
  match ratio with
  | Fin r => lo <= r <= hi /\ exists z : Z, r == inject_Z z
  | NaN => True
  | PInf | NInf => False
  end.

(** Two finite ratios in order. *)
Definition RatioLe (a b : jsnum) : Prop :=
  match a, b with
  | Fin r, Fin r' => r <= r'
  | _, _ => False
  end.

(** The labels that [renderAndRefineLabels] keeps: those whose state is in
    the table, is not the neutral state and is not removed, and whose path
    has two points at least. *)
Definition refinable (states : list State) (label : StateLabel) : bool :=
  match nth_error states (sl_stateId label) with
  | Some state =>
      negb (Nat.eqb (st_i state) 0 || st_removed state)
      && negb (List.length (sl_points label) <? 2)%nat
  | None => false
  end.

(** The labels pushed by a run of the loop body over a list of labels. *)
Definition pushed (results : list (option StateLabel)) : list StateLabel :=
  flat_map (fun r => match r with Some l => [l] | None => [] end) results.

Section Regenerated.

Variable graphWidth graphHeight : Q.
Variable findClosestCell : Q -> Q -> nat.
Variable cellStateIds : list nat.
Variable cells_f : list nat.
Variable features : list Feature.
Variable states : list State.
Variable radians : Type.
Variable toRadians : Q -> radians.
Variable Math_sin Math_cos : radians -> Q.
Variable Math_atan2 : Q -> Q -> radians.
Variable stateLabelsMode : string.
Variable letterLength : Q.
Variable getTotalLength : PathPoints -> Q.
Variable textBBox : list string -> jsnum -> BBox.
Variable placedBBox : PathPoints -> list string -> jsnum -> BBox.
Variable splitInTwo : string -> list string.

(** The labels that a call of [stateLabelsRenderer] generates and refines,
    before it stores them: they do not depend on the store. *)
Definition regenerated (idList : option (list nat)) : option (list StateLabel) :=
  generatedLabels <-
    generateStateLabelsData graphWidth graphHeight findClosestCell
      cellStateIds cells_f features states radians toRadians Math_sin
      Math_cos idList ;;
  renderAndRefineLabels findClosestCell cellStateIds states radians Math_sin
    Math_cos Math_atan2 stateLabelsMode letterLength getTotalLength textBBox
    placedBBox splitInTwo generatedLabels [].

End Regenerated.

(** A regenerated label has the label id of its state, and its state is
    one that the generator labels. *)
Definition RegeneratedFor (states : list State) (idList : option (list nat))
    (r : StateLabel) : Prop :=
  sl_i r = stateLabelId (sl_stateId r) /\
  exists state, In state states /\
                labelled idList state = true /\
                st_i state = sl_stateId r.

(** The label store of the examples with the state "Rus" locked. *)
Module Locked.

Definition states : list State :=
  [mkState 0 false false 0 (0, 0) "Neutrals" "Neutrals";
   mkState 1 false true 100 (500, 500) "Rus" "Kingdom of Rus"].

Definition run (ids : option (list nat)) (store : option (list Label))
    : list Label * bool :=
  stateLabelsRenderer OneState.graphWidth OneState.graphHeight
    OneState.findClosestCell OneState.cellStateIds OneState.cells_f
    OneState.features states Q Demo.toRadians Demo.Math_sin Demo.Math_cos
    Demo.Math_atan2 "auto" 10 Demo.getTotalLength Demo.textBBox
    Demo.placedBBox Demo.splitInTwo ids store.

End Locked.

(** ** Burg labels ([modules/labels-generator] and the renderer of the
    burg labels)

    The store [pack.labels] is the one of the state labels; what the
    renderers draw into the document is not modelled. *)

(** A burg, as far as the label code reads it.  [i] and [name] are read
    under the non-null assertion of the source ([burg.i!], [burg.name!]);
    [group?: string] is an option; a missing [removed] is [false]. *)
Record Burg : Type := mkBurg {
  b_i : nat;
  b_name : string;
  b_group : option string;
  b_removed : bool;
  b_x : Q;
  b_y : Q
}.

(** An entry of [options.burgs.groups]. *)
Record BurgGroup : Type := mkBurgGroup {
  bg_name : string;
  bg_order : Q
}.

(** The template [`burgLabel${burgId}`]. *)
Definition burgLabelId (burgId : nat) : string :=
  "burgLabel" ++ NilEmpty.string_of_uint (Nat.to_uint burgId).

(** [b.group === name && !b.removed]. *)
Definition inGroup (name : string) (b : Burg) : bool :=
  match b_group b with
  | Some group => String.eqb group name
  | None => false
  end && negb (b_removed b).

(** The label pushed for a burg of the group [name]. *)
Definition burgLabelOf (name : string) (burg : Burg) : BurgLabel :=
  mkBurgLabel (burgLabelId (b_i burg)) (b_name burg) name (b_i burg).

(** [generateBurgLabelsData]: the two nested loops, each [push] appending
    to [labels]. *)
Definition generateBurgLabelsData (burgGroups : list BurgGroup)
    (burgs : list Burg) : list BurgLabel :=
  fold_left
    (fun labels group =>
       let name := bg_name group in
       let burgsInGroup := filter (inGroup name) burgs in
       fold_left (fun labels burg => labels ++ [burgLabelOf name burg])
                 burgsInGroup labels)
    burgGroups [].

(** [array.findIndex(p)]; [None] is the [-1] of the source. *)
Fixpoint findIndex {A : Type} (p : A -> bool) (xs : list A) : option nat :=
  match xs with
  | [] => None
  | a :: rest => if p a then Some 0%nat else option_map S (findIndex p rest)
  end.

(** [array.splice(index, 1)], for the array left behind. *)
Definition spliceOne {A : Type} (index : nat) (xs : list A) : list A :=
  firstn index xs ++ skipn (S index) xs.

Section BurgRenderers.

Variable burgGroups : list BurgGroup.
Variable burgs : list Burg.
(** [burgLabels.select(selector).empty()]: whether the document lacks the
    group element. *)
Variable labelGroupEmpty : string -> bool.

(** [burgLabelsRenderer], as a transformer of [pack.labels] ([None]: not
    yet initialised). *)
Definition burgLabelsRenderer (packLabels : option (list Label)) : list Label :=
  let labels0 := match packLabels with Some ls => ls | None => [] end in
  let labels1 :=
    filter (fun label => negb (String.eqb (label_type label) "burg"))
           labels0 in
  let generatedLabels := generateBurgLabelsData burgGroups burgs in
  labels1 ++ map BurgL generatedLabels.

(** [removeBurgLabelRenderer]: a store not yet initialised stays so. *)
Definition removeBurgLabelRenderer (burgId : nat)
    (packLabels : option (list Label)) : option (list Label) :=
  match packLabels with
  | Some labels =>
      let labelId := burgLabelId burgId in
      Some (filter (fun l => negb (String.eqb (label_i l) labelId)) labels)
  | None => None
  end.

(** [drawBurgLabelRenderer].  The selector is [`#${burg.group}`].  The
    label takes [burg.group!]: the result is [None] where that assertion
    does not hold, a case outside this model, since a label has a
    group. *)
Definition drawBurgLabelRenderer (burg : Burg)
    (packLabels : option (list Label)) : option (list Label) :=
  let selector :=
    ("#" ++ match b_group burg with
            | Some group => group
            | None => "undefined"
            end)%string in
  if labelGroupEmpty selector then Some (burgLabelsRenderer packLabels)
  else
    let packLabels := removeBurgLabelRenderer (b_i burg) packLabels in
    group <- b_group burg ;;
    let labelData := burgLabelOf group burg in
    let labels := match packLabels with Some ls => ls | None => [] end in
    match findIndex (fun l => String.eqb (label_i l) (bl_i labelData))
                    labels with
    | Some existingIndex =>
        Some (assignAt existingIndex (BurgL labelData) labels)
    | None => Some (labels ++ [BurgL labelData])
    end.

End BurgRenderers.

(** The burgs of the examples: the placeholder at index 0, two towns, a
    removed one and one without group. *)
Module Towns.

Definition burgGroups : list BurgGroup :=
  [mkBurgGroup "capital" 1; mkBurgGroup "town" 2].

Definition burgs : list Burg :=
  [mkBurg 0 "" None false 0 0;
   mkBurg 1 "Kiev" (Some "capital"%string) false 10 10;
   mkBurg 2 "Lviv" (Some "town"%string) false 20 20;
   mkBurg 3 "Old" (Some "town"%string) true 30 30;
   mkBurg 4 "Camp" None false 40 40].

Definition kiev : Label := BurgL (mkBurgLabel "burgLabel1" "Kiev" "capital" 1).
Definition lviv : Label := BurgL (mkBurgLabel "burgLabel2" "Lviv" "town" 2).

End Towns.

(** ** The label store with numeric ids ([modules/labels]: [LabelsModule],
    [generateStateLabels], [generateBurgLabels])

    [pack.labels] is threaded through the methods: each takes the array
    and gives the array it leaves.  An id is a natural number, as
    [getNextId] makes them. *)
Module Labels.

(** [Omit<StateLabelData, "i" | "type">]: what [addStateLabel] is given. *)
Record StateData : Type := mkStateData {
  sd_stateId : nat;
  sd_text : string;
  sd_fontSize : option Q
}.

(** [Omit<BurgLabelData, "i" | "type">]. *)
Record BurgData : Type := mkBurgData {
  bd_burgId : nat;
  bd_group : string;
  bd_text : string;
  bd_x : Q;
  bd_y : Q;
  bd_dx : Q;
  bd_dy : Q
}.

(** [Omit<CustomLabelData, "i" | "type">]. *)
Record CustomData : Type := mkCustomData {
  cd_group : string;
  cd_text : string;
  cd_pathPoints : PathPoints;
  cd_startOffset : option Q;
  cd_fontSize : option Q;
  cd_letterSpacing : option Q;
  cd_transform : option string
}.

(** [type LabelData]: the tag [type] is the constructor, [i] its first
    argument. *)
Inductive LabelData : Type :=
| StateLabelData (i : nat) (data : StateData)
| BurgLabelData (i : nat) (data : BurgData)
| CustomLabelData (i : nat) (data : CustomData).

(** [l.i]. *)
Definition ld_i (l : LabelData) : nat :=
  match l with
  | StateLabelData i _ | BurgLabelData i _ | CustomLabelData i _ => i
  end.

(** [l.type]. *)
Definition ld_type (l : LabelData) : string :=
  match l with
  | StateLabelData _ _ => "state"
  | BurgLabelData _ _ => "burg"
  | CustomLabelData _ _ => "custom"
  end.

(** [(l.type === "burg" || l.type === "custom") && l.group === group]. *)
Definition inLabelGroup (group : string) (l : LabelData) : bool :=
  match l with
  | StateLabelData _ _ => false
  | BurgLabelData _ data => String.eqb (bd_group data) group
  | CustomLabelData _ data => String.eqb (cd_group data) group
  end.

(** [l.type === "state" && l.stateId === stateId]. *)
Definition isStateLabelOf (stateId : nat) (l : LabelData) : bool :=
  match l with
  | StateLabelData _ data => Nat.eqb (sd_stateId data) stateId
  | _ => false
  end.

(** [l.type === "burg" && l.burgId === burgId]. *)
Definition isBurgLabelOf (burgId : nat) (l : LabelData) : bool :=
  match l with
  | BurgLabelData _ data => Nat.eqb (bd_burgId data) burgId
  | _ => false
  end.

(** [ids.sort((a, b) => a - b)]: the numbers in ascending order (by
    insertion; the sorted array of numbers does not depend on the
    method). *)
Fixpoint insertAscending (a : nat) (xs : list nat) : list nat :=
  match xs with
  | [] => [a]
  | b :: rest =>
      if (a <=? b)%nat then a :: xs else b :: insertAscending a rest
  end.

Definition sortAscending (xs : list nat) : list nat :=
  fold_right insertAscending [] xs.

(** An array of numbers in ascending order. *)
Fixpoint ascending (xs : list nat) : Prop :=
  match xs with
  | [] => True
  | a :: rest => (forall b, In b rest -> (a <= b)%nat) /\ ascending rest
  end.

(** [getNextId]. *)
Definition getNextId (labels : list LabelData) : nat :=
  match labels with
  | [] => 0%nat
  | _ =>
      let existingIds := sortAscending (map ld_i labels) in
      let last := nth (List.length existingIds - 1) existingIds 0%nat in
      match find (fun id => negb (includesNat existingIds id))
                 (seq 0 last) with
      | Some id => id
      | None => (last + 1)%nat
      end
  end.

Definition getAll (labels : list LabelData) : list LabelData := labels.

(** [get]; [None] is [undefined]. *)
Definition get (id : nat) (labels : list LabelData) : option LabelData :=
  find (fun l => Nat.eqb (ld_i l) id) labels.

Definition getByType (type : string) (labels : list LabelData)
    : list LabelData :=
  filter (fun l => String.eqb (ld_type l) type) labels.

Definition getByGroup (group : string) (labels : list LabelData)
    : list LabelData :=
  filter (inLabelGroup group) labels.

Definition getStateLabel (stateId : nat) (labels : list LabelData)
    : option LabelData :=
  find (isStateLabelOf stateId) labels.

Definition getBurgLabel (burgId : nat) (labels : list LabelData)
    : option LabelData :=
  find (isBurgLabelOf burgId) labels.

(** The three [add] methods: the array after the [push], and the label
    returned. *)
Definition addStateLabel (data : StateData) (labels : list LabelData)
    : list LabelData * LabelData :=
  let label := StateLabelData (getNextId labels) data in
  (labels ++ [label], label).

Definition addBurgLabel (data : BurgData) (labels : list LabelData)
    : list LabelData * LabelData :=
  let label := BurgLabelData (getNextId labels) data in
  (labels ++ [label], label).

Definition addCustomLabel (data : CustomData) (labels : list LabelData)
    : list LabelData * LabelData :=
  let label := CustomLabelData (getNextId labels) data in
  (labels ++ [label], label).

(** [const index = labels.findIndex(p); if (index !== -1)
    labels.splice(index, 1)]. *)
Definition removeFirst (p : LabelData -> bool) (labels : list LabelData)
    : list LabelData :=
  match findIndex p labels with
  | Some index => spliceOne index labels
  | None => labels
  end.

Definition removeLabel (id : nat) (labels : list LabelData) : list LabelData :=
  removeFirst (fun l => Nat.eqb (ld_i l) id) labels.

Definition removeByType (type : string) (labels : list LabelData)
    : list LabelData :=
  filter (fun l => negb (String.eqb (ld_type l) type)) labels.

Definition removeByGroup (group : string) (labels : list LabelData)
    : list LabelData :=
  filter (fun l => negb (inLabelGroup group l)) labels.

Definition removeStateLabel (stateId : nat) (labels : list LabelData)
    : list LabelData :=
  removeFirst (isStateLabelOf stateId) labels.

Definition removeBurgLabel (burgId : nat) (labels : list LabelData)
    : list LabelData :=
  removeFirst (isBurgLabelOf burgId) labels.

Definition clear (labels : list LabelData) : list LabelData := [].

(** [generateStateLabels(list?)]: [idList] is the optional argument. *)
Definition generateStateLabels (states : list State)
    (idList : option (list nat)) (labels : list LabelData) : list LabelData :=
  let labels :=
    match idList with
    | Some ids =>
        fold_left (fun labels stateId => removeStateLabel stateId labels)
                  ids labels
    | None => removeByType "state" labels
    end in
  fold_left
    (fun labels state =>
       if Nat.eqb (st_i state) 0 || st_removed state || st_lock state
       then labels
       else if match idList with
               | Some ids => negb (includesNat ids (st_i state))
               | None => false
               end
       then labels
       else fst (addStateLabel
                   (mkStateData (st_i state) (st_name state) (Some 100))
                   labels))
    states labels.

(** [burg.group || "unmarked"]: a missing group and the empty one are
    falsy. *)
Definition groupOrUnmarked (burg : Burg) : string :=
  match b_group burg with
  | Some group => if String.eqb group "" then "unmarked" else group
  | None => "unmarked"
  end.

(** [generateBurgLabels]. *)
Definition generateBurgLabels (burgs : list Burg) (labels : list LabelData)
    : list LabelData :=
  let labels := removeByType "burg" labels in
  fold_left
    (fun labels burg =>
       if Nat.eqb (b_i burg) 0 || b_removed burg then labels
       else
         let group := groupOrUnmarked burg in
         let dx := 0 in
         let dy := 0 in
         fst (addBurgLabel
                (mkBurgData (b_i burg) group (b_name burg) (b_x burg)
                            (b_y burg) dx dy)
                labels))
    burgs labels.

(** [generate]. *)
Definition generate (states : list State) (burgs : list Burg)
    (labels : list LabelData) : list LabelData :=
  let labels := clear labels in
  let labels := generateStateLabels states None labels in
  generateBurgLabels burgs labels.

End Labels.

(** The elements of a list numbered from [start] on. *)
Definition numbered {A : Type} (start : nat) (xs : list A) : list (nat * A) :=
  combine (seq start (List.length xs)) xs.

(** The labels of the examples with numeric ids. *)
Module Stored.

Definition rus : Labels.LabelData :=
  Labels.StateLabelData 0 (Labels.mkStateData 1 "Rus" (Some 100)).
Definition kiev : Labels.LabelData :=
  Labels.BurgLabelData 2 (Labels.mkBurgData 1 "capital" "Kiev" 10 10 0 0).
Definition note : Labels.CustomData :=
  Labels.mkCustomData "notes" "Here be dragons" [(0, 0); (10, 0)] None None
                      None None.

End Stored.

(** * Properties *)

(** ** Facts about the rational helpers *)

Lemma Qlt_bool_iff (a b : Q) : Qlt_bool a b = true <-> a < b.
Proof.
  unfold Qlt_bool. rewrite negb_true_iff.
  split; intro H.
  - apply Qnot_le_lt. intro Hle. apply Qle_bool_iff in Hle. congruence.
  - destruct (Qle_bool b a) eqn:E; [|reflexivity].
    apply Qle_bool_iff in E. lra.
Qed.

Lemma Qlt_bool_false_iff (a b : Q) : Qlt_bool a b = false <-> b <= a.
Proof.
  unfold Qlt_bool. rewrite negb_false_iff. apply Qle_bool_iff.
Qed.

Lemma Qeq_bool_false_iff (a b : Q) : Qeq_bool a b = false <-> ~ a == b.
Proof.
  split.
  - apply Qeq_bool_neq.
  - intro H. destruct (Qeq_bool a b) eqn:E; [|reflexivity].
    apply Qeq_bool_iff in E. contradiction.
Qed.

#[export] Instance Qlt_bool_comp : Proper (Qeq ==> Qeq ==> eq) Qlt_bool.
Proof.
  intros a a' Ha b b' Hb. unfold Qlt_bool. now rewrite Ha, Hb.
Qed.

#[export] Instance Qtrunc_comp : Proper (Qeq ==> eq) Qtrunc.
Proof.
  intros a a' Ha. unfold Qtrunc.
  rewrite (Qleb_comp 0 0 (Qeq_refl 0) a a' Ha).
  rewrite (Qfloor_comp a a' Ha), (Qceiling_comp a a' Ha). reflexivity.
Qed.

#[export] Instance jsrem_comp : Proper (Qeq ==> Qeq ==> Qeq) jsrem.
Proof.
  intros a a' Ha m m' Hm. unfold jsrem.
  assert (E : Qtrunc (a / m) = Qtrunc (a' / m')) by (apply Qtrunc_comp; now rewrite Ha, Hm).
  rewrite E, Ha, Hm. reflexivity.
Qed.

Lemma Qtrunc_nonneg (q : Q) : 0 <= q -> Qtrunc q = Qfloor q.
Proof.
  intro H. unfold Qtrunc. apply Qle_bool_iff in H. now rewrite H.
Qed.

(** On a non-negative dividend the remainder is the floor modulus. *)
Lemma jsrem_nonneg_modulo (a m : Q) :
  0 <= a -> 0 < m -> jsrem a m = Qmodulo a m.
Proof.
  intros Ha Hm. unfold jsrem, Qmodulo.
  rewrite Qtrunc_nonneg; [reflexivity|].
  apply Qle_shift_div_l; lra.
Qed.

Lemma Qmodulo_range (a m : Q) : 0 < m -> 0 <= Qmodulo a m < m.
Proof.
  intro Hm. unfold Qmodulo.
  pose proof (Qfloor_le (a / m)) as Hlo.
  pose proof (Qlt_floor (a / m)) as Hhi.
  rewrite inject_Z_plus in Hhi. change (inject_Z 1) with 1 in Hhi.
  set (k := inject_Z (Qfloor (a / m))) in *.
  assert (Ea : a == (a / m) * m) by (field; lra).
  assert (H1 : k * m <= (a / m) * m) by (apply Qmult_le_compat_r; lra).
  assert (H2 : (a / m) * m < (k + 1) * m) by (apply Qmult_lt_compat_r; lra).
  split; lra.
Qed.

Lemma jsrem_range (a m : Q) : 0 <= a -> 0 < m -> 0 <= jsrem a m < m.
Proof.
  intros Ha Hm. rewrite jsrem_nonneg_modulo by assumption.
  now apply Qmodulo_range.
Qed.

(** [for_range] lists the values of the counter of a counting loop: with
    a positive step, each value is below the bound and the value that
    would follow the last one is not. *)
Lemma for_range_values (start stop step : Q) :
  0 < step ->
  let values := for_range start stop step in
  (forall k : nat, (k < List.length values)%nat ->
     nth_error values k = Some (start + Js.of_nat k * step) /\
     start + Js.of_nat k * step < stop) /\
  stop <= start + Js.of_nat (List.length values) * step.
Proof.
  intros Hstep values. unfold values, for_range.
  set (q := (stop - start) / step).
  set (n := Z.to_nat (Qceiling q)).
  rewrite length_map, length_seq.
  assert (Hq : stop - start == q * step) by (unfold q; field; lra).
  pose proof (Qle_ceiling q) as Hup.
  pose proof (Qceiling_lt q) as Hlow.
  split.
  - intros k Hk. split.
    + rewrite nth_error_map, nth_error_seq.
      apply Nat.ltb_lt in Hk. rewrite Hk. reflexivity.
    + assert (Hkq : Js.of_nat k < q).
      { unfold Js.of_nat. eapply Qle_lt_trans; [|exact Hlow].
        rewrite <- Zle_Qle. unfold n in Hk. lia. }
      assert (Js.of_nat k * step < q * step)
        by (apply Qmult_lt_compat_r; assumption).
      lra.
  - assert (Hnq : q <= Js.of_nat n).
    { unfold Js.of_nat, n. destruct (Z_le_gt_dec 0 (Qceiling q)) as [Hc|Hc].
      - rewrite Z2Nat.id by exact Hc. exact Hup.
      - eapply Qle_trans; [exact Hup|].
        rewrite <- Zle_Qle. lia. }
    assert (q * step <= Js.of_nat n * step)
      by (apply Qmult_le_compat_r; lra).
    lra.
Qed.

(** ** Angles, deltas and the curvature multiplier *)

Section AngleExamples.

Example scoreRayAngle_bands :
  map scoreRayAngle [0; 9; 27; 45; 63; 72; 81; 90; 180; 351]
  = [1; 0.9; 0.6; 0.6; 0.5; 0.2; 0.1; 0.1; 1; 0.9].
Proof. reflexivity. Qed.

Example scoreCurvature_straight : scoreCurvature 0 180 == 1.
Proof. reflexivity. Qed.

Example scoreCurvature_acute : scoreCurvature 10 90 == 0.
Proof. reflexivity. Qed.

Example scoreCurvature_band_06 : scoreCurvature 351 90 == 0.6 * 0.1.
Proof. reflexivity. Qed.

Example getAngleDelta_wraps : getAngleDelta 351 9 == 18.
Proof. reflexivity. Qed.

(** Two rays 80 degrees apart score nothing, whatever their lengths. *)
Example pairScore_delta_80 :
  getAngleDelta 0 80 == 80 /\
  pairScore (mkRay 0 295 795 500) (mkRay 80 150 526 648) == 0.
Proof. split; reflexivity. Qed.

End AngleExamples.

Section AngleFacts.

#[local] Instance getAngleDelta_comp : Proper (Qeq ==> Qeq ==> Qeq) getAngleDelta.
Proof.
  intros a a' Ha b b' Hb. unfold getAngleDelta.
  assert (E : jsrem (Qabs (a - b)) 360 == jsrem (Qabs (a' - b')) 360)
    by now rewrite Ha, Hb.
  rewrite (Qlt_bool_comp 180 180 (Qeq_refl _) _ _ E).
  destruct (Qlt_bool 180 _); rewrite E; reflexivity.
Qed.

Lemma getAngleDelta_range (a1 a2 : Q) : 0 <= getAngleDelta a1 a2 <= 180.
Proof.
  unfold getAngleDelta.
  assert (H : 0 <= jsrem (Qabs (a1 - a2)) 360 < 360)
    by (apply jsrem_range; [apply Qabs_nonneg | lra]).
  destruct (Qlt_bool 180 _) eqn:E.
  - apply Qlt_bool_iff in E. lra.
  - apply Qlt_bool_false_iff in E. lra.
Qed.

Lemma Qabs_minus_sym (a b : Q) : Qabs (a - b) == Qabs (b - a).
Proof.
  setoid_replace (b - a) with (- (a - b)) by ring.
  symmetry. apply Qabs_opp.
Qed.

Lemma getAngleDelta_sym (a1 a2 : Q) :
  getAngleDelta a1 a2 == getAngleDelta a2 a1.
Proof.
  unfold getAngleDelta.
  assert (E : jsrem (Qabs (a1 - a2)) 360 == jsrem (Qabs (a2 - a1)) 360)
    by (apply jsrem_comp; [apply Qabs_minus_sym | reflexivity]).
  rewrite (Qlt_bool_comp 180 180 (Qeq_refl _) _ _ E).
  destruct (Qlt_bool 180 _); rewrite E; reflexivity.
Qed.

Lemma evaluateArc_sym (a1 a2 : Q) : evaluateArc a1 a2 == evaluateArc a2 a1.
Proof.
  unfold evaluateArc. cbv zeta.
  rewrite (Qabs_minus_sym (Qabs (jsrem a1 180 - 90))). reflexivity.
Qed.

(** The banding of [scoreCurvature] depends on the pair only through its
    delta and its arc similarity. *)
Lemma scoreCurvature_ext (a1 a2 b1 b2 : Q) :
  getAngleDelta a1 a2 == getAngleDelta b1 b2 ->
  evaluateArc a1 a2 == evaluateArc b1 b2 ->
  scoreCurvature a1 a2 == scoreCurvature b1 b2.
Proof.
  intros Hd Hs. unfold scoreCurvature. cbv zeta.
  rewrite (Qeqb_comp _ _ Hd 180 180 (Qeq_refl _)).
  rewrite (Qlt_bool_comp _ _ Hd 90 90 (Qeq_refl _)).
  rewrite (Qlt_bool_comp _ _ Hd 120 120 (Qeq_refl _)).
  rewrite (Qlt_bool_comp _ _ Hd 140 140 (Qeq_refl _)).
  rewrite (Qlt_bool_comp _ _ Hd 160 160 (Qeq_refl _)).
  repeat match goal with |- context [if ?b then _ else _] => destruct b end;
    rewrite ?Hs; reflexivity.
Qed.

End AngleFacts.


Lemma evaluateArc_similarity (a1 a2 : Q) : evaluateArc a1 a2 = similarity a1 a2.
Proof. reflexivity. Qed.

(** Case analysis on the comparisons of a goal or hypothesis, turning each
    boolean test on rationals into the order fact it decides. *)
Ltac Qcases :=
  repeat match goal with
  | |- context [Qeq_bool ?a ?b] =>
      let E := fresh "E" in
      destruct (Qeq_bool a b) eqn:E;
      [apply Qeq_bool_iff in E | apply Qeq_bool_false_iff in E]
  | |- context [Qlt_bool ?a ?b] =>
      let E := fresh "E" in
      destruct (Qlt_bool a b) eqn:E;
      [apply Qlt_bool_iff in E | apply Qlt_bool_false_iff in E]
  | |- context [Qle_bool ?a ?b] =>
      let E := fresh "E" in
      destruct (Qle_bool a b) eqn:E;
      [apply Qle_bool_iff in E
      | assert (b < a) by (apply Qlt_bool_iff; unfold Qlt_bool; now rewrite E);
        clear E]
  end.

Lemma pairScore_acute (ri rj : Ray) :
  getAngleDelta (ray_angle ri) (ray_angle rj) < 90 -> pairScore ri rj == 0.
Proof.
  intro H. unfold pairScore. cbv zeta.
  assert (E : scoreCurvature (ray_angle ri) (ray_angle rj) == 0).
  { unfold scoreCurvature. cbv zeta. Qcases; try reflexivity; lra. }
  rewrite E. ring.
Qed.

(** C1.  The curvature multiplier follows the banding rule.  For all angles
    [a1], [a2], with [d] their delta as [getAngleDelta] computes it and
    [similarity = 1 - |proximity a1 - proximity a2| / 90]: [d] lies in
    [0, 180]; [d = 180] gives 1; [d < 90] gives 0, and then the score of
    any pair of rays at these angles is 0 whatever their lengths;
    [d] in [90, 120) gives [0.6 * similarity]; [120, 140) gives
    [0.7 * similarity]; [140, 160) gives [0.8 * similarity]; [160, 180)
    gives the similarity itself. *)
Theorem scoreCurvature_bands : forall a1 a2 : Q,
  let d := getAngleDelta a1 a2 in
  let c := scoreCurvature a1 a2 in
  (0 <= d <= 180) /\
  (d == 180 -> c == 1) /\
  (d < 90 ->
     c == 0 /\
     forall l1 x1 y1 l2 x2 y2,
       pairScore (mkRay a1 l1 x1 y1) (mkRay a2 l2 x2 y2) == 0) /\
  (90 <= d < 120 -> c == 0.6 * similarity a1 a2) /\
  (120 <= d < 140 -> c == 0.7 * similarity a1 a2) /\
  (140 <= d < 160 -> c == 0.8 * similarity a1 a2) /\
  (160 <= d < 180 -> c == similarity a1 a2).
Proof.
  intros a1 a2 d c.
  pose proof (getAngleDelta_range a1 a2) as Hr. fold d in Hr.
  split; [exact Hr|].
  unfold c, scoreCurvature. cbv zeta.
  rewrite evaluateArc_similarity. fold d.
  repeat split; try intros Hd; try intros;
    try (apply pairScore_acute; simpl; fold d; lra);
    Qcases; try reflexivity; lra.
Qed.

(** On the angles the sampler produces (none is negative) the remainder
    [a % 180] in [proximity] is the mathematical [a mod 180]. *)
Lemma proximity_nonneg_angle (a : Q) :
  0 <= a -> proximity a = Qabs (Qmodulo a 180 - 90).
Proof.
  intro H. unfold proximity. rewrite jsrem_nonneg_modulo; [reflexivity|lra|lra].
Qed.

(** C10.  The score of a pair does not depend on the order of its rays:
    the delta, the arc similarity and the curvature multiplier are
    symmetric in the two angles, and so is the score of the pair. *)
Theorem pair_score_symmetric : forall a1 a2 : Q,
  getAngleDelta a1 a2 == getAngleDelta a2 a1 /\
  evaluateArc a1 a2 == evaluateArc a2 a1 /\
  scoreCurvature a1 a2 == scoreCurvature a2 a1 /\
  (forall ri rj : Ray, pairScore ri rj == pairScore rj ri).
Proof.
  intros a1 a2.
  assert (Hc : forall b1 b2, scoreCurvature b1 b2 == scoreCurvature b2 b1).
  { intros b1 b2. apply scoreCurvature_ext.
    - apply getAngleDelta_sym.
    - apply evaluateArc_sym. }
  repeat split.
  - apply getAngleDelta_sym.
  - apply evaluateArc_sym.
  - apply Hc.
  - intros ri rj. unfold pairScore. cbv zeta.
    rewrite (Hc (ray_angle ri) (ray_angle rj)). ring.
Qed.

(** ** The scan of [findBestRayPair] *)

Section Scan.

Variable rays : list Ray.

#[local] Abbreviation n := (List.length rays).
#[local] Abbreviation ray := (rayAt rays).
#[local] Abbreviation score := (scoreAt rays).
#[local] Abbreviation scanned := (scannedBefore rays).
#[local] Abbreviation BestHere := (BestAt rays).

Lemma scanPair_step (i j : nat) (best : Best) :
  (i < j < n)%nat ->
  BestHere i j best ->
  BestHere i (S j) (scanPair (ray i) best (ray j)).
Proof.
  intros Hij [[-> Hnone] | (bi & bj & Hb & -> & Hmax)].
  - right. exists i, j. unfold scanPair; simpl.
    split; [unfold scannedBefore; lia|]. split; [reflexivity|].
    intros k l Hkl.
    assert (k = i /\ l = j) as [-> ->].
    { destruct (Nat.eq_dec k i) as [->|Hk]; [destruct (Nat.eq_dec l j)|].
      - auto.
      - exfalso. apply (Hnone i l). unfold scannedBefore in *. lia.
      - exfalso. apply (Hnone k l). unfold scannedBefore in *. lia. }
    split; [apply Qle_refl|]. unfold scannedBefore. lia.
  - unfold scanPair, Js.gt, Js.lt; simpl snd. fold (score i j).
    destruct (Qlt_bool (score bi bj) (score i j)) eqn:E.
    + apply Qlt_bool_iff in E. right. exists i, j.
      split; [unfold scannedBefore; lia|]. split; [reflexivity|].
      intros k l Hkl.
      destruct (Nat.eq_dec k i) as [->|Hk];
        [destruct (Nat.eq_dec l j) as [->|Hl]|].
      * split; [apply Qle_refl|]. unfold scannedBefore. lia.
      * assert (Hold : scanned i j i l)
          by (unfold scannedBefore in *; lia).
        destruct (Hmax _ _ Hold) as [Hle _]. split; intros; lra.
      * assert (Hold : scanned i j k l)
          by (unfold scannedBefore in *; lia).
        destruct (Hmax _ _ Hold) as [Hle _]. split; intros; lra.
    + apply Qlt_bool_false_iff in E. right. exists bi, bj.
      split; [unfold scannedBefore in *; lia|]. split; [reflexivity|].
      intros k l Hkl.
      destruct (Nat.eq_dec k i) as [->|Hk];
        [destruct (Nat.eq_dec l j) as [->|Hl]|].
      * split; [exact E|]. unfold scannedBefore in *. lia.
      * apply Hmax. unfold scannedBefore in *. lia.
      * apply Hmax. unfold scannedBefore in *. lia.
Qed.

Lemma skipn_cons_nth (j : nat) (r : Ray) (rest : list Ray) :
  skipn j rays = r :: rest ->
  (j < n)%nat /\ ray j = r /\ skipn (S j) rays = rest.
Proof.
  unfold rayAt. revert j. induction rays as [|a l IH]; intros j H.
  - destruct j; discriminate.
  - destruct j as [|j].
    + simpl in H. injection H as -> ->. simpl. repeat split. lia.
    + simpl in H. destruct (IH _ H) as (H1 & H2 & H3).
      repeat split; simpl; auto. lia.
Qed.

Lemma skipn_nil_length (j : nat) : skipn j rays = [] -> (n <= j)%nat.
Proof.
  revert j. induction rays as [|a l IH]; intros j H.
  - simpl. lia.
  - destruct j; [discriminate|]. simpl in *. apply IH in H. lia.
Qed.

(** The inner loop, entered at [j] with [rest = rays[j..]]. *)
Lemma scanRow_inv (i : nat) (rest : list Ray) :
  forall (j : nat) (best : Best),
    (i < j)%nat ->
    skipn j rays = rest ->
    BestHere i j best ->
    BestHere i n (scanRow (ray i) rest best).
Proof.
  induction rest as [|r rest IH]; intros j best Hij Hskip Hinv.
  - simpl. apply skipn_nil_length in Hskip.
    destruct Hinv as [[-> Hnone] | (bi & bj & Hb & -> & Hmax)].
    + left. split; [reflexivity|]. intros k l Hs. apply (Hnone k l).
      unfold scannedBefore in *. lia.
    + right. exists bi, bj. split; [unfold scannedBefore in *; lia|].
      split; [reflexivity|]. intros k l Hs. apply Hmax.
      unfold scannedBefore in *. lia.
  - destruct (skipn_cons_nth _ _ _ Hskip) as (Hj & <- & Hrest).
    unfold scanRow in *. simpl.
    apply (IH (S j)); [lia | exact Hrest |].
    apply scanPair_step; [lia | exact Hinv].
Qed.

(** The outer loop, entered at [i] with [todo = rays[i..]]. *)
Lemma scanRays_inv (todo : list Ray) :
  forall (i : nat) (best : Best),
    skipn i rays = todo ->
    BestHere i (S i) best ->
    BestHere n (S n) (scanRays todo best).
Proof.
  induction todo as [|r todo IH]; intros i best Hskip Hinv.
  - simpl. apply skipn_nil_length in Hskip.
    destruct Hinv as [[-> Hnone] | (bi & bj & Hb & -> & Hmax)].
    + left. split; [reflexivity|]. intros k l Hs. apply (Hnone k l).
      unfold scannedBefore in *. lia.
    + right. exists bi, bj. split; [unfold scannedBefore in *; lia|].
      split; [reflexivity|]. intros k l Hs. apply Hmax.
      unfold scannedBefore in *. lia.
  - destruct (skipn_cons_nth _ _ _ Hskip) as (Hi & <- & Hrest).
    simpl. apply (IH (S i)); [exact Hrest|].
    pose proof (scanRow_inv i todo (S i) best (Nat.lt_succ_diag_r i) Hrest Hinv)
      as Hrow.
    destruct Hrow as [[-> Hnone] | (bi & bj & Hb & -> & Hmax)].
    + left. split; [reflexivity|]. intros k l Hs. apply (Hnone k l).
      unfold scannedBefore in *. lia.
    + right. exists bi, bj. split; [unfold scannedBefore in *; lia|].
      split; [reflexivity|]. intros k l Hs. apply Hmax.
      unfold scannedBefore in *. lia.
Qed.

Lemma scanRays_all : BestHere n (S n) (scanRays rays (None, NInf)).
Proof.
  apply (scanRays_inv rays 0%nat); [reflexivity|].
  left. split; [reflexivity|]. intros k l Hs. unfold scannedBefore in Hs. lia.
Qed.

End Scan.


(** The tie-break on a symmetric input: the four pairs [(0,1)], [(0,3)],
    [(1,2)], [(2,3)] of these rays all score 20, and the first one met is
    returned. *)
Example findBestRayPair_tie :
  findBestRayPair
    [mkRay 0 10 10 0; mkRay 180 10 (-10) 0; mkRay 0 10 11 0; mkRay 180 10 (-11) 0]
  = Some (mkRay 0 10 10 0, mkRay 180 10 (-10) 0).
Proof. reflexivity. Qed.

(** The lengths count: of two short and two long rays along the same two
    directions, the long ones are returned, though the short pair is met
    first. *)
Example findBestRayPair_prefers_long :
  findBestRayPair
    [mkRay 0 1 501 500; mkRay 180 1 499 500;
     mkRay 0 295 795 500; mkRay 180 295 205 500]
  = Some (mkRay 0 295 795 500, mkRay 180 295 205 500).
Proof. reflexivity. Qed.

(** ** The ray caster *)

Section RaycastFacts.

Variable graphWidth graphHeight : Q.
Variable findClosestCell : Q -> Q -> nat.
Variable cellStateIds : list nat.
Variable cells_f : list nat.
Variable features : list Feature.
Variable stateId : nat.
Variable x0 y0 dx dy : Q.
Variable maxLakeSize : Q.
Variable offset : Q.

Let inside := isInsideState graphWidth graphHeight findClosestCell
                cellStateIds cells_f features stateId maxLakeSize.
Let accepts := inState graphWidth graphHeight findClosestCell
                 cellStateIds cells_f features stateId x0 y0 dx dy
                 maxLakeSize offset.
Let cast := castAlong graphWidth graphHeight findClosestCell
              cellStateIds cells_f features stateId x0 y0 dx dy
              maxLakeSize offset.
Let after := rayAfter x0 y0 dx dy.

(** The loop header of [raycast] yields 59 candidates. *)
Lemma raycast_candidates :
  for_range LENGTH_START LENGTH_MAX LENGTH_STEP = map candidate (seq 0 59).
Proof. reflexivity. Qed.

Lemma candidate_value (k : nat) : candidate k == 5 * (Js.of_nat k + 1).
Proof. unfold candidate, LENGTH_START, LENGTH_STEP. ring. Qed.

Lemma andM_true (a b : option bool) :
  andM a b = Some true <-> a = Some true /\ b = Some true.
Proof.
  unfold andM. destruct a as [[|]|]; split; intros; try tauto;
    try discriminate; destruct H; try discriminate; auto.
Qed.

Lemma inState_accepts (length : Q) :
  accepts length = Some true <->
  inside (x0 + length * dx) (y0 + length * dy) = Some true /\
  inside (x0 + length * dx + - dy * offset)
         (y0 + length * dy + dx * offset) = Some true /\
  inside (x0 + length * dx + dy * offset)
         (y0 + length * dy + - dx * offset) = Some true.
Proof.
  unfold accepts, inState. cbv zeta. simpl fst. simpl snd.
  rewrite !andM_true. fold inside. tauto.
Qed.

(** The scan over the candidates [a], [a + 1], ...: it stops at [m]. *)
Lemma castAlong_stops (len : nat) :
  forall a m : nat,
    (a <= m <= a + len)%nat ->
    (forall k, (a <= k < m)%nat -> accepts (candidate k) = Some true) ->
    ((m < a + len)%nat -> accepts (candidate m) = Some false) ->
    cast (map candidate (seq a len)) (after a) = Some (after m).
Proof.
  induction len as [|len IH]; intros a m Hm Hacc Hrej.
  - simpl. replace m with a by lia. reflexivity.
  - simpl. unfold cast, castAlong. fold castAlong. fold accepts.
    destruct (Nat.eq_dec m a) as [->|Hne].
    + rewrite Hrej by lia. reflexivity.
    + rewrite (Hacc a) by lia. simpl.
      apply (IH (S a) m); [lia | intros; apply Hacc; lia | intros; apply Hrej; lia].
Qed.

Lemma raycast_returns_last_accepted :
  ReturnsLastAccepted graphWidth graphHeight findClosestCell cellStateIds
    cells_f features stateId x0 y0 dx dy maxLakeSize offset 59.
Proof.
  intros m Hm Hacc Hrej. unfold raycast. rewrite raycast_candidates.
  apply (castAlong_stops 59 0 m); [lia | intros; apply Hacc; lia | exact Hrej].
Qed.

(** When no test throws, the scan stops somewhere. *)
Lemma stopping_point (count : nat) :
  (forall length, accepts length <> None) ->
  exists m : nat,
    (m <= count)%nat /\
    (forall k, (k < m)%nat -> accepts (candidate k) = Some true) /\
    ((m < count)%nat -> accepts (candidate m) = Some false).
Proof.
  intro Htotal. induction count as [|count (m & Hm & Hacc & Hrej)].
  - exists 0%nat. repeat split; intros; lia.
  - destruct (Nat.eq_dec m count) as [->|Hne].
    + destruct (accepts (candidate count)) as [[|]|] eqn:E.
      * exists (S count). repeat split; [lia | | lia].
        intros k Hk. destruct (Nat.eq_dec k count) as [->|]; [exact E|].
        apply Hacc. lia.
      * exists count. repeat split; [lia | exact Hacc | intros; exact E].
      * exfalso. exact (Htotal _ E).
    + exists m. repeat split; [lia | exact Hacc | intros; apply Hrej; lia].
Qed.

End RaycastFacts.

(** C3 (amended).  [raycast] tests the candidate lengths 5, 10, ..., 295:
    the counter starts at 5, steps by 5 and stays strictly below 300, so 300
    itself is never a candidate.  A candidate is accepted only if the point
    on the ray and both offset points are inside the state; the scan stops
    at the first candidate rejected and returns the last one accepted; when
    no test throws there is such a stopping point; and when the first
    candidate is rejected the ray has length 0 and ends at the reference
    point. *)
Theorem raycast_last_accepted :
  forall (graphWidth graphHeight : Q) (findClosestCell : Q -> Q -> nat)
         (cellStateIds cells_f : list nat) (features : list Feature)
         (stateId : nat) (x0 y0 dx dy maxLakeSize offset : Q),
  let inside := isInsideState graphWidth graphHeight findClosestCell
                  cellStateIds cells_f features stateId maxLakeSize in
  let accepts := inState graphWidth graphHeight findClosestCell
                   cellStateIds cells_f features stateId x0 y0 dx dy
                   maxLakeSize offset in
  let result := raycast graphWidth graphHeight findClosestCell
                  cellStateIds cells_f features stateId x0 y0 dx dy
                  maxLakeSize offset in
  for_range LENGTH_START LENGTH_MAX LENGTH_STEP = map candidate (seq 0 59) /\
  (forall k, candidate k == 5 * (Js.of_nat k + 1)) /\
  (forall length,
      accepts length = Some true <->
      inside (x0 + length * dx) (y0 + length * dy) = Some true /\
      inside (x0 + length * dx + - dy * offset)
             (y0 + length * dy + dx * offset) = Some true /\
      inside (x0 + length * dx + dy * offset)
             (y0 + length * dy + - dx * offset) = Some true) /\
  ReturnsLastAccepted graphWidth graphHeight findClosestCell cellStateIds
    cells_f features stateId x0 y0 dx dy maxLakeSize offset 59 /\
  ((forall length, accepts length <> None) ->
   exists m : nat,
     (m <= 59)%nat /\
     (forall k, (k < m)%nat -> accepts (candidate k) = Some true) /\
     ((m < 59)%nat -> accepts (candidate m) = Some false) /\
     result = Some (rayAfter x0 y0 dx dy m)) /\
  (accepts (candidate 0) = Some false -> result = Some (mkRayHit 0 x0 y0)).
Proof.
  intros. split; [apply raycast_candidates|].
  split; [apply candidate_value|].
  split; [apply inState_accepts|].
  pose proof (raycast_returns_last_accepted graphWidth graphHeight
                findClosestCell cellStateIds cells_f features stateId
                x0 y0 dx dy maxLakeSize offset) as Hlast.
  split; [exact Hlast|]. split.
  - intro Htotal.
    destruct (stopping_point graphWidth graphHeight findClosestCell
                cellStateIds cells_f features stateId x0 y0 dx dy
                maxLakeSize offset 59 Htotal) as (m & Hm & Hacc & Hrej).
    exists m. repeat split; try assumption.
    apply Hlast; assumption.
  - intro Hrej. apply (Hlast 0%nat); [lia | intros; lia | intros; exact Hrej].
Qed.


(** On the map that is one state all over, eastward from its middle,
    the first 60 multiples of five are all accepted. *)
Lemma OneState_accepts (k : nat) :
  (k < 60)%nat -> OneState.accepts (candidate k) = Some true.
Proof.
  intro H.
  do 60 (destruct k as [|k]; [vm_compute; reflexivity|]).
  lia.
Qed.

(** C3 as worded, with 300 among the candidates (60 of them), fails: from
    the middle of a map that is one state all over, eastward, every
    candidate is accepted and the ray returned has length 295, not 300. *)
Lemma raycast_never_reaches_300 :
  OneState.cast = Some (mkRayHit 295 795 500) /\
  ~ ReturnsLastAccepted OneState.graphWidth OneState.graphHeight
      OneState.findClosestCell OneState.cellStateIds OneState.cells_f
      OneState.features 1 500 500 1 0 0 0 60.
Proof.
  split; [vm_compute; reflexivity|].
  intro H. specialize (H 60%nat (Nat.le_refl _)).
  assert (E : OneState.cast = Some (rayAfter 500 500 1 0 60)).
  { apply H; [intros k Hk; now apply OneState_accepts | lia]. }
  vm_compute in E. discriminate E.
Qed.

(** ** The containment predicate *)

Lemma stateIs_true (stateIds : list nat) (cellId stateId : nat) :
  stateIs stateIds cellId stateId = true <->
  nth_error stateIds cellId = Some stateId.
Proof.
  unfold stateIs. destruct (nth_error stateIds cellId) as [s|].
  - rewrite Nat.eqb_eq. split; congruence.
  - split; discriminate.
Qed.

Lemma isInnerLake_true (cellStateIds : list nat) (stateId : nat) (feature : Feature) :
  isInnerLake cellStateIds stateId feature = true <->
  forall cellId, In cellId (f_shoreline feature) ->
                 nth_error cellStateIds cellId = Some stateId.
Proof.
  unfold isInnerLake. rewrite forallb_forall.
  split; intros H c Hc; apply stateIs_true; auto.
Qed.

(** C4.  The containment predicate [isInsideState]: a point off the canvas
    is outside; on the canvas, with [feature] the feature of the cell at
    the point, if the feature is a lake the point is inside if and only if
    every shoreline cell of the lake is a cell of the state or the cell
    count of the lake is at most [maxLakeSize] (the owner of the cell plays
    no part); otherwise the point is inside if and only if its cell is a
    cell of the state. *)
Theorem isInsideState_classification :
  forall (graphWidth graphHeight : Q) (findClosestCell : Q -> Q -> nat)
         (cellStateIds cells_f : list nat) (features : list Feature)
         (stateId : nat) (maxLakeSize x y : Q),
  let inside := isInsideState graphWidth graphHeight findClosestCell
                  cellStateIds cells_f features stateId maxLakeSize x y in
  let cellId := findClosestCell x y in
  ((x < 0 \/ graphWidth < x \/ y < 0 \/ graphHeight < y) ->
   inside = Some false) /\
  (0 <= x <= graphWidth -> 0 <= y <= graphHeight ->
   forall feature : Feature,
     featureOfCell cells_f features cellId = Some feature ->
     (f_type feature = "lake"%string ->
      exists b : bool,
        inside = Some b /\
        (b = true <->
         (forall c, In c (f_shoreline feature) ->
                    nth_error cellStateIds c = Some stateId)
         \/ f_cells feature <= maxLakeSize)) /\
     (f_type feature <> "lake"%string ->
      exists b : bool,
        inside = Some b /\
        (b = true <-> nth_error cellStateIds cellId = Some stateId))).
Proof.
  intros. unfold inside, isInsideState. split.
  - intro Hout.
    assert (E : Qlt_bool x 0 || Qlt_bool graphWidth x
                || Qlt_bool y 0 || Qlt_bool graphHeight y = true).
    { rewrite !orb_true_iff, !Qlt_bool_iff. tauto. }
    now rewrite E.
  - intros Hx Hy feature Hf.
    assert (E : Qlt_bool x 0 || Qlt_bool graphWidth x
                || Qlt_bool y 0 || Qlt_bool graphHeight y = false).
    { rewrite !orb_false_iff, !Qlt_bool_false_iff. tauto. }
    rewrite E. cbv zeta. fold cellId. rewrite Hf. simpl.
    split; intro Ht.
    + apply String.eqb_eq in Ht. rewrite Ht.
      eexists. split; [reflexivity|].
      rewrite orb_true_iff, isInnerLake_true.
      unfold isSmallLake. rewrite Qle_bool_iff. tauto.
    + apply String.eqb_neq in Ht. rewrite Ht.
      eexists. split; [reflexivity|]. apply stateIs_true.
Qed.

(** ** Numbers of the fitter *)

Section JsFacts.

Lemma gt_fin (p q : Q) : Js.gt (Fin p) (Fin q) = true <-> q < p.
Proof. unfold Js.gt, Js.lt. apply Qlt_bool_iff. Qed.

Lemma of_nat_nonneg (n : nat) : 0 <= Js.of_nat n.
Proof.
  unfold Js.of_nat. change 0 with (inject_Z 0).
  rewrite <- Zle_Qle. lia.
Qed.

End JsFacts.

(** ** The fitter *)

Example getLinesAndRatio_short_Rus (split : string -> list string) :
  getLinesAndRatio split "short" "Rus" "Russia" (Fin 30) = (["Rus"%string], Fin 150).
Proof. reflexivity. Qed.

(** Name of length 14, path length exactly 28: the two-line branch. *)
Example getLinesAndRatio_boundary :
  getLinesAndRatio (fun _ => ["Kingdom"; "of Rus"]%string)
                   "auto" "Rus" "Kingdom of Rus" (Fin 28)
  = (["Kingdom"; "of Rus"]%string, Fin 150).
Proof. reflexivity. Qed.

Lemma longestLine_two (l1 l2 : string) :
  longestLine [l1; l2] = Nat.max (String.length l1) (String.length l2).
Proof. unfold longestLine. simpl. now rewrite Nat.max_0_r. Qed.

Section FitterFacts.

Variable splitInTwo : string -> list string.
Variable mode name fullName : string.
Variable pathLength : jsnum.

Let generous : bool :=
  Js.gt pathLength (Fin (Js.of_nat (String.length fullName) * 2)).

Lemma getLinesAndRatio_short :
  mode = "short"%string ->
  getLinesAndRatio splitInTwo mode name fullName pathLength
  = getShortOneLine name pathLength.
Proof.
  intro H. unfold getLinesAndRatio. apply String.eqb_eq in H. now rewrite H.
Qed.

Lemma getLinesAndRatio_generous :
  mode <> "short"%string -> generous = true ->
  getLinesAndRatio splitInTwo mode name fullName pathLength
  = getFullOneLine fullName pathLength.
Proof.
  intros H G. unfold getLinesAndRatio. apply String.eqb_neq in H.
  rewrite H. fold generous. now rewrite G.
Qed.

Lemma getLinesAndRatio_tight :
  mode <> "short"%string -> generous = false ->
  getLinesAndRatio splitInTwo mode name fullName pathLength
  = getFullTwoLines splitInTwo fullName pathLength.
Proof.
  intros H G. unfold getLinesAndRatio. apply String.eqb_neq in H.
  rewrite H. fold generous. now rewrite G.
Qed.

End FitterFacts.

(** ** The fitter in double precision *)

Section DoubleFitter.

Import Floats.

(** No number is below itself. *)
Lemma ltb_irreflexive (x : float) : PrimFloat.ltb x x = false.
Proof.
  rewrite FloatAxioms.ltb_spec. unfold SFltb.
  destruct (Prim2SF x) as [s|s| |s m e]; simpl; try reflexivity.
  - destruct s; reflexivity.
  - destruct s; rewrite Z.compare_refl;
      replace (PosDef.Pos.compare_cont Eq m m) with Eq;
      try reflexivity; symmetry; apply Pos.compare_cont_refl.
Qed.

(** [Math.round] at halves, below a half and on the values that are no
    finite number; the clamp at and beyond its bounds. *)
Example Math_round_values :
  map Double.Math_round
      [2.5; -2.5; -0.5; 0.25; 122.5; 0x1.e9fffffffffffp+6; infinity]%float
  = [3; -2; -0; 0; 123; 122; infinity]%float /\
  PrimFloat.is_nan (Double.Math_round nan) = true.
Proof. split; vm_compute; reflexivity. Qed.

Example minmax_values :
  map (fun v => Double.minmax v 50 150)
      [49; 50; 122; 150; 151; infinity; neg_infinity]%float
  = [50; 50; 122; 150; 150; 150; 50]%float /\
  PrimFloat.is_nan (Double.minmax nan 50 150) = true.
Proof. split; vm_compute; reflexivity. Qed.

(** C5 (amended).  [getLinesAndRatio] on doubles: in mode ["short"], one
    line, the short name, with ratio
    [clamp (round ((pathLength / len name) * 60), 50, 150)]; in any other
    mode, when [pathLength > len fullName * 2], one line, the full name,
    with ratio [clamp (round ((pathLength / len fullName) * 70), 70, 170)],
    and otherwise the lines of [splitInTwo fullName] with ratio
    [clamp (round ((pathLength / longest) * 60), 70, 150)], [longest]
    being the length of the longer line.  In each ratio the quotient is
    taken first and then scaled, each step rounded to a double.  The test
    is strict: at [pathLength] equal to [len fullName * 2] the two-line
    branch is taken; and when the split yields two lines, the result has
    one line exactly when the test passes. *)
Theorem getLinesAndRatio_policies :
  forall (splitInTwo : string -> list string) (mode name fullName : string)
         (pathLength : float),
  let result :=
    Double.getLinesAndRatio splitInTwo mode name fullName pathLength in
  let len := fun s : string => Double.of_nat (String.length s) in
  let generous :=
    PrimFloat.ltb (PrimFloat.mul (len fullName) 2%float) pathLength in
  let clampRound := fun (c n lo hi : float) =>
    Double.minmax
      (Double.rn (PrimFloat.mul (PrimFloat.div pathLength n) c)) lo hi in
  (mode = "short"%string ->
   result = ([name], clampRound 60%float (len name) 50%float 150%float)) /\
  (mode <> "short"%string -> generous = true ->
   result
   = ([fullName], clampRound 70%float (len fullName) 70%float 170%float)) /\
  (mode <> "short"%string -> generous = false ->
   result
   = (splitInTwo fullName,
      clampRound 60%float
                 (Double.of_nat (longestLine (splitInTwo fullName)))
                 70%float 150%float)) /\
  (pathLength = PrimFloat.mul (len fullName) 2%float -> generous = false) /\
  (forall l1 l2 : string, splitInTwo fullName = [l1; l2] ->
     longestLine (splitInTwo fullName)
       = Nat.max (String.length l1) (String.length l2) /\
     (mode <> "short"%string ->
      (List.length (fst result) = 1%nat <-> generous = true) /\
      (List.length (fst result) = 2%nat <-> generous = false))).
Proof.
  intros splitInTwo mode name fullName pathLength result len generous
         clampRound.
  assert (Hshort : mode = "short"%string ->
                   result = Double.getShortOneLine name pathLength).
  { intro Hm. unfold result, Double.getLinesAndRatio.
    apply String.eqb_eq in Hm. now rewrite Hm. }
  assert (Hone : mode <> "short"%string -> generous = true ->
                 result = Double.getFullOneLine fullName pathLength).
  { intros Hm G. unfold result, Double.getLinesAndRatio.
    apply String.eqb_neq in Hm. rewrite Hm.
    unfold generous, len in G. now rewrite G. }
  assert (Htwo : mode <> "short"%string -> generous = false ->
                 result = Double.getFullTwoLines splitInTwo fullName
                                                 pathLength).
  { intros Hm G. unfold result, Double.getLinesAndRatio.
    apply String.eqb_neq in Hm. rewrite Hm.
    unfold generous, len in G. now rewrite G. }
  split; [|split; [|split; [|split]]].
  - intro Hm. rewrite (Hshort Hm). reflexivity.
  - intros Hm G. rewrite (Hone Hm G). reflexivity.
  - intros Hm G. rewrite (Htwo Hm G). reflexivity.
  - intro E. unfold generous. rewrite E. apply ltb_irreflexive.
  - intros l1 l2 Hs. split; [rewrite Hs; apply longestLine_two|].
    intro Hm. destruct generous eqn:G.
    + rewrite (Hone Hm eq_refl). simpl.
      split; split; intro; try reflexivity; discriminate.
    + rewrite (Htwo Hm eq_refl). unfold Double.getFullTwoLines. simpl.
      rewrite Hs. simpl.
      split; split; intro; try reflexivity; discriminate.
Qed.

(** C5 as worded, with the scale applied before the division, fails: the
    code rounds the quotient to a double before it scales it, and the
    product can fall on the other side of a half.  For the short name
    "Rus" on a path of length 6.125 the ratio is 122, where
    [60 * 6.125 / 3 = 122.5] rounds to 123; the one-line and the two-line
    branch differ from their worded formulas in the same way, at path
    lengths next to 28.9 and to 8.575. *)
Lemma short_ratio_takes_the_quotient_first :
  Double.getLinesAndRatio Demo.splitInTwo "short" "Rus" "Kingdom of Rus"
                          6.125%float
  = (["Rus"%string], 122%float) /\
  Double.scaleFirst 60%float 50%float 150%float 6.125%float
                    (Double.of_nat (String.length "Rus"))
  = 123%float /\
  Double.getLinesAndRatio Demo.splitInTwo "auto" "Rus" "Kingdom of Rus"
                          0x1.ce66666666666p+4%float
  = (["Kingdom of Rus"%string], 144%float) /\
  Double.scaleFirst 70%float 70%float 170%float 0x1.ce66666666666p+4%float
                    (Double.of_nat (String.length "Kingdom of Rus"))
  = 145%float /\
  Double.getLinesAndRatio Demo.splitInTwo "auto" "Rus" "Kingdom of Rus"
                          0x1.1266666666666p+3%float
  = (["Kingdom"; "of Rus"]%string, 73%float) /\
  Double.scaleFirst 60%float 70%float 150%float 0x1.1266666666666p+3%float
                    (Double.of_nat (String.length "Kingdom"))
  = 74%float /\
  ~ Double.RatiosScaleFirst.
Proof.
  repeat (split; [vm_compute; reflexivity|]).
  intro H.
  specialize (H Demo.splitInTwo "short"%string "Rus"%string
                "Kingdom of Rus"%string 6.125%float).
  apply (f_equal (fun r => PrimFloat.eqb r 122%float)) in H.
  vm_compute in H. discriminate H.
Qed.

End DoubleFitter.

(** ** The containment verifier *)

Section VerifierFacts.

Variable findClosestCell : Q -> Q -> nat.
Variable stateIds : list nat.
Variable stateId : nat.

Let count := insideCount findClosestCell stateIds stateId.

Lemma insideCount_le (points : PathPoints) :
  (count points <= List.length points)%nat.
Proof. apply filter_length_le. Qed.

Lemma insideCount_cons (p : Q * Q) (rest : PathPoints) :
  count (p :: rest)
  = ((if stateIs stateIds (findClosestCell (fst p) (snd p)) stateId
      then 1 else 0) + count rest)%nat.
Proof.
  unfold count, insideCount. simpl. unfold pointInside at 1.
  destruct (stateIs stateIds _ stateId); reflexivity.
Qed.

(** The loop answers whether the count passes 4; it is entered with a
    count that does not. *)
Lemma countInside_threshold (points : PathPoints) :
  forall pointsInside : nat,
    (pointsInside <= 4)%nat ->
    countInside findClosestCell stateIds stateId points pointsInside
    = (4 <? pointsInside + count points)%nat.
Proof.
  induction points as [|[x y] rest IH]; intros c Hc.
  - simpl. rewrite Nat.add_0_r. symmetry. apply Nat.ltb_ge. exact Hc.
  - rewrite insideCount_cons. simpl.
    destruct (stateIs stateIds (findClosestCell x y) stateId) eqn:E.
    + destruct (4 <? S c)%nat eqn:L.
      * symmetry. apply Nat.ltb_lt. apply Nat.ltb_lt in L. lia.
      * apply Nat.ltb_ge in L. rewrite IH by lia. f_equal. lia.
    + assert (L : (4 <? c)%nat = false) by (apply Nat.ltb_ge; exact Hc).
      rewrite L. apply IH. exact Hc.
Qed.

End VerifierFacts.

(** C6.  [checkIfLabelFitsState] samples exactly six points: the four
    corners of the box and the middles of its top and bottom sides, turned
    by the angle about the centre of the rendered text; it answers true if
    and only if more than 4 of them resolve to cells of the state: 5 or 6
    inside give true, 4 or fewer give false. *)
Theorem checkIfLabelFitsState_threshold :
  forall (findClosestCell : Q -> Q -> nat) (radians : Type)
         (Math_sin Math_cos : radians -> Q) (bbox : BBox) (angleRad : radians)
         (halfwidth halfheight : Q) (stateIds : list nat) (stateId : nat),
  let cx := bb_x bbox + bb_width bbox / 2 in
  let cy := bb_y bbox + bb_height bbox / 2 in
  let s := Math_sin angleRad in
  let c := Math_cos angleRad in
  let turn := fun p : Q * Q =>
    (cx + fst p * c - snd p * s, cy + fst p * s + snd p * c) in
  let rotated :=
    [turn (- halfwidth, - halfheight); turn (halfwidth, - halfheight);
     turn (halfwidth, halfheight); turn (- halfwidth, halfheight);
     turn (0, halfheight); turn (0, - halfheight)] in
  let inside := insideCount findClosestCell stateIds stateId rotated in
  let fits := checkIfLabelFitsState findClosestCell radians Math_sin Math_cos
                bbox angleRad halfwidth halfheight stateIds stateId in
  List.length rotated = 6%nat /\
  (inside <= 6)%nat /\
  fits = (4 <? inside)%nat /\
  (fits = true <-> (inside = 5 \/ inside = 6)%nat) /\
  (fits = false <-> (inside <= 4)%nat).
Proof.
  intros.
  assert (Hfits : fits = (4 <? inside)%nat).
  { unfold fits, checkIfLabelFitsState. cbv zeta.
    fold cx cy s c.
    change (rotatePoints cx cy s c (samplePoints halfwidth halfheight))
      with rotated.
    rewrite countInside_threshold by lia. reflexivity. }
  assert (Hle : (inside <= 6)%nat)
    by (unfold inside; apply (insideCount_le _ _ _ rotated)).
  split; [reflexivity|]. split; [exact Hle|]. split; [exact Hfits|].
  rewrite Hfits. split.
  - rewrite Nat.ltb_lt. lia.
  - rewrite Nat.ltb_ge. lia.
Qed.

(** ** The fallback layout *)

Section DoubleFallback.

Import Floats.

(** C7 (amended).  When the verifier rejects a layout of several lines, in
    a mode other than ["full"], the label falls back to one line: the full
    name if [pathLength > len fullName * 1.8] and the short name otherwise,
    with the ratio [clamp (round ((pathLength / len text) * 50), 50, 130)],
    the quotient taken first and each step rounded to a double; the
    fallback throws nothing.  (The scale 50 and the range 50..130 are
    those of the fallback itself, not the 60 and 50..150 of the one-line
    branch of the fitter.) *)
Theorem fallback_layout_rule : forall (state : State) (pathLength : float),
  Double.FallsBackWith (Double.quotientFirst 50%float 50%float 130%float)
                       state pathLength.
Proof.
  intros state pathLength mode lines ratio Hmode Hlines.
  unfold Double.finalLayout. apply String.eqb_neq in Hmode. rewrite Hmode.
  apply Nat.ltb_lt in Hlines. rewrite Hlines. simpl.
  eexists. eexists. split; [reflexivity|].
  split; reflexivity.
Qed.

(** The fallback of a rejected two-line layout of "Kingdom of Rus" on a
    path of length 6: the short name at ratio 100. *)
Lemma fallback_layout_rule_witness :
  exists (text : string) (r : float),
    Double.finalLayout "auto"%string Rus.state 6%float
                       ["Kingdom"; "of Rus"]%string 70%float (Some false)
    = Some (text, r) /\
    text = "Rus"%string /\
    r = 100%float.
Proof.
  destruct (fallback_layout_rule Rus.state 6%float "auto"%string
              ["Kingdom"; "of Rus"]%string 70%float)
    as (text & r & H1 & H2 & H3).
  - discriminate.
  - simpl. lia.
  - exists text, r. split; [exact H1|]. split; [exact H2|].
    rewrite H3, H2. vm_compute. reflexivity.
Defined.

(** The fallback at a concrete state and path length, run against a
    formula that gives another ratio. *)
Ltac refute_fallback lines :=
  let H := fresh "H" in
  let text := fresh "text" in
  let r := fresh "r" in
  let H1 := fresh "H1" in
  let H3 := fresh "H3" in
  intro H;
  destruct (H "auto"%string lines 70%float) as (text & r & H1 & _ & H3);
  [discriminate | simpl; lia |];
  vm_compute in H1; injection H1 as <- <-;
  match type of H3 with
  | ?a = _ => apply (f_equal (fun x => PrimFloat.eqb x a)) in H3
  end;
  vm_compute in H3; discriminate H3.

(** C7 as worded, with the one-line formula of the fitter (scale 60,
    range 50..150), fails whichever way the formula is read: for the short
    name "Rus" on a path of length 6 the fallback ratio is 100, not 120.
    And with the constants of the fallback the order of the operations
    still counts: for "Padua" on a path of length 5.75 the ratio is 57,
    where [50 * 5.75 / 5 = 57.5] rounds to 58. *)
Lemma fallback_ratio_is_not_fitter_ratio :
  Double.finalLayout "auto"%string Rus.state 6%float
                     ["Kingdom"; "of Rus"]%string 70%float (Some false)
  = Some ("Rus"%string, 100%float) /\
  ~ Double.FallsBackWith (Double.scaleFirst 60%float 50%float 150%float)
                         Rus.state 6%float /\
  ~ Double.FallsBackWith (Double.quotientFirst 60%float 50%float 150%float)
                         Rus.state 6%float /\
  Double.finalLayout "auto"%string Padua.state 5.75%float
                     ["Republic"; "of Padua"]%string 70%float (Some false)
  = Some ("Padua"%string, 57%float) /\
  ~ Double.FallsBackWith (Double.scaleFirst 50%float 50%float 130%float)
                         Padua.state 5.75%float.
Proof.
  split; [vm_compute; reflexivity|].
  split; [refute_fallback ["Kingdom"; "of Rus"]%string|].
  split; [refute_fallback ["Kingdom"; "of Rus"]%string|].
  split; [vm_compute; reflexivity|].
  refute_fallback ["Republic"; "of Padua"]%string.
Qed.

End DoubleFallback.

(** ** The label path *)

Section PathFacts.

Lemma assignAt_length {A : Type} (i : nat) (v : A) (xs : list A) :
  List.length (assignAt i v xs) = List.length xs.
Proof.
  revert i. induction xs as [|a xs IH]; intros [|i]; simpl; auto.
Qed.

Lemma assignAt_same {A : Type} (i : nat) (v : A) (xs : list A) :
  (i < List.length xs)%nat -> nth_error (assignAt i v xs) i = Some v.
Proof.
  revert i. induction xs as [|a xs IH]; intros [|i] H; simpl in *;
    try lia; auto. apply IH. lia.
Qed.

Lemma assignAt_other {A : Type} (i j : nat) (v : A) (xs : list A) :
  i <> j -> nth_error (assignAt i v xs) j = nth_error xs j.
Proof.
  revert i j. induction xs as [|a xs IH]; intros [|i] [|j] H; simpl;
    try reflexivity; try congruence. apply IH. congruence.
Qed.

Lemma labelPath_length (ray1 ray2 : Ray) (pole : Q * Q) :
  List.length (labelPath ray1 ray2 pole) = 3%nat.
Proof. unfold labelPath. cbv zeta. destruct (Qlt_bool _ _); reflexivity. Qed.

Lemma labelPath_canonical (ray1 ray2 : Ray) (pole : Q * Q) :
  CanonicalPath (labelPath ray1 ray2 pole).
Proof.
  split; [rewrite labelPath_length; lia|].
  unfold labelPath. cbv zeta.
  destruct (Qlt_bool (ray_x ray2) (ray_x ray1)) eqn:E.
  - apply Qlt_bool_iff in E.
    exists (ray_x ray2, ray_y ray2), (ray_x ray1, ray_y ray1).
    repeat split. simpl. lra.
  - apply Qlt_bool_false_iff in E.
    exists (ray_x ray1, ray_y ray1), (ray_x ray2, ray_y ray2).
    repeat split. simpl. exact E.
Qed.

(** The stretch by a factor that is not negative keeps a path canonical. *)
Lemma prolongate_canonical (pathPoints : PathPoints) (factor : Q) :
  CanonicalPath pathPoints -> 0 <= factor ->
  exists stretched : PathPoints,
    prolongate pathPoints factor = Some stretched /\
    List.length stretched = List.length pathPoints /\
    CanonicalPath stretched.
Proof.
  intros (Hlen & [x1 y1] & [x2 y2] & H1 & H2 & Hx) Hf.
  simpl in Hx. unfold prolongate. rewrite H1, H2. unfold bind.
  cbv beta iota zeta.
  eexists. split; [reflexivity|].
  rewrite !assignAt_length. split; [reflexivity|].
  split; [rewrite !assignAt_length; exact Hlen|].
  eexists. eexists. split; [|split].
  - rewrite assignAt_other by lia. apply assignAt_same. lia.
  - unfold atLast. rewrite !assignAt_length. apply assignAt_same.
    rewrite assignAt_length. lia.
  - cbn [fst].
    assert (E : x2 - (x2 - x1) / 2 + (x2 - x1) / 2 * factor
                - (x1 + (x2 - x1) / 2 - (x2 - x1) / 2 * factor)
                == (x2 - x1) * factor) by field.
    assert (0 <= (x2 - x1) * factor) by (apply Qmult_le_0_compat; lra).
    lra.
Qed.

(** A quotient of two lengths is not negative. *)
Lemma pathLength_not_negative (total letter : Q) :
  0 <= total -> 0 <= letter ->
  Js.lt (Js.div (Fin total) (Fin letter)) (Fin 0) = false.
Proof.
  intros Ht Hl. unfold Js.div.
  destruct (Qeq_bool letter 0) eqn:E.
  - destruct (Qlt_bool 0 total); [reflexivity|].
    destruct (Qlt_bool total 0) eqn:E2; [|reflexivity].
    apply Qlt_bool_iff in E2. lra.
  - apply Qeq_bool_false_iff in E. simpl. apply Qlt_bool_false_iff.
    apply Qle_shift_div_l; lra.
Qed.

(** In the branch that stretches, the factor [mod] is finite: the
    stretch throws only where [prolongate] does. *)
Lemma stretch_factor_finite (pathLength : jsnum) (longestLineLength : nat) :
  Js.truthy pathLength
  && Js.lt pathLength (Fin (Js.of_nat longestLineLength)) = true ->
  exists factor : Q,
    Js.div (Fin (Js.of_nat longestLineLength)) pathLength = Fin factor.
Proof.
  intro H. apply andb_true_iff in H. destruct H as [Ht Hlt].
  destruct pathLength as [p| | |]; simpl in *; try discriminate.
  - apply negb_true_iff in Ht. rewrite Ht. eexists. reflexivity.
  - eexists. reflexivity.
Qed.

Lemma stretchedPath_canonical (pathPoints : PathPoints) (pathLength : jsnum)
    (longestLineLength : nat) :
  CanonicalPath pathPoints ->
  Js.lt pathLength (Fin 0) = false ->
  exists stretched : PathPoints,
    stretchedPath pathPoints pathLength longestLineLength = Some stretched /\
    List.length stretched = List.length pathPoints /\
    CanonicalPath stretched.
Proof.
  intros Hc Hneg. unfold stretchedPath.
  destruct (Js.truthy pathLength
            && Js.lt pathLength (Fin (Js.of_nat longestLineLength))) eqn:E.
  - apply andb_true_iff in E. destruct E as [Ht Hlt].
    destruct pathLength as [p| | |]; simpl in *; try discriminate.
    apply Qlt_bool_false_iff in Hneg.
    apply negb_true_iff in Ht. rewrite Ht.
    apply Qeq_bool_false_iff in Ht.
    apply prolongate_canonical; [exact Hc|].
    pose proof (of_nat_nonneg longestLineLength).
    apply Qle_shift_div_l; lra.
  - exists pathPoints. auto.
Qed.

End PathFacts.

(** ** Generation and refinement of the labels *)

Section EngineFacts.

Variable graphWidth graphHeight : Q.
Variable findClosestCell : Q -> Q -> nat.
Variable cellStateIds : list nat.
Variable cells_f : list nat.
Variable features : list Feature.
Variable states : list State.
Variable radians : Type.
Variable toRadians : Q -> radians.
Variable Math_sin Math_cos : radians -> Q.
Variable Math_atan2 : Q -> Q -> radians.
Variable stateLabelsMode : string.
Variable letterLength : Q.
Variable getTotalLength : PathPoints -> Q.
Variable textBBox : list string -> jsnum -> BBox.
Variable placedBBox : PathPoints -> list string -> jsnum -> BBox.
Variable splitInTwo : string -> list string.

Let refine := refineLabel findClosestCell cellStateIds states radians
                Math_sin Math_cos Math_atan2 stateLabelsMode letterLength
                getTotalLength textBBox placedBBox splitInTwo.
Let refineAll := renderAndRefineLabels findClosestCell cellStateIds states
                   radians Math_sin Math_cos Math_atan2 stateLabelsMode
                   letterLength getTotalLength textBBox placedBBox splitInTwo.
Let generateOne := generateStateLabel graphWidth graphHeight findClosestCell
                     cellStateIds cells_f features.
Let generateFrom := generateLoop graphWidth graphHeight findClosestCell
                      cellStateIds cells_f features.

(** What a refined label keeps of the generated one, and where its path
    comes from. *)
Lemma refineLabel_shape (label refined : StateLabel) :
  refine label = Some (Some refined) ->
  sl_i refined = sl_i label /\
  sl_stateId refined = sl_stateId label /\
  exists (pathLength : jsnum) (longest : nat),
    pathLength = Js.div (Fin (getTotalLength (sl_points label)))
                        (Fin letterLength) /\
    stretchedPath (sl_points label) pathLength longest
      = Some (sl_points refined).
Proof.
  unfold refine, refineLabel. unfold bind.
  destruct (nth_error states (sl_stateId label)) as [state|]; [|discriminate].
  destruct (Nat.eqb (st_i state) 0 || st_removed state); [discriminate|].
  destruct (List.length (sl_points label) <? 2)%nat; [discriminate|].
  destruct (getLinesAndRatio _ _ _ _ _) as [lines ratio].
  destruct (stretchedPath _ _ _) as [pathPoints|] eqn:Hs; [|discriminate].
  destruct (finalLayout _ _ _ _ _ _) as [[finalName finalRatio]|];
    [|discriminate].
  intro H. injection H as <-. simpl.
  repeat split. eexists. eexists. split; [reflexivity|]. exact Hs.
Qed.

Lemma refineLabel_canonical (label refined : StateLabel) :
  0 <= letterLength ->
  0 <= getTotalLength (sl_points label) ->
  CanonicalPath (sl_points label) ->
  refine label = Some (Some refined) ->
  CanonicalPath (sl_points refined).
Proof.
  intros Hl Ht Hc H.
  destruct (refineLabel_shape _ _ H) as (_ & _ & p & n & -> & Hs).
  destruct (stretchedPath_canonical (sl_points label) _ n Hc
              (pathLength_not_negative _ _ Ht Hl)) as (q & Hq & _ & Hcq).
  rewrite Hq in Hs. injection Hs as <-. exact Hcq.
Qed.

Lemma generateStateLabel_shape (angles : list AngleData) (state : State)
    (label : StateLabel) :
  generateOne angles state = Some label ->
  sl_i label = stateLabelId (st_i state) /\
  sl_stateId label = st_i state /\
  List.length (sl_points label) = 3%nat /\
  CanonicalPath (sl_points label).
Proof.
  unfold generateOne, generateStateLabel, bind.
  destruct (castRays _ _ _ _ _ _ _ _) as [rays|]; [|discriminate].
  destruct (findBestRayPair rays) as [[ray1 ray2]|]; [|discriminate].
  intro H. injection H as <-. simpl.
  repeat split; try apply labelPath_length; apply labelPath_canonical.
Qed.

(** Every label that the loop of [generateStateLabelsData] adds is the
    label of a state that passed its filters. *)
Lemma generateLoop_forall (P : StateLabel -> Prop) (angles : list AngleData)
    (stateIds : option (list nat)) (todo : list State) :
  (forall state label,
      In state todo ->
      match stateIds with
      | Some ids => includesNat ids (st_i state) = true
      | None => True
      end ->
      generateOne angles state = Some label -> P label) ->
  forall labels out : list StateLabel,
    Forall P labels ->
    generateFrom angles stateIds todo labels = Some out ->
    Forall P out.
Proof.
  unfold generateFrom.
  induction todo as [|state rest IH]; intros Hgen labels out Hacc Hout.
  - simpl in Hout. injection Hout as <-. exact Hacc.
  - simpl in Hout.
    assert (Hrest : forall st label,
               In st rest ->
               match stateIds with
               | Some ids => includesNat ids (st_i st) = true
               | None => True
               end ->
               generateOne angles st = Some label -> P label)
      by (intros st label Hin; apply Hgen; now right).
    destruct (Nat.eqb (st_i state) 0 || st_removed state || st_lock state).
    { exact (IH Hrest labels out Hacc Hout). }
    destruct (match stateIds with
              | Some ids => negb (includesNat ids (st_i state))
              | None => false
              end) eqn:Hf.
    { exact (IH Hrest labels out Hacc Hout). }
    unfold bind in Hout.
    destruct (generateStateLabel _ _ _ _ _ _ angles state) as [label|] eqn:Hg;
      [|discriminate].
    apply (IH Hrest (labels ++ [label]) out); [|exact Hout].
    apply Forall_app. split; [exact Hacc|].
    constructor; [|constructor].
    apply (Hgen state label); [now left | | exact Hg].
    destruct stateIds as [ids|]; [|exact I].
    now apply negb_false_iff in Hf.
Qed.

(** Every label that [renderAndRefineLabels] pushes is the refinement of
    one of the labels it was given. *)
Lemma renderAndRefineLabels_forall (P : StateLabel -> Prop) (labels : list StateLabel) :
  (forall label refined,
      In label labels -> refine label = Some (Some refined) -> P refined) ->
  forall refinedLabels out : list StateLabel,
    Forall P refinedLabels ->
    refineAll labels refinedLabels = Some out ->
    Forall P out.
Proof.
  unfold refineAll.
  induction labels as [|label rest IH]; intros Href acc out Hacc Hout.
  - simpl in Hout. injection Hout as <-. exact Hacc.
  - simpl in Hout. unfold bind in Hout. fold refine in Hout.
    assert (Hrest : forall l refined,
               In l rest -> refine l = Some (Some refined) -> P refined)
      by (intros l refined Hin; apply Href; now right).
    destruct (refine label) as [[refined|]|] eqn:Hr; [| |discriminate].
    + apply (IH Hrest (acc ++ [refined]) out); [|exact Hout].
      apply Forall_app. split; [exact Hacc|].
      constructor; [|constructor].
      apply (Href label refined); [now left | exact Hr].
    + exact (IH Hrest acc out Hacc Hout).
Qed.

Lemma includesNat_In (xs : list nat) (v : nat) :
  includesNat xs v = true <-> In v xs.
Proof.
  unfold includesNat. rewrite existsb_exists. split.
  - intros (x & Hx & E). apply Nat.eqb_eq in E. now subst.
  - intro H. exists v. split; [exact H | apply Nat.eqb_refl].
Qed.

Lemma includesString_In (xs : list string) (v : string) :
  includesString xs v = true <-> In v xs.
Proof.
  unfold includesString. rewrite existsb_exists. split.
  - intros (x & Hx & E). apply String.eqb_eq in E. now subst.
  - intro H. exists v. split; [exact H | apply String.eqb_refl].
Qed.

Lemma generateStateLabelsData_shape (stateIds : option (list nat))
    (generated : list StateLabel) :
  generateStateLabelsData graphWidth graphHeight findClosestCell cellStateIds
    cells_f features states radians toRadians Math_sin Math_cos stateIds
    = Some generated ->
  Forall (fun label => Generated stateIds label /\
                       List.length (sl_points label) = 3%nat /\
                       CanonicalPath (sl_points label)) generated.
Proof.
  unfold generateStateLabelsData. intro H.
  refine (generateLoop_forall _ _ stateIds states _ [] generated
            (Forall_nil _) H).
  intros state label _ Hin Hg.
  destruct (generateStateLabel_shape _ _ _ Hg) as (Hi & Hs & Hl & Hc).
  unfold Generated. rewrite Hi, Hs.
  split; [split; [reflexivity|] | split; assumption].
  destruct stateIds as [ids|]; [|exact I]. now apply includesNat_In.
Qed.

Lemma renderAndRefineLabels_shape (stateIds : option (list nat))
    (generated refined : list StateLabel) :
  Forall (Generated stateIds) generated ->
  refineAll generated [] = Some refined ->
  Forall (Generated stateIds) refined.
Proof.
  intros Hg H.
  refine (renderAndRefineLabels_forall _ generated _ [] refined
            (Forall_nil _) H).
  intros label r Hin Hr.
  destruct (refineLabel_shape _ _ Hr) as (Hi & Hs & _).
  rewrite Forall_forall in Hg. destruct (Hg _ Hin) as [Gi Gs].
  unfold Generated. rewrite Hi, Hs. split; assumption.
Qed.

Lemma renderAndRefineLabels_canonical (generated refined : list StateLabel) :
  0 <= letterLength ->
  (forall pathPoints, 0 <= getTotalLength pathPoints) ->
  Forall (fun label => CanonicalPath (sl_points label)) generated ->
  refineAll generated [] = Some refined ->
  Forall (fun label => CanonicalPath (sl_points label)) refined.
Proof.
  intros Hl Ht Hg H.
  refine (renderAndRefineLabels_forall _ generated _ [] refined
            (Forall_nil _) H).
  intros label r Hin Hr.
  rewrite Forall_forall in Hg.
  exact (refineLabel_canonical label r Hl (Ht _) (Hg _ Hin) Hr).
Qed.

End EngineFacts.

(** C8.  The path of a label has at least two points (three: the end
    points of the two rays with the pole between them) and its first point
    is not to the right of its last point.  [generateStateLabelsData]
    builds it so, and the corrective stretch of [renderAndRefineLabels]
    keeps the number of points and the order, for every path length that
    is not negative, a measured length divided by the length of a letter
    being such.  Hence every label generated, and every label refined
    from the generated ones, has such a path. *)
Theorem label_path_canonical :
  forall (graphWidth graphHeight : Q) (findClosestCell : Q -> Q -> nat)
         (cellStateIds cells_f : list nat) (features : list Feature)
         (states : list State) (radians : Type) (toRadians : Q -> radians)
         (Math_sin Math_cos : radians -> Q) (Math_atan2 : Q -> Q -> radians)
         (stateLabelsMode : string) (letterLength : Q)
         (getTotalLength : PathPoints -> Q)
         (textBBox : list string -> jsnum -> BBox)
         (placedBBox : PathPoints -> list string -> jsnum -> BBox)
         (splitInTwo : string -> list string),
  (forall (ray1 ray2 : Ray) (pole : Q * Q),
      List.length (labelPath ray1 ray2 pole) = 3%nat /\
      CanonicalPath (labelPath ray1 ray2 pole)) /\
  (forall (pathPoints : PathPoints) (pathLength : jsnum) (longest : nat),
      CanonicalPath pathPoints ->
      Js.lt pathLength (Fin 0) = false ->
      exists stretched : PathPoints,
        stretchedPath pathPoints pathLength longest = Some stretched /\
        List.length stretched = List.length pathPoints /\
        CanonicalPath stretched) /\
  (forall (stateIds : option (list nat)) (generated refined : list StateLabel),
      generateStateLabelsData graphWidth graphHeight findClosestCell
        cellStateIds cells_f features states radians toRadians Math_sin
        Math_cos stateIds = Some generated ->
      Forall (fun label => List.length (sl_points label) = 3%nat /\
                           CanonicalPath (sl_points label)) generated /\
      (0 <= letterLength ->
       (forall pathPoints, 0 <= getTotalLength pathPoints) ->
       renderAndRefineLabels findClosestCell cellStateIds states radians
         Math_sin Math_cos Math_atan2 stateLabelsMode letterLength
         getTotalLength textBBox placedBBox splitInTwo generated []
         = Some refined ->
       Forall (fun label => CanonicalPath (sl_points label)) refined)).
Proof.
  intros.
  split; [|split].
  - intros ray1 ray2 pole.
    split; [apply labelPath_length | apply labelPath_canonical].
  - intros. now apply stretchedPath_canonical.
  - intros stateIds generated refined Hg.
    apply generateStateLabelsData_shape in Hg.
    split.
    + eapply Forall_impl; [|exact Hg]. intros a Ha. apply Ha.
    + intros Hl Ht Hr.
      eapply renderAndRefineLabels_canonical; [exact Hl | exact Ht | | exact Hr].
      eapply Forall_impl; [|exact Hg]. intros a Ha. apply Ha.
Qed.

(** ** Regeneration of the labels of some states *)

Lemma filter_idempotent {A : Type} (f : A -> bool) (xs : list A) :
  filter f (filter f xs) = filter f xs.
Proof.
  induction xs as [|a xs IH]; simpl; [reflexivity|].
  destruct (f a) eqn:E; simpl; [rewrite E; f_equal|]; exact IH.
Qed.

Lemma filter_none {A : Type} (f : A -> bool) (xs : list A) :
  Forall (fun a => f a = false) xs -> filter f xs = [].
Proof.
  induction 1 as [|a xs Ha _ IH]; simpl; [reflexivity|]. now rewrite Ha.
Qed.

(** The id of a state label is never the id of a generated burg label. *)
Lemma stateLabelId_not_burg (stateId : nat) (suffix : string) :
  stateLabelId stateId <> ("burgLabel" ++ suffix)%string.
Proof. unfold stateLabelId. simpl. discriminate. Qed.

Lemma append_cancel_l (p s t : string) : (p ++ s = p ++ t)%string -> s = t.
Proof.
  induction p as [|c p IH]; simpl; intro H; [exact H|].
  injection H as H. auto.
Qed.

(** Distinct states have distinct label ids. *)
Lemma stateLabelId_injective (a b : nat) :
  stateLabelId a = stateLabelId b -> a = b.
Proof.
  unfold stateLabelId. intro H. apply append_cancel_l in H.
  assert (E : Nat.to_uint a = Nat.to_uint b).
  { pose proof (NilEmpty.usu (Nat.to_uint a)) as Ha.
    pose proof (NilEmpty.usu (Nat.to_uint b)) as Hb.
    rewrite H in Ha. congruence. }
  apply (f_equal Nat.of_uint) in E.
  now rewrite !Unsigned.of_to in E.
Qed.

(** C9 (amended).  Regenerating the labels of a list of states leaves in
    place and unchanged every label whose id is not the id
    [stateLabel<id>] of a listed state.  With [listed] the labels that
    carry such an id: the unlisted labels of the store after the call are
    those before it, equal and in the same order; so every unlisted label
    stays, among them every state label that carries the id of its own,
    unlisted, state (the ids of distinct states differ) and every
    generated burg label (id [burgLabel...]).  The test is on the id alone:
    a label of another type that carries a listed id leaves the store, and
    whatever listed label the store holds afterwards is a state label of a
    listed state, inserted by the call.  This holds whether the call ends
    normally or by an exception. *)
Theorem regeneration_frame :
  forall (graphWidth graphHeight : Q) (findClosestCell : Q -> Q -> nat)
         (cellStateIds cells_f : list nat) (features : list Feature)
         (states : list State) (radians : Type) (toRadians : Q -> radians)
         (Math_sin Math_cos : radians -> Q) (Math_atan2 : Q -> Q -> radians)
         (stateLabelsMode : string) (letterLength : Q)
         (getTotalLength : PathPoints -> Q)
         (textBBox : list string -> jsnum -> BBox)
         (placedBBox : PathPoints -> list string -> jsnum -> BBox)
         (splitInTwo : string -> list string)
         (ids : list nat) (packLabels : option (list Label)),
  let before := match packLabels with Some ls => ls | None => [] end in
  let after :=
    fst (stateLabelsRenderer graphWidth graphHeight findClosestCell
           cellStateIds cells_f features states radians toRadians Math_sin
           Math_cos Math_atan2 stateLabelsMode letterLength getTotalLength
           textBBox placedBBox splitInTwo (Some ids) packLabels) in
  let listed := fun l : Label =>
    includesString (map stateLabelId ids) (label_i l) in
  let unlisted := fun l : Label => negb (listed l) in
  filter unlisted after = filter unlisted before /\
  (forall l, listed l = true <->
             exists id, In id ids /\ label_i l = stateLabelId id) /\
  (forall l, In l before -> listed l = false -> In l after) /\
  (forall l, In l after -> listed l = true ->
             exists s, l = StateL s /\ In (sl_stateId s) ids /\
                       sl_i s = stateLabelId (sl_stateId s)) /\
  (forall (b : BurgLabel) (suffix : string),
      bl_i b = ("burgLabel" ++ suffix)%string -> listed (BurgL b) = false) /\
  (forall s : StateLabel,
      In (StateL s) before ->
      sl_i s = stateLabelId (sl_stateId s) ->
      ~ In (sl_stateId s) ids ->
      In (StateL s) after) /\
  (forall l : Label,
      In l before -> listed l = true -> label_type l <> "state"%string ->
      ~ In l after).
Proof.
  intros.
  assert (Hlisted : forall l, listed l = true <->
                      exists id, In id ids /\ label_i l = stateLabelId id).
  { intro l. unfold listed. rewrite includesString_In, in_map_iff.
    split; intros (id & H1 & H2); exists id; auto. }
  assert (Hafter : exists inserted : list StateLabel,
             after = filter unlisted before ++ map StateL inserted /\
             Forall (Generated (Some ids)) inserted).
  { unfold after, stateLabelsRenderer. cbv zeta. fold before.
    change (clearStateLabels (Some ids) before) with (filter unlisted before).
    destruct (generateStateLabelsData _ _ _ _ _ _ _ _ _ _ _ (Some ids))
      as [generated|] eqn:Hg.
    - destruct (renderAndRefineLabels _ _ _ _ _ _ _ _ _ _ _ _ _ generated [])
        as [refined|] eqn:Hr.
      + exists refined. split; [reflexivity|].
        eapply renderAndRefineLabels_shape; [|exact Hr].
        apply generateStateLabelsData_shape in Hg.
        eapply Forall_impl; [|exact Hg]. intros a Ha. apply Ha.
      + exists []. simpl. rewrite app_nil_r. split; [reflexivity|constructor].
    - exists []. simpl. rewrite app_nil_r. split; [reflexivity|constructor]. }
  destruct Hafter as (inserted & Hafter & Hins).
  assert (Hnew : Forall (fun l => listed l = true) (map StateL inserted)).
  { apply Forall_map. eapply Forall_impl; [|exact Hins].
    intros s [Hi Hs]. apply Hlisted. exists (sl_stateId s). now split. }
  assert (Hstay : forall l, In l before -> listed l = false -> In l after).
  { intros l Hin Hl. rewrite Hafter. apply in_or_app. left.
    apply filter_In. split; [exact Hin|]. unfold unlisted. now rewrite Hl. }
  assert (Hinserted : forall l, In l after -> listed l = true ->
                        exists s, l = StateL s /\ In (sl_stateId s) ids /\
                                  sl_i s = stateLabelId (sl_stateId s)).
  { intros l Hin Hl. rewrite Hafter in Hin. apply in_app_or in Hin.
    destruct Hin as [Hin|Hin].
    - apply filter_In in Hin. destruct Hin as [_ Hu]. unfold unlisted in Hu.
      rewrite Hl in Hu. discriminate.
    - apply in_map_iff in Hin. destruct Hin as (s & <- & Hs).
      rewrite Forall_forall in Hins. destruct (Hins s Hs) as [Hi Hids].
      exists s. auto. }
  split; [|split; [exact Hlisted|split; [exact Hstay|split;
    [exact Hinserted|split; [|split]]]]].
  - rewrite Hafter, filter_app, filter_idempotent.
    rewrite (filter_none unlisted (map StateL inserted)).
    + apply app_nil_r.
    + eapply Forall_impl; [|exact Hnew]. intros l Hl. unfold unlisted.
      now rewrite Hl.
  - intros b suffix Hb. destruct (listed (BurgL b)) eqn:E; [|reflexivity].
    apply Hlisted in E. destruct E as (id & _ & E). simpl in E.
    rewrite Hb in E. symmetry in E. exfalso.
    exact (stateLabelId_not_burg _ _ E).
  - intros s Hin Hi Hnot. apply Hstay; [exact Hin|].
    destruct (listed (StateL s)) eqn:E; [|reflexivity].
    apply Hlisted in E. destruct E as (id & Hid & E). simpl in E.
    rewrite Hi in E. apply stateLabelId_injective in E.
    exfalso. apply Hnot. now rewrite E.
  - intros l Hin Hl Htype Hafter'.
    destruct (Hinserted l Hafter' Hl) as (s & -> & _).
    now apply Htype.
Qed.

(** C9 as worded fails: a custom label stays only if its id is none of
    the ids [stateLabel<id>] of the listed states.  The custom label
    [Demo.marker], whose id is [stateLabel1], leaves the store when state
    1 is regenerated. *)
Lemma custom_label_with_state_id_is_removed :
  label_type Demo.marker = "custom"%string /\
  Demo.run (Some [1%nat]) (Some [Demo.marker; Demo.kiev])
  = ([Demo.kiev; Demo.newRus], true) /\
  ~ KeepsOtherLabels
      (fun ids before => fst (Demo.run (Some ids) (Some before))).
Proof.
  split; [reflexivity|]. split; [vm_compute; reflexivity|].
  intro H.
  specialize (H [1%nat] [Demo.marker; Demo.kiev] Demo.marker
                (or_introl eq_refl)).
  assert (Hin : In Demo.marker
                   (fst (Demo.run (Some [1%nat])
                                  (Some [Demo.marker; Demo.kiev])))).
  { apply H. intros s Hs. discriminate Hs. }
  vm_compute in Hin. destruct Hin as [Hin|[Hin|[]]]; discriminate Hin.
Qed.


(** ** A worked example *)

Example Demo_regenerates :
  Demo.run (Some [1%nat]) (Some [Demo.kiev; Demo.oldRus])
  = ([Demo.kiev; Demo.newRus], true).
Proof. vm_compute. reflexivity. Qed.

(** A path of length 5 under a line of 10 letters: both ends move out by
    half the distance between them. *)
Example stretch_doubles :
  option_map (map (fun p : Q * Q => (Qred (fst p), Qred (snd p))))
             (stretchedPath [(0, 0); (5, 1); (10, 0)] (Fin 5) 10)
  = Some [(-5, 0); (5, 1); (15, 0)].
Proof. vm_compute. reflexivity. Qed.

Example Demo_generates_first_time :
  Demo.run None None = ([Demo.newRus], true).
Proof. vm_compute. reflexivity. Qed.

(** ** The theorems at work on concrete inputs *)

(** The bands at a straight pair, an acute pair and a pair 99 degrees
    apart. *)
Lemma scoreCurvature_bands_witness :
  scoreCurvature 0 180 == 1 /\
  scoreCurvature 9 90 == 0 /\
  scoreCurvature 351 90 == 0.6 * similarity 351 90.
Proof.
  split; [|split].
  - destruct (scoreCurvature_bands 0 180) as (_ & H & _).
    apply H. reflexivity.
  - destruct (scoreCurvature_bands 9 90) as (_ & _ & H & _).
    apply H. apply Qlt_bool_iff. reflexivity.
  - destruct (scoreCurvature_bands 351 90) as (_ & _ & _ & H & _).
    apply H. split; [apply Qle_bool_iff | apply Qlt_bool_iff]; reflexivity.
Defined.


(** On the map that is one state all over, all 59 candidates are accepted
    and the ray is the one after the last of them. *)
Lemma raycast_last_accepted_witness :
  OneState.cast = Some (rayAfter 500 500 1 0 59).
Proof.
  destruct (raycast_last_accepted OneState.graphWidth OneState.graphHeight
              OneState.findClosestCell OneState.cellStateIds OneState.cells_f
              OneState.features 1 500 500 1 0 0 0)
    as (_ & _ & _ & H & _).
  apply (H 59%nat).
  - lia.
  - intros k Hk. apply OneState_accepts. lia.
  - lia.
Defined.

(** A point on an enclosed lake is inside; a point off the canvas is
    not. *)
Lemma isInsideState_classification_witness :
  isInsideState 10 10 OneState.findClosestCell OneState.cellStateIds
                OneState.cells_f Demo.lakeFeatures 1 0 5 5 = Some true /\
  isInsideState 10 10 OneState.findClosestCell OneState.cellStateIds
                OneState.cells_f Demo.lakeFeatures 1 0 11 5 = Some false.
Proof.
  split.
  - destruct (isInsideState_classification 10 10 OneState.findClosestCell
                OneState.cellStateIds OneState.cells_f Demo.lakeFeatures
                1 0 5 5) as [_ H].
    assert (Hx : 0 <= 5 <= 10)
      by (split; apply Qle_bool_iff; reflexivity).
    destruct (H Hx Hx (mkFeature "lake" [0%nat] 3) eq_refl) as [Hlake _].
    destruct (Hlake eq_refl) as (b & Hb & Hiff).
    rewrite Hb. f_equal. apply Hiff. left.
    intros c [<-|[]]. reflexivity.
  - destruct (isInsideState_classification 10 10 OneState.findClosestCell
                OneState.cellStateIds OneState.cells_f Demo.lakeFeatures
                1 0 11 5) as [H _].
    apply H. right. left. apply Qlt_bool_iff. reflexivity.
Defined.

Section DoubleWitness.

Import Floats.

(** The three policies on "Rus" and "Kingdom of Rus" (14 letters): short
    mode, a path of length 28 (two lines) and one of length 29 (one
    line). *)
Lemma getLinesAndRatio_policies_witness :
  Double.getLinesAndRatio Demo.splitInTwo "short" "Rus" "Kingdom of Rus"
                          30%float
  = (["Rus"%string], 150%float) /\
  Double.getLinesAndRatio Demo.splitInTwo "auto" "Rus" "Kingdom of Rus"
                          28%float
  = (["Kingdom"; "of Rus"]%string, 150%float) /\
  Double.getLinesAndRatio Demo.splitInTwo "auto" "Rus" "Kingdom of Rus"
                          29%float
  = (["Kingdom of Rus"%string], 145%float).
Proof.
  split; [|split].
  - destruct (getLinesAndRatio_policies Demo.splitInTwo "short" "Rus"
                "Kingdom of Rus" 30%float) as (H & _).
    rewrite (H eq_refl). vm_compute. reflexivity.
  - destruct (getLinesAndRatio_policies Demo.splitInTwo "auto" "Rus"
                "Kingdom of Rus" 28%float) as (_ & _ & H & _).
    rewrite H; [vm_compute; reflexivity | discriminate | reflexivity].
  - destruct (getLinesAndRatio_policies Demo.splitInTwo "auto" "Rus"
                "Kingdom of Rus" 29%float) as (_ & H & _).
    rewrite H; [vm_compute; reflexivity | discriminate | reflexivity].
Defined.

End DoubleWitness.

(** The label generated for the state of the worked example has a
    canonical path of three points, and the stretch of a canonical path
    of length 5 under a line of 10 letters succeeds. *)
Lemma label_path_canonical_witness :
  (exists generated : list StateLabel,
      Demo.generate (Some [1%nat]) = Some generated /\
      Forall (fun label => List.length (sl_points label) = 3%nat /\
                           CanonicalPath (sl_points label)) generated) /\
  (exists stretched : PathPoints,
      stretchedPath [(0, 0); (5, 1); (10, 0)] (Fin 5) 10 = Some stretched /\
      List.length stretched = 3%nat /\
      CanonicalPath stretched).
Proof.
  destruct (label_path_canonical OneState.graphWidth OneState.graphHeight
              OneState.findClosestCell OneState.cellStateIds
              OneState.cells_f OneState.features Demo.states Q
              Demo.toRadians Demo.Math_sin Demo.Math_cos Demo.Math_atan2
              "auto" 10 Demo.getTotalLength Demo.textBBox Demo.placedBBox
              Demo.splitInTwo) as (_ & Hstretch & Hgen).
  split.
  - destruct (Demo.generate (Some [1%nat])) as [generated|] eqn:Hg.
    + exists generated. split; [reflexivity|].
      exact (proj1 (Hgen (Some [1%nat]) generated [] Hg)).
    + vm_compute in Hg. discriminate Hg.
  - apply (Hstretch [(0, 0); (5, 1); (10, 0)] (Fin 5) 10%nat).
    + split; [simpl; lia|].
      exists (0, 0), (10, 0). repeat split.
      apply Qle_bool_iff. reflexivity.
    + reflexivity.
Defined.

(** The burg label of the worked example survives the regeneration of
    state 1. *)
Lemma regeneration_frame_witness :
  In Demo.kiev (fst (Demo.run (Some [1%nat]) (Some [Demo.kiev; Demo.oldRus]))).
Proof.
  destruct (regeneration_frame OneState.graphWidth OneState.graphHeight
              OneState.findClosestCell OneState.cellStateIds
              OneState.cells_f OneState.features Demo.states Q
              Demo.toRadians Demo.Math_sin Demo.Math_cos Demo.Math_atan2
              "auto" 10 Demo.getTotalLength Demo.textBBox Demo.placedBBox
              Demo.splitInTwo [1%nat] (Some [Demo.kiev; Demo.oldRus]))
    as (_ & _ & H & _).
  apply H.
  - left. reflexivity.
  - reflexivity.
Defined.

(** * Further properties of the engine *)

(** ** The remainder on either side of zero *)

Lemma Qtrunc_negative (q : Q) : q < 0 -> Qtrunc q = Qceiling q.
Proof.
  intro H. unfold Qtrunc.
  destruct (Qle_bool 0 q) eqn:E; [|reflexivity].
  apply Qle_bool_iff in E. lra.
Qed.

(** [a % m] lies strictly between [-m] and [m] and has the sign of [a]. *)
Lemma jsrem_bounds (a m : Q) :
  0 < m ->
  (0 <= a -> 0 <= jsrem a m < m) /\ (a <= 0 -> - m < jsrem a m <= 0).
Proof.
  intro Hm. split; intro Ha; [now apply jsrem_range|].
  destruct (Qeq_dec a 0) as [E|E].
  - assert (H : 0 <= jsrem a m < m) by (apply jsrem_range; lra). 
    assert (H0 : jsrem a m == 0).
    { rewrite (jsrem_comp a 0 E m m (Qeq_refl m)). unfold jsrem.
      assert (Et : Qtrunc (0 / m) = 0%Z).
      { rewrite (Qtrunc_comp (0 / m) 0); [reflexivity|].
        unfold Qdiv. ring. }
      rewrite Et. change (inject_Z 0) with 0. ring. }
    lra.
  - assert (Hneg : a < 0) by lra.
    unfold jsrem.
    assert (Hq : a / m < 0).
    { apply Qlt_shift_div_r; lra. }
    rewrite (Qtrunc_negative _ Hq).
    pose proof (Qle_ceiling (a / m)) as Hup.
    pose proof (Qceiling_lt (a / m)) as Hlow.
    unfold Z.sub in Hlow. rewrite inject_Z_plus in Hlow.
    change (inject_Z (- (1))) with (- (1)) in Hlow.
    set (c := inject_Z (Qceiling (a / m))) in *.
    assert (Ea : a == (a / m) * m) by (field; lra).
    assert (H1 : (a / m) * m <= c * m) by (apply Qmult_le_compat_r; lra).
    assert (H2 : (c - 1) * m < (a / m) * m) by (apply Qmult_lt_compat_r; lra).
    split; lra.
Qed.

Lemma jsrem_abs_lt (a m : Q) : 0 < m -> Qabs (jsrem a m) < m.
Proof.
  intro Hm. destruct (jsrem_bounds a m Hm) as [Hpos Hneg].
  destruct (Qlt_le_dec a 0) as [Ha|Ha].
  - assert (H : - m < jsrem a m <= 0) by (apply Hneg; lra).
    rewrite Qabs_neg by lra. lra.
  - specialize (Hpos Ha). rewrite Qabs_pos by lra. lra.
Qed.

(** ** The score of an angle *)

Lemma horizontality_range (a : Q) : 0 <= horizontality a <= 1.
Proof.
  unfold horizontality.
  pose proof (jsrem_abs_lt a 180 ltac:(lra)) as Hr.
  pose proof (Qabs_nonneg (jsrem a 180)) as H0.
  set (r := Qabs (jsrem a 180)) in *.
  assert (Hd : 0 <= Qabs (r - 90) <= 90).
  { split; [apply Qabs_nonneg|]. apply Qabs_Qle_condition. lra. }
  split.
  - apply Qle_shift_div_l; lra.
  - apply Qle_shift_div_r; lra.
Qed.

Lemma horizontality_one (a : Q) : horizontality a == 1 <-> jsrem a 180 == 0.
Proof.
  unfold horizontality.
  pose proof (jsrem_abs_lt a 180 ltac:(lra)) as Hr.
  pose proof (Qabs_nonneg (jsrem a 180)) as H0.
  assert (Hdiv : forall v, v / 90 == 1 <-> v == 90).
  { intro v. split; intro H.
    - assert (E : v == v / 90 * 90) by (field). lra.
    - rewrite H. reflexivity. }
  rewrite Hdiv.
  split; intro H.
  - assert (Hz : Qabs (jsrem a 180) == 0).
    { destruct (Qlt_le_dec (Qabs (jsrem a 180) - 90) 0) as [Hn|Hp].
      - rewrite Qabs_neg in H by lra. lra.
      - rewrite Qabs_pos in H by lra. lra. }
    destruct (Qlt_le_dec (jsrem a 180) 0) as [Hn|Hp].
    + rewrite Qabs_neg in Hz by lra. lra.
    + rewrite Qabs_pos in Hz by lra. lra.
  - rewrite H. reflexivity.
Qed.

(** The score of an angle lies between 0.1 and 1. *)
Lemma scoreRayAngle_bounds (angle : Q) : 0.1 <= scoreRayAngle angle <= 1.
Proof.
  unfold scoreRayAngle. cbv zeta.
  destruct (Qeq_bool _ 1);
    repeat match goal with
    | |- context [Qle_bool ?a ?b] => destruct (Qle_bool a b)
    end;
    split; apply Qle_bool_iff; reflexivity.
Qed.

(** X1.  [scoreRayAngle] has six values, between 0.1 and 1, and gives 1
    exactly to the horizontal directions, those with [angle % 180 = 0]. *)
Theorem scoreRayAngle_range : forall angle : Q,
  let s := scoreRayAngle angle in
  (s = 1 \/ s = 0.9 \/ s = 0.6 \/ s = 0.5 \/ s = 0.2 \/ s = 0.1) /\
  0.1 <= s <= 1 /\
  (s == 1 <-> jsrem angle 180 == 0).
Proof.
  intros angle s.
  pose proof (horizontality_one angle) as Hone.
  unfold s, scoreRayAngle. cbv zeta. fold (horizontality angle).
  destruct (Qeq_bool (horizontality angle) 1) eqn:E1.
  - apply Qeq_bool_iff in E1. split; [now left|].
    split; [split; [apply Qle_bool_iff|apply Qle_refl]; reflexivity|].
    split; intro; [now apply Hone | reflexivity].
  - apply Qeq_bool_false_iff in E1.
    assert (Hnot : ~ jsrem angle 180 == 0) by (intro H; apply E1, Hone, H).
    repeat match goal with
    | |- context [Qle_bool ?a ?b] => destruct (Qle_bool a b)
    end;
    (split; [tauto|]);
    (split; [split; apply Qle_bool_iff; reflexivity|]);
    (split; intro H; [discriminate H || (exfalso; revert H; apply Qeq_bool_neq; reflexivity) | contradiction]).
Qed.

(** X2.  [scoreRayAngle] is monotone in the horizontality of the angle: a
    direction at least as close to the horizontal scores at least as
    much. *)
Theorem scoreRayAngle_monotone : forall a b : Q,
  horizontality a <= horizontality b ->
  scoreRayAngle a <= scoreRayAngle b.
Proof.
  intros a b H.
  pose proof (horizontality_range a) as Ha.
  pose proof (horizontality_range b) as Hb.
  unfold scoreRayAngle. cbv zeta.
  fold (horizontality a). fold (horizontality b).
  set (ha := horizontality a) in *. set (hb := horizontality b) in *.
  Qcases; try lra; apply Qle_bool_iff; reflexivity.
Qed.

Lemma scoreRayAngle_monotone_witness : scoreRayAngle 45 <= scoreRayAngle 9.
Proof.
  apply scoreRayAngle_monotone. apply Qle_bool_iff. reflexivity.
Defined.

(** ** Bounds of the curvature multiplier and of the pair score *)

Lemma proximity_range (a : Q) : 0 <= a -> 0 <= proximity a <= 90.
Proof.
  intro Ha. unfold proximity.
  assert (H : 0 <= jsrem a 180 < 180) by (apply jsrem_range; lra).
  split; [apply Qabs_nonneg|]. apply Qabs_Qle_condition. lra.
Qed.

Lemma similarity_range (a1 a2 : Q) :
  0 <= a1 -> 0 <= a2 -> 0 <= similarity a1 a2 <= 1.
Proof.
  intros H1 H2. unfold similarity.
  pose proof (proximity_range a1 H1) as P1.
  pose proof (proximity_range a2 H2) as P2.
  assert (Hd : 0 <= Qabs (proximity a1 - proximity a2) <= 90).
  { split; [apply Qabs_nonneg|]. apply Qabs_Qle_condition. lra. }
  assert (Hq : 0 <= Qabs (proximity a1 - proximity a2) / 90 <= 1).
  { split; [apply Qle_shift_div_l | apply Qle_shift_div_r]; lra. }
  lra.
Qed.

Lemma scoreCurvature_range (a1 a2 : Q) :
  0 <= a1 -> 0 <= a2 -> 0 <= scoreCurvature a1 a2 <= 1.
Proof.
  intros H1 H2. pose proof (similarity_range a1 a2 H1 H2) as Hs.
  unfold scoreCurvature. cbv zeta. rewrite evaluateArc_similarity.
  set (s := similarity a1 a2) in *.
  Qcases; lra.
Qed.

(** X3.  For rays whose angles and lengths are not negative, as the sampler
    and the caster produce them, the curvature multiplier lies between 0
    and 1 and the score of a pair lies between 0 and the sum of the two
    lengths. *)
Theorem pairScore_bounds : forall ri rj : Ray,
  0 <= ray_angle ri -> 0 <= ray_angle rj ->
  0 <= ray_length ri -> 0 <= ray_length rj ->
  0 <= scoreCurvature (ray_angle ri) (ray_angle rj) <= 1 /\
  0 <= pairScore ri rj <= ray_length ri + ray_length rj.
Proof.
  intros ri rj Ha Hb Hl Hm.
  pose proof (scoreCurvature_range _ _ Ha Hb) as Hc.
  split; [exact Hc|].
  pose proof (scoreRayAngle_bounds (ray_angle ri)) as Hi.
  pose proof (scoreRayAngle_bounds (ray_angle rj)) as Hj.
  unfold pairScore. cbv zeta.
  set (c := scoreCurvature (ray_angle ri) (ray_angle rj)) in *.
  set (si := scoreRayAngle (ray_angle ri)) in *.
  set (sj := scoreRayAngle (ray_angle rj)) in *.
  set (li := ray_length ri) in *. set (lj := ray_length rj) in *.
  assert (H1 : 0 <= li * si <= li) by nra.
  assert (H2 : 0 <= lj * sj <= lj) by nra.
  nra.
Qed.

Lemma pairScore_bounds_witness :
  0 <= pairScore (mkRay 9 295 790 545) (mkRay 180 100 400 500) <= 395.
Proof.
  destruct (pairScore_bounds (mkRay 9 295 790 545) (mkRay 180 100 400 500))
    as [_ H]; try (apply Qle_bool_iff; reflexivity).
  exact H.
Defined.

(** With a negative angle the multiplier can be negative: the remainder
    [%] keeps the sign of the angle. *)
Example scoreCurvature_negative_angle : scoreCurvature (-170) 90 < 0.
Proof. apply Qlt_bool_iff. reflexivity. Qed.

(** ** The sampled directions *)

(** X4.  For a positive step, [precalculateAngles] yields the directions
    at the angles [0], [step], [2 * step], ... below 360: the [k]-th
    angle is [k * step], every angle lies in [0, 360), the multiple of the
    step after the last angle does not, and each direction carries the
    cosine and the sine of its angle. *)
Theorem precalculateAngles_directions :
  forall (radians : Type) (toRadians : Q -> radians)
         (Math_sin Math_cos : radians -> Q) (step : Q),
  0 < step ->
  let angles := precalculateAngles radians toRadians Math_sin Math_cos step in
  (forall k : nat, (k < List.length angles)%nat ->
     exists d : AngleData,
       nth_error angles k = Some d /\
       ad_angle d == Js.of_nat k * step /\
       0 <= ad_angle d < 360 /\
       ad_dx d = Math_cos (toRadians (ad_angle d)) /\
       ad_dy d = Math_sin (toRadians (ad_angle d))) /\
  360 <= Js.of_nat (List.length angles) * step.
Proof.
  intros radians toRadians Math_sin Math_cos step Hstep angles.
  destruct (for_range_values 0 360 step Hstep) as [Hval Hend].
  unfold angles, precalculateAngles. rewrite length_map.
  split.
  - intros k Hk. destruct (Hval k Hk) as [Hnth Hlt].
    eexists. split; [rewrite nth_error_map, Hnth; reflexivity|].
    simpl. split; [ring|]. split; [|split; reflexivity].
    pose proof (of_nat_nonneg k). split; [|lra]. nra.
  - lra.
Qed.

Lemma precalculateAngles_directions_witness :
  360 <= Js.of_nat (List.length (precalculateAngles Q Demo.toRadians
                                   Demo.Math_sin Demo.Math_cos ANGLE_STEP))
         * ANGLE_STEP.
Proof.
  apply (precalculateAngles_directions Q Demo.toRadians Demo.Math_sin
           Demo.Math_cos ANGLE_STEP).
  apply Qlt_bool_iff. reflexivity.
Defined.

(** The step of the engine gives forty directions. *)
Lemma precalculateAngles_forty (radians : Type) (toRadians : Q -> radians)
    (Math_sin Math_cos : radians -> Q) :
  List.length (precalculateAngles radians toRadians Math_sin Math_cos ANGLE_STEP)
  = 40%nat.
Proof. unfold precalculateAngles. rewrite length_map. reflexivity. Qed.

(** ** What [raycast] returns *)

Section RaycastResult.

Variable graphWidth graphHeight : Q.
Variable findClosestCell : Q -> Q -> nat.
Variable cellStateIds : list nat.
Variable cells_f : list nat.
Variable features : list Feature.
Variable stateId : nat.
Variable x0 y0 dx dy : Q.
Variable maxLakeSize : Q.
Variable offset : Q.

#[local] Abbreviation inside :=
  (isInsideState graphWidth graphHeight findClosestCell cellStateIds cells_f
     features stateId maxLakeSize).
#[local] Abbreviation accepts :=
  (inState graphWidth graphHeight findClosestCell cellStateIds cells_f
     features stateId x0 y0 dx dy maxLakeSize offset).
#[local] Abbreviation cast :=
  (castAlong graphWidth graphHeight findClosestCell cellStateIds cells_f
     features stateId x0 y0 dx dy maxLakeSize offset).
#[local] Abbreviation after := (rayAfter x0 y0 dx dy).
#[local] Abbreviation theRay :=
  (raycast graphWidth graphHeight findClosestCell cellStateIds cells_f
     features stateId x0 y0 dx dy maxLakeSize offset).

(** Where the scan of the candidates [a], [a + 1], ... stopped, read off its
    result. *)
Lemma castAlong_returned (len : nat) :
  forall (a : nat) (hit : RayHit),
    cast (map candidate (seq a len)) (after a) = Some hit ->
    exists m : nat,
      (a <= m <= a + len)%nat /\
      hit = after m /\
      (forall k, (a <= k < m)%nat -> accepts (candidate k) = Some true) /\
      ((m < a + len)%nat -> accepts (candidate m) = Some false).
Proof.
  induction len as [|len IH]; intros a hit H.
  - simpl in H. injection H as <-. exists a.
    repeat split; try lia; intros; lia.
  - simpl in H. unfold bind in H.
    destruct (accepts (candidate a)) as [[|]|] eqn:E; [| |discriminate].
    + simpl in H. destruct (IH (S a) hit H) as (m & Hm & Hhit & Hacc & Hrej).
      exists m. split; [lia|]. split; [exact Hhit|]. split.
      * intros k Hk. destruct (Nat.eq_dec k a) as [->|]; [exact E|].
        apply Hacc. lia.
      * intro Hlt. apply Hrej. lia.
    + simpl in H. injection H as <-. exists a.
      split; [lia|]. split; [reflexivity|]. split; intros; [lia|exact E].
Qed.

(** Where the scan threw. *)
Lemma castAlong_thrown (len : nat) :
  forall (a : nat) (ray : RayHit),
    cast (map candidate (seq a len)) ray = None <->
    exists m : nat,
      (a <= m < a + len)%nat /\
      (forall k, (a <= k < m)%nat -> accepts (candidate k) = Some true) /\
      accepts (candidate m) = None.
Proof.
  induction len as [|len IH]; intros a ray.
  - simpl. split; [discriminate|]. intros (m & Hm & _). lia.
  - simpl. unfold bind.
    destruct (accepts (candidate a)) as [[|]|] eqn:E.
    + simpl. rewrite IH. split.
      * intros (m & Hm & Hacc & Hnone). exists m.
        split; [lia|]. split; [|exact Hnone].
        intros k Hk. destruct (Nat.eq_dec k a) as [->|]; [exact E|].
        apply Hacc. lia.
      * intros (m & Hm & Hacc & Hnone).
        destruct (Nat.eq_dec m a) as [->|Hne]; [congruence|].
        exists m. split; [lia|]. split; [|exact Hnone].
        intros k Hk. apply Hacc. lia.
    + simpl. split; [discriminate|].
      intros (m & Hm & Hacc & Hnone).
      destruct (Nat.eq_dec m a) as [->|Hne]; [congruence|].
      rewrite (Hacc a) in E by lia. discriminate.
    + split; [|reflexivity]. intros _. exists a.
      split; [lia|]. split; [intros; lia|exact E].
Qed.

Lemma isInsideState_on_canvas (x y : Q) :
  inside x y = Some true ->
  0 <= x <= graphWidth /\ 0 <= y <= graphHeight.
Proof.
  unfold isInsideState.
  destruct (Qlt_bool x 0 || Qlt_bool graphWidth x
            || Qlt_bool y 0 || Qlt_bool graphHeight y) eqn:E;
    [discriminate|].
  intros _. rewrite !orb_false_iff, !Qlt_bool_false_iff in E. tauto.
Qed.

End RaycastResult.

(** X5.  Whatever ray [raycast] returns is the ray after some number
    [m <= 59] of accepted candidates: its length is [5 * m], between 0 and
    295; its end point is [(x0 + length * dx, y0 + length * dy)]; every
    candidate up to it was accepted, and the next one, if any, was
    rejected. *)
Theorem raycast_result_shape :
  forall (graphWidth graphHeight : Q) (findClosestCell : Q -> Q -> nat)
         (cellStateIds cells_f : list nat) (features : list Feature)
         (stateId : nat) (x0 y0 dx dy maxLakeSize offset : Q) (hit : RayHit),
  raycast graphWidth graphHeight findClosestCell cellStateIds cells_f
          features stateId x0 y0 dx dy maxLakeSize offset = Some hit ->
  let accepts := inState graphWidth graphHeight findClosestCell
                   cellStateIds cells_f features stateId x0 y0 dx dy
                   maxLakeSize offset in
  (exists m : nat,
      (m <= 59)%nat /\
      hit = rayAfter x0 y0 dx dy m /\
      hit_length hit == 5 * Js.of_nat m /\
      (forall k, (k < m)%nat -> accepts (candidate k) = Some true) /\
      ((m < 59)%nat -> accepts (candidate m) = Some false)) /\
  0 <= hit_length hit <= 295 /\
  hit_x hit == x0 + hit_length hit * dx /\
  hit_y hit == y0 + hit_length hit * dy.
Proof.
  intros until hit. intros H accepts.
  unfold raycast in H. rewrite raycast_candidates in H.
  destruct (castAlong_returned _ _ _ _ _ _ _ _ _ _ _ _ _ 59 0 hit H)
    as (m & Hm & Hhit & Hacc & Hrej).
  assert (Hlen : hit_length hit == 5 * Js.of_nat m).
  { rewrite Hhit. destruct m as [|k]; simpl; [reflexivity|].
    rewrite candidate_value. unfold Js.of_nat.
    rewrite Nat2Z.inj_succ. unfold Z.succ. rewrite inject_Z_plus.
    change (inject_Z 1) with 1. ring. }
  split.
  - exists m. split; [lia|]. split; [exact Hhit|]. split; [exact Hlen|].
    split; [intros k Hk; apply Hacc; lia | intro Hlt; apply Hrej; lia].
  - split.
    + rewrite Hlen. pose proof (of_nat_nonneg m) as H0.
      assert (Hle : Js.of_nat m <= 59).
      { unfold Js.of_nat. change 59 with (inject_Z 59).
        rewrite <- Zle_Qle. lia. }
      split; lra.
    + rewrite Hhit. destruct m as [|k]; simpl; split; try reflexivity; ring.
Qed.

Lemma raycast_result_shape_witness :
  0 <= hit_length (mkRayHit 295 795 500) <= 295.
Proof.
  destruct (raycast_result_shape OneState.graphWidth OneState.graphHeight
              OneState.findClosestCell OneState.cellStateIds OneState.cells_f
              OneState.features 1 500 500 1 0 0 0 (mkRayHit 295 795 500))
    as (_ & H & _).
  - vm_compute. reflexivity.
  - exact H.
Defined.

(** X6.  [raycast] throws exactly when the test of some candidate throws
    (the feature of a cell is missing) after every candidate before it was
    accepted. *)
Theorem raycast_throws_iff :
  forall (graphWidth graphHeight : Q) (findClosestCell : Q -> Q -> nat)
         (cellStateIds cells_f : list nat) (features : list Feature)
         (stateId : nat) (x0 y0 dx dy maxLakeSize offset : Q),
  let accepts := inState graphWidth graphHeight findClosestCell
                   cellStateIds cells_f features stateId x0 y0 dx dy
                   maxLakeSize offset in
  raycast graphWidth graphHeight findClosestCell cellStateIds cells_f
          features stateId x0 y0 dx dy maxLakeSize offset = None <->
  exists m : nat,
    (m < 59)%nat /\
    (forall k, (k < m)%nat -> accepts (candidate k) = Some true) /\
    accepts (candidate m) = None.
Proof.
  intros. unfold raycast. rewrite raycast_candidates, castAlong_thrown.
  split; intros (m & Hm & Hacc & Hnone); exists m;
    (split; [lia|]); (split; [|exact Hnone]); intros k Hk; apply Hacc; lia.
Qed.

(** A map whose table of features is empty: the first test throws. *)
Example raycast_throws_without_features :
  raycast 1000 1000 (fun _ _ => 0%nat) [1%nat] [0%nat] [] 1 500 500 1 0 0 0
  = None.
Proof. reflexivity. Qed.

(** X7.  A ray of positive length ends inside the state and on the canvas:
    its end point and the two points offset from it passed the test, and
    the end point has coordinates within the bounds of the canvas. *)
Theorem raycast_ends_inside :
  forall (graphWidth graphHeight : Q) (findClosestCell : Q -> Q -> nat)
         (cellStateIds cells_f : list nat) (features : list Feature)
         (stateId : nat) (x0 y0 dx dy maxLakeSize offset : Q) (hit : RayHit),
  raycast graphWidth graphHeight findClosestCell cellStateIds cells_f
          features stateId x0 y0 dx dy maxLakeSize offset = Some hit ->
  0 < hit_length hit ->
  let inside := isInsideState graphWidth graphHeight findClosestCell
                  cellStateIds cells_f features stateId maxLakeSize in
  inside (hit_x hit) (hit_y hit) = Some true /\
  inside (hit_x hit + - dy * offset) (hit_y hit + dx * offset) = Some true /\
  inside (hit_x hit + dy * offset) (hit_y hit + - dx * offset) = Some true /\
  0 <= hit_x hit <= graphWidth /\
  0 <= hit_y hit <= graphHeight.
Proof.
  intros until hit. intros H Hpos inside.
  unfold raycast in H. rewrite raycast_candidates in H.
  destruct (castAlong_returned _ _ _ _ _ _ _ _ _ _ _ _ _ 59 0 hit H)
    as (m & Hm & Hhit & Hacc & _).
  destruct m as [|k].
  - rewrite Hhit in Hpos. simpl in Hpos. lra.
  - assert (Hk : inState graphWidth graphHeight findClosestCell cellStateIds
                   cells_f features stateId x0 y0 dx dy maxLakeSize offset
                   (candidate k) = Some true) by (apply Hacc; lia).
    apply inState_accepts in Hk. destruct Hk as (H1 & H2 & H3).
    rewrite Hhit. simpl.
    split; [exact H1|]. split; [exact H2|]. split; [exact H3|].
    exact (isInsideState_on_canvas _ _ _ _ _ _ _ _ _ _ H1).
Qed.

Lemma raycast_ends_inside_witness :
  0 <= hit_x (mkRayHit 295 795 500) <= OneState.graphWidth.
Proof.
  destruct (raycast_ends_inside OneState.graphWidth OneState.graphHeight
              OneState.findClosestCell OneState.cellStateIds OneState.cells_f
              OneState.features 1 500 500 1 0 0 0 (mkRayHit 295 795 500))
    as (_ & _ & _ & H & _).
  - vm_compute. reflexivity.
  - apply Qlt_bool_iff. reflexivity.
  - exact H.
Defined.

(** ** Degenerate rays *)

Lemma pairScore_zero_length (ri rj : Ray) :
  ray_length ri == 0 -> ray_length rj == 0 -> pairScore ri rj == 0.
Proof.
  intros Hi Hj. unfold pairScore. cbv zeta. rewrite Hi, Hj. ring.
Qed.

(** With all lengths zero the scan keeps the first pair it meets. *)
Lemma scanRays_all_zero (r0 r1 : Ray) (rest : list Ray) :
  (forall r, In r (r0 :: r1 :: rest) -> ray_length r == 0) ->
  scanRays (r0 :: r1 :: rest) (None, NInf)
  = (Some (r0, r1), Fin (pairScore r0 r1)).
Proof.
  intros Hzero.
  set (rays := r0 :: r1 :: rest) in *.
  assert (Hray : forall k, (k < List.length rays)%nat ->
                           ray_length (rayAt rays k) == 0).
  { intros k Hk. apply Hzero. unfold rayAt. now apply nth_In. }
  assert (Hscore : forall k l, (k < l < List.length rays)%nat ->
                               scoreAt rays k l == 0).
  { intros k l Hkl. unfold scoreAt.
    apply pairScore_zero_length; apply Hray; lia. }
  pose proof (scanRays_all rays) as H.
  destruct H as [[_ Hnone] | (bi & bj & Hb & -> & Hmax)].
  - exfalso. apply (Hnone 0%nat 1%nat). unfold scannedBefore. simpl. lia.
  - assert (Hfirst : bi = 0%nat /\ bj = 1%nat).
    { destruct (Nat.eq_dec bi 0) as [->|Hi];
        [destruct (Nat.eq_dec bj 1) as [->|Hj]; [auto|]|].
      - exfalso. assert (Hs : scannedBefore rays 0 bj 0 1)
          by (unfold scannedBefore in *; simpl in *; lia).
        assert (Hall : scannedBefore rays (List.length rays)
                         (S (List.length rays)) 0 1)
          by (unfold scannedBefore in *; simpl in *; lia).
        destruct (Hmax _ _ Hall) as [_ Hlt]. specialize (Hlt Hs).
        rewrite (Hscore 0%nat 1%nat) in Hlt by (simpl; lia).
        rewrite (Hscore 0%nat bj) in Hlt
          by (unfold scannedBefore in Hb; simpl in *; lia).
        lra.
      - exfalso. assert (Hs : scannedBefore rays bi bj 0 1)
          by (unfold scannedBefore in *; simpl in *; lia).
        assert (Hall : scannedBefore rays (List.length rays)
                         (S (List.length rays)) 0 1)
          by (unfold scannedBefore in *; simpl in *; lia).
        destruct (Hmax _ _ Hall) as [_ Hlt]. specialize (Hlt Hs).
        rewrite (Hscore 0%nat 1%nat) in Hlt by (simpl; lia).
        rewrite (Hscore bi bj) in Hlt
          by (unfold scannedBefore in Hb; simpl in *; lia).
        lra. }
    destruct Hfirst as [-> ->]. reflexivity.
Qed.

(** X8.  When every ray has length zero (no direction could advance), all
    pairs score zero and [findBestRayPair] returns the first pair of the
    scan, [(rays[0], rays[1])]. *)
Theorem findBestRayPair_all_zero :
  forall (r0 r1 : Ray) (rest : list Ray),
  (forall r, In r (r0 :: r1 :: rest) -> ray_length r == 0) ->
  findBestRayPair (r0 :: r1 :: rest) = Some (r0, r1) /\
  (forall ri rj, In ri (r0 :: r1 :: rest) -> In rj (r0 :: r1 :: rest) ->
                 pairScore ri rj == 0).
Proof.
  intros r0 r1 rest Hzero. split.
  - unfold findBestRayPair. now rewrite scanRays_all_zero.
  - intros ri rj Hi Hj. apply pairScore_zero_length; now apply Hzero.
Qed.

Lemma findBestRayPair_all_zero_witness :
  findBestRayPair [mkRay 0 0 5 5; mkRay 9 0 5 5; mkRay 18 0 5 5]
  = Some (mkRay 0 0 5 5, mkRay 9 0 5 5).
Proof.
  apply (findBestRayPair_all_zero (mkRay 0 0 5 5) (mkRay 9 0 5 5)
           [mkRay 18 0 5 5]).
  intros r [<-|[<-|[<-|[]]]]; reflexivity.
Defined.

Lemma mapM_all_some {A B : Type} (f : A -> option B) (g : A -> B) (xs : list A) :
  (forall a, In a xs -> f a = Some (g a)) ->
  mapM f xs = Some (map g xs).
Proof.
  induction xs as [|a rest IH]; intro H; [reflexivity|].
  simpl. rewrite (H a) by (now left). unfold bind at 1.
  rewrite IH by (intros b Hb; apply H; now right). reflexivity.
Qed.

Lemma castRays_stuck (graphWidth graphHeight : Q)
    (findClosestCell : Q -> Q -> nat) (cellStateIds cells_f : list nat)
    (features : list Feature) (angles : list AngleData) (state : State) :
  Stuck graphWidth graphHeight findClosestCell cellStateIds cells_f features
        angles state ->
  castRays graphWidth graphHeight findClosestCell cellStateIds cells_f
           features angles state
  = Some (map (fun a => mkRay (ad_angle a) 0 (fst (st_pole state))
                              (snd (st_pole state))) angles).
Proof.
  unfold Stuck, castRays. destruct (st_pole state) as [x0 y0]. simpl.
  intro H. apply mapM_all_some. intros a Ha.
  rewrite (raycast_returns_last_accepted graphWidth graphHeight
             findClosestCell cellStateIds cells_f features (st_i state)
             x0 y0 (ad_dx a) (ad_dy a) (st_cells state / 20)
             (getOffsetWidth (st_cells state)) 0%nat);
    [reflexivity | lia | intros; lia | intros _; now apply H].
Qed.

(** X9.  A state from whose pole no direction can advance (its pole is not
    inside it) still gets a label: all forty rays have length zero, the
    first two are chosen, and the path of the label collapses to three
    copies of the pole. *)
Theorem stuck_state_label :
  forall (graphWidth graphHeight : Q) (findClosestCell : Q -> Q -> nat)
         (cellStateIds cells_f : list nat) (features : list Feature)
         (radians : Type) (toRadians : Q -> radians)
         (Math_sin Math_cos : radians -> Q) (state : State),
  let angles :=
    precalculateAngles radians toRadians Math_sin Math_cos ANGLE_STEP in
  Stuck graphWidth graphHeight findClosestCell cellStateIds cells_f features
        angles state ->
  generateStateLabel graphWidth graphHeight findClosestCell cellStateIds
                     cells_f features angles state
  = Some (mkStateLabel (stateLabelId (st_i state)) (st_name state)
                       (st_i state)
                       [st_pole state; st_pole state; st_pole state]
                       50 (Fin 100) 0 "").
Proof.
  intros until state. intros angles Hstuck.
  unfold generateStateLabel.
  rewrite (castRays_stuck _ _ _ _ _ _ _ _ Hstuck). unfold bind.
  pose proof (precalculateAngles_forty radians toRadians Math_sin Math_cos)
    as Hlen. fold angles in Hlen.
  destruct angles as [|a0 [|a1 rest]]; try discriminate Hlen.
  simpl map. unfold findBestRayPair.
  rewrite scanRays_all_zero.
  - simpl. unfold labelPath. simpl.
    assert (E : Qlt_bool (fst (st_pole state)) (fst (st_pole state)) = false)
      by (apply Qlt_bool_false_iff; apply Qle_refl).
    rewrite E. destruct (st_pole state). reflexivity.
  - intros r Hr. simpl in Hr.
    destruct Hr as [<-|[<-|Hr]]; try reflexivity.
    apply in_map_iff in Hr. destruct Hr as (a & <- & _). reflexivity.
Qed.

Lemma stuck_state_label_witness :
  Edge.generateOne (mkState 2 false false 100 (300, 300) "Lit" "Duchy of Lit")
  = Some (mkStateLabel "stateLabel2" "Lit" 2
                       [(300, 300); (300, 300); (300, 300)] 50 (Fin 100) 0 "").
Proof.
  apply (stuck_state_label OneState.graphWidth OneState.graphHeight
           OneState.findClosestCell OneState.cellStateIds OneState.cells_f
           OneState.features Q Demo.toRadians Demo.Math_sin Demo.Math_cos
           (mkState 2 false false 100 (300, 300) "Lit" "Duchy of Lit")).
  intros a Ha. vm_compute in Ha.
  repeat (destruct Ha as [<-|Ha]; [vm_compute; reflexivity|]).
  destruct Ha.
Defined.

(** ** Generation, state by state *)

Lemma mapM_some_iff {A B : Type} (f : A -> option B) (xs : list A) (ys : list B) :
  mapM f xs = Some ys <-> Forall2 (fun a b => f a = Some b) xs ys.
Proof.
  revert ys. induction xs as [|a rest IH]; intro ys; simpl.
  - split; intro H.
    + injection H as <-. constructor.
    + inversion H. reflexivity.
  - unfold bind. destruct (f a) as [b|] eqn:E.
    + destruct (mapM f rest) as [bs|] eqn:Em.
      * split; intro H.
        -- injection H as <-. constructor; [exact E|]. now apply IH.
        -- inversion H as [|? b' ? bs' Hb Hbs]; subst.
           apply IH in Hbs. congruence.
      * split; intro H; [discriminate|].
        inversion H as [|? b' ? bs' Hb Hbs]; subst.
        apply IH in Hbs. discriminate.
    + split; intro H; [discriminate|].
      inversion H as [|? b' ? bs' Hb Hbs]; subst. congruence.
Qed.

Lemma mapM_none_iff {A B : Type} (f : A -> option B) (xs : list A) :
  mapM f xs = None <-> exists a, In a xs /\ f a = None.
Proof.
  induction xs as [|a rest IH]; simpl.
  - split; [discriminate|]. intros (a & [] & _).
  - unfold bind. destruct (f a) as [b|] eqn:E.
    + destruct (mapM f rest) as [bs|] eqn:Em.
      * split; [discriminate|]. intros (c & [<-|Hc] & Hn); [congruence|].
        assert (H : Some bs = None) by (apply IH; now exists c).
        discriminate H.
      * split; [|reflexivity]. intros _.
        destruct (proj1 IH eq_refl) as (c & Hc & Hn). exists c. auto.
    + split; [|reflexivity]. intros _. exists a. auto.
Qed.

Lemma mapM_length {A B : Type} (f : A -> option B) (xs : list A) (ys : list B) :
  mapM f xs = Some ys -> List.length ys = List.length xs.
Proof.
  intro H. apply mapM_some_iff in H. symmetry. exact (Forall2_length H).
Qed.

(** Two rays at least: the scan holds a pair. *)
Lemma findBestRayPair_some (rays : list Ray) :
  (2 <= List.length rays)%nat -> findBestRayPair rays <> None.
Proof.
  intros Hlen H. unfold findBestRayPair in H.
  destruct (scanRays_all rays) as [[E Hnone] | (bi & bj & _ & E & _)].
  - apply (Hnone 0%nat 1%nat). unfold scannedBefore. lia.
  - rewrite E in H. discriminate.
Qed.

Section GenerateFacts.

Variable graphWidth graphHeight : Q.
Variable findClosestCell : Q -> Q -> nat.
Variable cellStateIds : list nat.
Variable cells_f : list nat.
Variable features : list Feature.

#[local] Abbreviation rays :=
  (castRays graphWidth graphHeight findClosestCell cellStateIds cells_f
            features).
#[local] Abbreviation one :=
  (generateStateLabel graphWidth graphHeight findClosestCell cellStateIds
                      cells_f features).
#[local] Abbreviation loop :=
  (generateLoop graphWidth graphHeight findClosestCell cellStateIds cells_f
                features).

(** The loop of the generator is a [map] over the states it labels, cut
    short by the first exception. *)
Lemma generateLoop_mapM (angles : list AngleData) (stateIds : option (list nat))
    (todo : list State) :
  forall labels : list StateLabel,
    loop angles stateIds todo labels
    = match mapM (one angles) (filter (labelled stateIds) todo) with
      | Some generated => Some (labels ++ generated)
      | None => None
      end.
Proof.
  induction todo as [|state rest IH]; intro labels.
  - simpl. now rewrite app_nil_r.
  - simpl. unfold labelled at 1.
    destruct (Nat.eqb (st_i state) 0 || st_removed state || st_lock state).
    + simpl. apply IH.
    + simpl.
      destruct (match stateIds with
                | Some ids => includesNat ids (st_i state)
                | None => true
                end) eqn:E.
      * assert (E' : match stateIds with
                     | Some ids => negb (includesNat ids (st_i state))
                     | None => false
                     end = false)
          by (destruct stateIds; [now rewrite E|reflexivity]).
        rewrite E'. simpl. unfold bind.
        destruct (one angles state) as [label|]; [|reflexivity].
        rewrite IH.
        destruct (mapM (one angles) (filter (labelled stateIds) rest));
          [|reflexivity].
        now rewrite <- app_assoc.
      * assert (E' : match stateIds with
                     | Some ids => negb (includesNat ids (st_i state))
                     | None => false
                     end = true)
          by (destruct stateIds; [now rewrite E|discriminate]).
        rewrite E'. apply IH.
Qed.

(** With at least two directions the label of a state fails only if a ray
    cast fails. *)
Lemma generateStateLabel_none (angles : list AngleData) (state : State) :
  (2 <= List.length angles)%nat ->
  (one angles state = None <-> rays angles state = None).
Proof.
  intro Hlen. unfold generateStateLabel, bind.
  destruct (rays angles state) as [rs|] eqn:E; [|tauto].
  assert (Hrs : List.length rs = List.length angles).
  { unfold castRays in E. destruct (st_pole state).
    exact (mapM_length _ _ _ E). }
  destruct (findBestRayPair rs) as [[r1 r2]|] eqn:Eb.
  - split; discriminate.
  - exfalso. apply (findBestRayPair_some rs); [lia | exact Eb].
Qed.

End GenerateFacts.

(** X10.  When [generateStateLabelsData] completes, its labels are those of
    the states it labels (not neutral, not removed, not locked, and listed
    when a list is given), one for each, in the order of the states: the
    label of a state carries its id [stateLabel<i>], its number and its
    short name. *)
Theorem generateStateLabelsData_labels :
  forall (graphWidth graphHeight : Q) (findClosestCell : Q -> Q -> nat)
         (cellStateIds cells_f : list nat) (features : list Feature)
         (states : list State) (radians : Type) (toRadians : Q -> radians)
         (Math_sin Math_cos : radians -> Q)
         (stateIds : option (list nat)) (generated : list StateLabel),
  generateStateLabelsData graphWidth graphHeight findClosestCell cellStateIds
    cells_f features states radians toRadians Math_sin Math_cos stateIds
    = Some generated ->
  let chosen := filter (labelled stateIds) states in
  Forall2 (fun state label =>
             generateStateLabel graphWidth graphHeight findClosestCell
               cellStateIds cells_f features
               (precalculateAngles radians toRadians Math_sin Math_cos
                                   ANGLE_STEP)
               state = Some label)
          chosen generated /\
  map sl_stateId generated = map st_i chosen /\
  map sl_i generated = map (fun state => stateLabelId (st_i state)) chosen /\
  map sl_name generated = map st_name chosen.
Proof.
  intros until generated. intros H chosen.
  unfold generateStateLabelsData in H. rewrite generateLoop_mapM in H.
  fold chosen in H.
  destruct (mapM _ chosen) as [ls|] eqn:E; [|discriminate].
  simpl in H. injection H as <-.
  apply mapM_some_iff in E. split; [exact E|].
  induction E as [|state label rest ls Hone _ IH]; [repeat split|].
  destruct IH as (I1 & I2 & I3).
  destruct (generateStateLabel_shape _ _ _ _ _ _ _ _ _ Hone) as (Hi & Hs & _).
  assert (Hn : sl_name label = st_name state).
  { unfold generateStateLabel, bind in Hone.
    destruct (castRays _ _ _ _ _ _ _ _); [|discriminate].
    destruct (findBestRayPair _) as [[r1 r2]|]; [|discriminate].
    injection Hone as <-. reflexivity. }
  simpl. rewrite I1, I2, I3, Hi, Hs, Hn. repeat split.
Qed.

Lemma generateStateLabelsData_labels_witness :
  exists generated : list StateLabel,
    Demo.generate None = Some generated /\
    map sl_stateId generated = [1%nat].
Proof.
  destruct (Demo.generate None) as [generated|] eqn:Hg.
  - exists generated. split; [reflexivity|].
    destruct (generateStateLabelsData_labels OneState.graphWidth
                OneState.graphHeight OneState.findClosestCell
                OneState.cellStateIds OneState.cells_f OneState.features
                Demo.states Q Demo.toRadians Demo.Math_sin Demo.Math_cos
                None generated Hg) as (_ & H & _).
    exact H.
  - vm_compute in Hg. discriminate Hg.
Defined.

(** X11.  [generateStateLabelsData] throws exactly when casting the rays of
    one of the states it labels throws; the forty directions always leave
    a pair of rays to choose, so the choice of the pair never fails. *)
Theorem generateStateLabelsData_throws_iff :
  forall (graphWidth graphHeight : Q) (findClosestCell : Q -> Q -> nat)
         (cellStateIds cells_f : list nat) (features : list Feature)
         (states : list State) (radians : Type) (toRadians : Q -> radians)
         (Math_sin Math_cos : radians -> Q) (stateIds : option (list nat)),
  generateStateLabelsData graphWidth graphHeight findClosestCell cellStateIds
    cells_f features states radians toRadians Math_sin Math_cos stateIds
    = None <->
  exists state : State,
    In state states /\
    labelled stateIds state = true /\
    castRays graphWidth graphHeight findClosestCell cellStateIds cells_f
             features
             (precalculateAngles radians toRadians Math_sin Math_cos
                                 ANGLE_STEP)
             state = None.
Proof.
  intros. unfold generateStateLabelsData. rewrite generateLoop_mapM.
  set (angles := precalculateAngles radians toRadians Math_sin Math_cos
                                    ANGLE_STEP).
  assert (Hlen : (2 <= List.length angles)%nat).
  { unfold angles. rewrite precalculateAngles_forty. lia. }
  split.
  - destruct (mapM _ _) as [ls|] eqn:E; [discriminate|]. intros _.
    apply mapM_none_iff in E. destruct E as (state & Hin & Hnone).
    apply filter_In in Hin. destruct Hin as [Hin Hl].
    exists state. split; [exact Hin|]. split; [exact Hl|].
    now apply (generateStateLabel_none _ _ _ _ _ _ angles state Hlen).
  - intros (state & Hin & Hl & Hnone).
    assert (E : mapM (generateStateLabel graphWidth graphHeight
                        findClosestCell cellStateIds cells_f features angles)
                     (filter (labelled stateIds) states) = None).
    { apply mapM_none_iff. exists state. split.
      - apply filter_In. now split.
      - now apply (generateStateLabel_none _ _ _ _ _ _ angles state Hlen). }
    now rewrite E.
Qed.

(** ** The range of the font-size ratio *)

Lemma Qmin_Qmax_cases (q lo hi : Q) :
  lo <= hi ->
  lo <= Qmin (Qmax q lo) hi <= hi /\
  (Qmin (Qmax q lo) hi == q \/ Qmin (Qmax q lo) hi == lo
   \/ Qmin (Qmax q lo) hi == hi).
Proof.
  intro H.
  destruct (Q.max_spec q lo) as [[H1 E1]|[H1 E1]];
    destruct (Q.min_spec (Qmax q lo) hi) as [[H2 E2]|[H2 E2]];
    rewrite E2; rewrite ?E1 in *; split; try lra; auto;
    try (split; lra); rewrite ?E1; auto.
Qed.

(** The clamp of a rounded value: a whole number within the bounds, when
    the bounds are whole; NaN only for NaN. *)
Lemma minmax_rn_within (v : jsnum) (lo hi : Z) :
  (lo <= hi)%Z ->
  RatioWithin (inject_Z lo) (inject_Z hi)
              (minmax (rn v) (inject_Z lo) (inject_Z hi)) /\
  (minmax (rn v) (inject_Z lo) (inject_Z hi) = NaN <-> v = NaN).
Proof.
  intro H. assert (Hq : inject_Z lo <= inject_Z hi) by now rewrite <- Zle_Qle.
  destruct v as [q| | |]; simpl.
  - split; [|split; discriminate].
    destruct (Qmin_Qmax_cases (inject_Z (Qfloor (q + (1 # 2))))
                (inject_Z lo) (inject_Z hi) Hq) as [Hr [E|[E|E]]].
    + split; [exact Hr|]. eexists; exact E.
    + split; [exact Hr|]. eexists; exact E.
    + split; [exact Hr|]. eexists; exact E.
  - split; [|split; discriminate].
    split; [split; [exact Hq | apply Qle_refl]|]. exists hi. reflexivity.
  - split; [|split; discriminate].
    destruct (Q.min_spec (inject_Z lo) (inject_Z hi)) as [[H1 E]|[H1 E]].
    + split; [split; lra|]. exists lo. exact E.
    + split; [split; lra|]. exists hi. exact E.
  - split; [exact I|]. split; reflexivity.
Qed.

(** The quotient by a length, scaled by a positive constant, is NaN only
    for a NaN path length, or for a zero path length over an empty
    text. *)
Lemma scaled_quotient_nan (p : jsnum) (n : nat) (c : Q) :
  0 < c ->
  (Js.mul (Js.div p (Fin (Js.of_nat n))) (Fin c) = NaN <->
   p = NaN \/ (n = 0%nat /\ exists q, p = Fin q /\ q == 0)).
Proof.
  intro Hc. pose proof (of_nat_nonneg n) as Hn.
  assert (Hcb : Qlt_bool 0 c = true) by now apply Qlt_bool_iff.
  assert (Hnb : Qlt_bool (Js.of_nat n) 0 = false)
    by now apply Qlt_bool_false_iff.
  assert (Hzero : Qeq_bool (Js.of_nat n) 0 = true <-> n = 0%nat).
  { rewrite Qeq_bool_iff. unfold Js.of_nat. change 0 with (inject_Z 0).
    rewrite inject_Z_injective. lia. }
  destruct p as [q| | |]; simpl.
  - destruct (Qeq_bool (Js.of_nat n) 0) eqn:E.
    + assert (n = 0%nat) by now apply Hzero.
      destruct (Qlt_bool 0 q) eqn:E1; simpl.
      * rewrite Hcb. apply Qlt_bool_iff in E1. split; [discriminate|].
        intros [H0|(_ & q' & Hq & Hz)]; [discriminate|].
        injection Hq as <-. lra.
      * destruct (Qlt_bool q 0) eqn:E2; simpl.
        -- rewrite Hcb. apply Qlt_bool_iff in E2. split; [discriminate|].
           intros [H0|(_ & q' & Hq & Hz)]; [discriminate|].
           injection Hq as <-. lra.
        -- apply Qlt_bool_false_iff in E1, E2. split; [|reflexivity].
           intros _. right. split; [assumption|]. exists q. split; [reflexivity|lra].
    + simpl. split; [discriminate|].
      intros [H0|(H0 & _)]; [discriminate|].
      apply Hzero in H0. congruence.
  - rewrite Hnb. simpl. rewrite Hcb. split; [discriminate|].
    intros [H0|(_ & q' & Hq & _)]; discriminate.
  - rewrite Hnb. simpl. rewrite Hcb. split; [discriminate|].
    intros [H0|(_ & q' & Hq & _)]; discriminate.
  - split; [auto|reflexivity].
Qed.

(** Whatever the branch, the ratio of [getLinesAndRatio] is clamped. *)
Lemma getLinesAndRatio_clamped (splitInTwo : string -> list string)
    (mode name fullName : string) (pathLength : jsnum) :
  RatioWithin 50 170
    (snd (getLinesAndRatio splitInTwo mode name fullName pathLength)).
Proof.
  assert (Hwiden : forall (lo hi : Z) v,
             (50 <= lo)%Z -> (lo <= hi)%Z -> (hi <= 170)%Z ->
             RatioWithin 50 170 (minmax (rn v) (inject_Z lo) (inject_Z hi))).
  { intros lo hi v H1 H2 H3.
    destruct (minmax_rn_within v lo hi H2) as [H _].
    destruct (minmax (rn v) (inject_Z lo) (inject_Z hi)) as [r| | |];
      simpl in *; auto.
    destruct H as [[Hl Hh] Hz]. split; [|exact Hz].
    assert (inject_Z 50 <= inject_Z lo) by (rewrite <- Zle_Qle; exact H1).
    assert (inject_Z hi <= inject_Z 170) by (rewrite <- Zle_Qle; exact H3).
    change (inject_Z 50) with 50 in *. change (inject_Z 170) with 170 in *.
    split; lra. }
  destruct (String.eqb mode "short") eqn:Em.
  - apply String.eqb_eq in Em. rewrite getLinesAndRatio_short by exact Em.
    apply (Hwiden 50%Z 150%Z); lia.
  - apply String.eqb_neq in Em.
    destruct (Js.gt pathLength
                    (Fin (Js.of_nat (String.length fullName) * 2))) eqn:G.
    + rewrite getLinesAndRatio_generous by assumption.
      apply (Hwiden 70%Z 170%Z); lia.
    + rewrite getLinesAndRatio_tight by assumption.
      apply (Hwiden 70%Z 150%Z); lia.
Qed.

(** X12.  The font-size ratio of [getLinesAndRatio] is always clamped: a
    whole number from 50 to 150 in mode ["short"] and from 70 to 170 in the
    other modes (from 70 to 150 on two lines), unless it is NaN, which
    happens only for a NaN path length or for a zero path length over an
    empty text. *)
Theorem getLinesAndRatio_ratio_within :
  forall (splitInTwo : string -> list string) (mode name fullName : string)
         (pathLength : jsnum),
  let result := getLinesAndRatio splitInTwo mode name fullName pathLength in
  let generous :=
    Js.gt pathLength (Fin (Js.of_nat (String.length fullName) * 2)) in
  (mode = "short"%string -> RatioWithin 50 150 (snd result)) /\
  (mode <> "short"%string -> generous = true ->
   RatioWithin 70 170 (snd result)) /\
  (mode <> "short"%string -> generous = false ->
   RatioWithin 70 150 (snd result)) /\
  RatioWithin 50 170 (snd result) /\
  (snd result = NaN ->
   pathLength = NaN \/ exists q, pathLength = Fin q /\ q == 0).
Proof.
  intros splitInTwo mode name fullName pathLength result generous.
  assert (Hwiden : forall lo hi v,
             50 <= lo -> hi <= 170 -> RatioWithin lo hi v ->
             RatioWithin 50 170 v).
  { intros lo hi [r| | |] H1 H2; simpl; auto.
    intros [Hr Hz]. split; [lra | exact Hz]. }
  assert (Hnan : forall n c lo hi, 0 < c -> (lo <= hi)%Z ->
             minmax (rn (Js.mul (Js.div pathLength (Fin (Js.of_nat n)))
                                (Fin c)))
                    (inject_Z lo) (inject_Z hi) = NaN ->
             pathLength = NaN \/ exists q, pathLength = Fin q /\ q == 0).
  { intros n c lo hi Hc Hlh H.
    apply (proj1 (proj2 (minmax_rn_within _ lo hi Hlh))) in H.
    apply (proj1 (scaled_quotient_nan pathLength n c Hc)) in H.
    destruct H as [H|(_ & H)]; auto. }
  assert (Hshort : mode = "short"%string ->
            RatioWithin 50 150 (snd result) /\
            (snd result = NaN ->
             pathLength = NaN \/ exists q, pathLength = Fin q /\ q == 0)).
  { intro Hm. unfold result. rewrite getLinesAndRatio_short by exact Hm.
    split.
    - apply (minmax_rn_within _ 50 150). lia.
    - apply (Hnan _ 60 50%Z 150%Z); [reflexivity | lia]. }
  assert (Hone : mode <> "short"%string -> generous = true ->
            RatioWithin 70 170 (snd result) /\
            (snd result = NaN ->
             pathLength = NaN \/ exists q, pathLength = Fin q /\ q == 0)).
  { intros Hm G. unfold result.
    rewrite getLinesAndRatio_generous by assumption. split.
    - apply (minmax_rn_within _ 70 170). lia.
    - apply (Hnan _ 70 70%Z 170%Z); [reflexivity | lia]. }
  assert (Htwo : mode <> "short"%string -> generous = false ->
            RatioWithin 70 150 (snd result) /\
            (snd result = NaN ->
             pathLength = NaN \/ exists q, pathLength = Fin q /\ q == 0)).
  { intros Hm G. unfold result.
    rewrite getLinesAndRatio_tight by assumption. split.
    - apply (minmax_rn_within _ 70 150). lia.
    - apply (Hnan _ 60 70%Z 150%Z); [reflexivity | lia]. }
  split; [intro Hm; now apply Hshort|].
  split; [intros Hm G; now apply Hone|].
  split; [intros Hm G; now apply Htwo|].
  destruct (String.eqb mode "short") eqn:Em.
  - apply String.eqb_eq in Em. destruct (Hshort Em) as [H1 H2].
    split; [|exact H2]. apply (Hwiden 50 150); [lra | lra | exact H1].
  - apply String.eqb_neq in Em. destruct generous eqn:G.
    + destruct (Hone Em eq_refl) as [H1 H2].
      split; [|exact H2]. apply (Hwiden 70 170); [lra | lra | exact H1].
    + destruct (Htwo Em eq_refl) as [H1 H2].
      split; [|exact H2]. apply (Hwiden 70 150); [lra | lra | exact H1].
Qed.

Example getLinesAndRatio_nan :
  getLinesAndRatio Demo.splitInTwo "short" "" "Kingdom of Rus" (Fin 0)
  = ([""%string], NaN).
Proof. reflexivity. Qed.

Lemma of_nat_positive (n : nat) : (0 < n)%nat -> 0 < Js.of_nat n.
Proof.
  intro H. unfold Js.of_nat. change 0 with (inject_Z 0).
  rewrite <- Zlt_Qlt. lia.
Qed.

(** The clamped, rounded, scaled quotient grows with the path length. *)
Lemma clamp_round_monotone (n : nat) (c lo hi p p' : Q) :
  (0 < n)%nat -> 0 < c -> p <= p' ->
  RatioLe (minmax (rn (Js.mul (Js.div (Fin p) (Fin (Js.of_nat n))) (Fin c)))
                  lo hi)
          (minmax (rn (Js.mul (Js.div (Fin p') (Fin (Js.of_nat n))) (Fin c)))
                  lo hi).
Proof.
  intros Hn Hc Hp. pose proof (of_nat_positive n Hn) as Hpos.
  assert (E : Qeq_bool (Js.of_nat n) 0 = false)
    by (apply Qeq_bool_false_iff; lra).
  unfold Js.div. rewrite E. unfold Js.mul, rn, minmax, RatioLe.
  apply Q.min_le_compat_r, Q.max_le_compat_r.
  rewrite <- Zle_Qle. apply Qfloor_resp_le.
  assert (H : p / Js.of_nat n <= p' / Js.of_nat n).
  { apply Qmult_le_compat_r; [exact Hp|].
    apply Qlt_le_weak, Qinv_lt_0_compat, Hpos. }
  nra.
Qed.

(** X13.  Within each policy of the fitter the font-size ratio never
    shrinks when the path gets longer: for finite path lengths [p <= p']
    and a text that is not empty, the ratio at [p] is at most the ratio at
    [p'], in the short one-line, the full one-line and the two-line
    policy. *)
Theorem fitter_ratio_monotone :
  forall (splitInTwo : string -> list string) (name fullName : string)
         (p p' : Q),
  p <= p' ->
  ((0 < String.length name)%nat ->
   RatioLe (snd (getShortOneLine name (Fin p)))
           (snd (getShortOneLine name (Fin p')))) /\
  ((0 < String.length fullName)%nat ->
   RatioLe (snd (getFullOneLine fullName (Fin p)))
           (snd (getFullOneLine fullName (Fin p')))) /\
  ((0 < longestLine (splitInTwo fullName))%nat ->
   RatioLe (snd (getFullTwoLines splitInTwo fullName (Fin p)))
           (snd (getFullTwoLines splitInTwo fullName (Fin p')))).
Proof.
  intros splitInTwo name fullName p p' Hp.
  split; [|split]; intro Hn.
  - unfold getShortOneLine. cbv zeta. cbn [snd].
    apply clamp_round_monotone; [exact Hn | reflexivity | exact Hp].
  - unfold getFullOneLine. cbv zeta. cbn [snd].
    apply clamp_round_monotone; [exact Hn | reflexivity | exact Hp].
  - unfold getFullTwoLines. cbv zeta. cbn [snd].
    apply clamp_round_monotone; [exact Hn | reflexivity | exact Hp].
Qed.

Lemma fitter_ratio_monotone_witness :
  RatioLe (snd (getShortOneLine "Rus" (Fin 3)))
          (snd (getShortOneLine "Rus" (Fin 6))).
Proof.
  destruct (fitter_ratio_monotone Demo.splitInTwo "Rus" "Kingdom of Rus" 3 6)
    as [H _].
  - apply Qle_bool_iff. reflexivity.
  - apply H. simpl. lia.
Defined.

(** Across the policies the ratio can drop: a name of 14 letters split
    into two lines of 7 gets 150 on a path of length 28 and 145, on one
    line, on a path of length 29. *)
Example ratio_drops_between_policies :
  snd (getLinesAndRatio (fun _ => ["Kingdom"; "of Rus!"]%string) "auto" "Rus"
                        "Kingdom of Rus" (Fin 28)) = Fin 150 /\
  snd (getLinesAndRatio (fun _ => ["Kingdom"; "of Rus!"]%string) "auto" "Rus"
                        "Kingdom of Rus" (Fin 29)) = Fin 145.
Proof. split; reflexivity. Qed.

(** ** Refinement, label by label *)

Lemma prolongate_some (pathPoints : PathPoints) (factor : Q) :
  (1 <= List.length pathPoints)%nat ->
  exists stretched : PathPoints,
    prolongate pathPoints factor = Some stretched /\
    List.length stretched = List.length pathPoints.
Proof.
  intro Hlen. unfold prolongate, atLast.
  destruct (nth_error pathPoints 0) as [[x1 y1]|] eqn:E1.
  2:{ apply nth_error_None in E1. lia. }
  destruct (nth_error pathPoints (List.length pathPoints - 1))
    as [[x2 y2]|] eqn:E2.
  2:{ apply nth_error_None in E2. lia. }
  unfold bind. cbv beta iota zeta. eexists. split; [reflexivity|].
  now rewrite !assignAt_length.
Qed.

Lemma stretchedPath_some (pathPoints : PathPoints) (pathLength : jsnum)
    (longestLineLength : nat) :
  (1 <= List.length pathPoints)%nat ->
  exists stretched : PathPoints,
    stretchedPath pathPoints pathLength longestLineLength = Some stretched /\
    List.length stretched = List.length pathPoints.
Proof.
  intro Hlen. unfold stretchedPath.
  destruct (Js.truthy pathLength
            && Js.lt pathLength (Fin (Js.of_nat longestLineLength))) eqn:E.
  - destruct (stretch_factor_finite _ _ E) as [factor ->].
    now apply prolongate_some.
  - exists pathPoints. auto.
Qed.

Lemma concat_single (sep line : string) : String.concat sep [line] = line.
Proof. reflexivity. Qed.

Section RefineFacts.

Variable findClosestCell : Q -> Q -> nat.
Variable cellStateIds : list nat.
Variable states : list State.
Variable radians : Type.
Variable Math_sin Math_cos : radians -> Q.
Variable Math_atan2 : Q -> Q -> radians.
Variable stateLabelsMode : string.
Variable letterLength : Q.
Variable getTotalLength : PathPoints -> Q.
Variable textBBox : list string -> jsnum -> BBox.
Variable placedBBox : PathPoints -> list string -> jsnum -> BBox.
Variable splitInTwo : string -> list string.

#[local] Abbreviation refine :=
  (refineLabel findClosestCell cellStateIds states radians Math_sin Math_cos
     Math_atan2 stateLabelsMode letterLength getTotalLength textBBox
     placedBBox splitInTwo).
#[local] Abbreviation refineAll :=
  (renderAndRefineLabels findClosestCell cellStateIds states radians Math_sin
     Math_cos Math_atan2 stateLabelsMode letterLength getTotalLength textBBox
     placedBBox splitInTwo).

(** What the loop body does to a label whose state is in the table. *)
Lemma refineLabel_cases (label : StateLabel) (state : State) :
  nth_error states (sl_stateId label) = Some state ->
  (refinable states label = false /\ refine label = Some None) \/
  (refinable states label = true /\
   exists (finalName : string) (finalRatio : jsnum) (pathPoints : PathPoints),
     refine label
     = Some (Some (mkStateLabel (sl_i label) finalName (sl_stateId label)
                                pathPoints (sl_startOffset label) finalRatio
                                (sl_letterSpacing label)
                                (sl_transform label))) /\
     List.length pathPoints = List.length (sl_points label) /\
     (finalName = st_name state \/ finalName = st_fullName state
      \/ finalName = String.concat "|" (splitInTwo (st_fullName state))) /\
     RatioWithin 50 170 finalRatio).
Proof.
  intro Hst. unfold refinable, refineLabel. rewrite Hst. cbn [bind].
  cbv zeta.
  destruct (Nat.eqb (st_i state) 0 || st_removed state); [left; auto|].
  destruct (List.length (sl_points label) <? 2)%nat eqn:Hlen; [left; auto|].
  right. split; [reflexivity|].
  apply Nat.ltb_ge in Hlen.
  set (pathLength := Js.div (Fin (getTotalLength (sl_points label)))
                            (Fin letterLength)).
  set (mode := labelMode stateLabelsMode).
  pose proof (getLinesAndRatio_clamped splitInTwo mode (st_name state)
                (st_fullName state) pathLength) as Hratio.
  assert (Hlines :
            fst (getLinesAndRatio splitInTwo mode (st_name state)
                                  (st_fullName state) pathLength)
              = [st_name state] \/
            fst (getLinesAndRatio splitInTwo mode (st_name state)
                                  (st_fullName state) pathLength)
              = [st_fullName state] \/
            fst (getLinesAndRatio splitInTwo mode (st_name state)
                                  (st_fullName state) pathLength)
              = splitInTwo (st_fullName state)).
  { unfold getLinesAndRatio.
    destruct (String.eqb mode "short"); [left; reflexivity|].
    destruct (Js.gt pathLength _); [right; left | right; right]; reflexivity. }
  destruct (getLinesAndRatio splitInTwo mode (st_name state)
                             (st_fullName state) pathLength)
    as [lines ratio] eqn:Eg.
  cbn [fst snd] in Hratio, Hlines.
  destruct (stretchedPath_some (sl_points label) pathLength
              (longestLine lines) ltac:(lia)) as (stretched & Hs & Hsl).
  rewrite Hs. cbn [bind].
  assert (Hjoin : String.concat "|" lines = st_name state \/
                  String.concat "|" lines = st_fullName state \/
                  String.concat "|" lines
                  = String.concat "|" (splitInTwo (st_fullName state))).
  { destruct Hlines as [ -> | [ -> | -> ] ]; auto. }
  assert (Hfall : RatioWithin 50 170
                     (snd (fallbackLayout state pathLength))).
  { unfold fallbackLayout. cbv zeta. cbn [snd].
    pose proof (minmax_rn_within
                  (Js.mul (Js.div pathLength
                     (Fin (Js.of_nat (String.length
                        (if Js.gt pathLength
                              (Fin (Js.of_nat (String.length (st_fullName state))
                                    * 1.8))
                         then st_fullName state else st_name state)))))
                     (Fin 50)) 50 130 ltac:(lia)) as [Hw _].
    change (inject_Z 50) with 50 in Hw. change (inject_Z 130) with 130 in Hw.
    destruct (minmax _ 50 130) as [r| | |]; simpl in *; auto.
    destruct Hw as [Hr Hz]. split; [lra | exact Hz]. }
  assert (Hfname : fst (fallbackLayout state pathLength) = st_name state \/
                   fst (fallbackLayout state pathLength) = st_fullName state).
  { unfold fallbackLayout. cbv zeta. cbn [fst].
    destruct (Js.gt pathLength _); auto. }
  destruct (nth_error stretched 0) as [p1|] eqn:E1.
  2:{ apply nth_error_None in E1. lia. }
  destruct (atLast stretched) as [p2|] eqn:E2.
  2:{ unfold atLast in E2. apply nth_error_None in E2. lia. }
  unfold finalLayout.
  destruct (negb (String.eqb mode "full") && (1 <? List.length lines)%nat).
  - unfold bind.
    destruct (negb (checkIfLabelFitsState _ _ _ _ _ _ _ _ _ _)).
    + destruct (fallbackLayout state pathLength) as [text r] eqn:Ef.
      cbn [fst snd] in *.
      exists text, r, stretched. split; [reflexivity|].
      split; [exact Hsl|]. split; [tauto | exact Hfall].
    + exists (String.concat "|" lines), ratio, stretched.
      split; [reflexivity|]. split; [exact Hsl|]. split; assumption.
  - unfold bind.
    exists (String.concat "|" lines), ratio, stretched.
    split; [reflexivity|]. split; [exact Hsl|]. split; assumption.
Qed.

(** The loop body throws only for a label whose state is not in the
    table. *)
Lemma refineLabel_none (label : StateLabel) :
  refine label = None <-> nth_error states (sl_stateId label) = None.
Proof.
  split; intro H.
  - destruct (nth_error states (sl_stateId label)) as [state|] eqn:E;
      [|reflexivity].
    destruct (refineLabel_cases label state E)
      as [[_ Hr]|(_ & n & r & p & Hr & _)]; rewrite Hr in H; discriminate.
  - unfold refineLabel. now rewrite H.
Qed.

(** The loop of the refiner is a [map] of its body, cut short by the first
    exception. *)
Lemma renderAndRefineLabels_mapM (labels : list StateLabel) :
  forall refinedLabels : list StateLabel,
    refineAll labels refinedLabels
    = match mapM refine labels with
      | Some results => Some (refinedLabels ++ pushed results)
      | None => None
      end.
Proof.
  induction labels as [|label rest IH]; intro acc.
  - simpl. now rewrite app_nil_r.
  - simpl. unfold bind. destruct (refine label) as [[r|]|]; [| |reflexivity].
    + rewrite IH. destruct (mapM refine rest); [|reflexivity].
      simpl. now rewrite <- app_assoc.
    + rewrite IH. destruct (mapM refine rest); reflexivity.
Qed.

End RefineFacts.

(** X14.  A label that [renderAndRefineLabels] pushes keeps the id, the
    state, the start offset, the letter spacing, the transform and the
    number of path points of the generated label; its name is the short
    name of the state, its full name, or the two lines of the full name
    joined by a bar; and its font size is a whole number from 50 to 170,
    or NaN. *)
Theorem refined_label_content :
  forall (findClosestCell : Q -> Q -> nat) (cellStateIds : list nat)
         (states : list State) (radians : Type)
         (Math_sin Math_cos : radians -> Q) (Math_atan2 : Q -> Q -> radians)
         (stateLabelsMode : string) (letterLength : Q)
         (getTotalLength : PathPoints -> Q)
         (textBBox : list string -> jsnum -> BBox)
         (placedBBox : PathPoints -> list string -> jsnum -> BBox)
         (splitInTwo : string -> list string)
         (label refined : StateLabel),
  refineLabel findClosestCell cellStateIds states radians Math_sin Math_cos
              Math_atan2 stateLabelsMode letterLength getTotalLength textBBox
              placedBBox splitInTwo label = Some (Some refined) ->
  exists state : State,
    nth_error states (sl_stateId label) = Some state /\
    st_i state <> 0%nat /\ st_removed state = false /\
    sl_i refined = sl_i label /\
    sl_stateId refined = sl_stateId label /\
    sl_startOffset refined = sl_startOffset label /\
    sl_letterSpacing refined = sl_letterSpacing label /\
    sl_transform refined = sl_transform label /\
    List.length (sl_points refined) = List.length (sl_points label) /\
    (sl_name refined = st_name state \/
     sl_name refined = st_fullName state \/
     sl_name refined = String.concat "|" (splitInTwo (st_fullName state))) /\
    RatioWithin 50 170 (sl_fontSize refined).
Proof.
  intros until refined. intro H.
  destruct (nth_error states (sl_stateId label)) as [state|] eqn:E.
  2:{ unfold refineLabel in H. rewrite E in H. discriminate. }
  exists state. split; [reflexivity|].
  destruct (refineLabel_cases findClosestCell cellStateIds states radians
              Math_sin Math_cos Math_atan2 stateLabelsMode letterLength
              getTotalLength textBBox placedBBox splitInTwo label state E)
    as [[_ Hr]|(Hlive & n & r & p & Hr & Hp & Hn & Hw)];
    rewrite Hr in H; [discriminate|].
  injection H as <-. simpl.
  unfold refinable in Hlive. rewrite E in Hlive.
  apply andb_true_iff in Hlive. destruct Hlive as [Hlive _].
  apply negb_true_iff, orb_false_iff in Hlive. destruct Hlive as [Hi Hrem].
  apply Nat.eqb_neq in Hi. repeat split; assumption.
Qed.

Lemma refined_label_content_witness :
  exists state : State,
    nth_error Demo.states 1 = Some state /\
    RatioWithin 50 170 (Fin 170).
Proof.
  destruct (refined_label_content OneState.findClosestCell
              OneState.cellStateIds Demo.states Q Demo.Math_sin Demo.Math_cos
              Demo.Math_atan2 "auto" 10 Demo.getTotalLength Demo.textBBox
              Demo.placedBBox Demo.splitInTwo
              (mkStateLabel "stateLabel1" "Rus" 1
                 [(205, 500); (500, 500); (795, 500)] 50 (Fin 100) 0 "")
              (mkStateLabel "stateLabel1" "Kingdom of Rus" 1
                 [(205, 500); (500, 500); (795, 500)] 50 (Fin 170) 0 ""))
    as (state & H1 & _ & _ & _ & _ & _ & _ & _ & _ & _ & H2).
  - vm_compute. reflexivity.
  - exists state. split; [exact H1 | exact H2].
Defined.

(** X15.  [renderAndRefineLabels] throws exactly when one of the labels
    names a state that is not in the table of states; otherwise it pushes,
    in order, one label for each label it was given whose state is neither
    neutral nor removed and whose path has two points at least, and it
    drops the others. *)
Theorem renderAndRefineLabels_outcome :
  forall (findClosestCell : Q -> Q -> nat) (cellStateIds : list nat)
         (states : list State) (radians : Type)
         (Math_sin Math_cos : radians -> Q) (Math_atan2 : Q -> Q -> radians)
         (stateLabelsMode : string) (letterLength : Q)
         (getTotalLength : PathPoints -> Q)
         (textBBox : list string -> jsnum -> BBox)
         (placedBBox : PathPoints -> list string -> jsnum -> BBox)
         (splitInTwo : string -> list string)
         (labels : list StateLabel),
  let run := renderAndRefineLabels findClosestCell cellStateIds states
               radians Math_sin Math_cos Math_atan2 stateLabelsMode
               letterLength getTotalLength textBBox placedBBox splitInTwo
               labels [] in
  (run = None <->
   exists label, In label labels /\
                 nth_error states (sl_stateId label) = None) /\
  (forall refined, run = Some refined ->
     map sl_i refined = map sl_i (filter (refinable states) labels) /\
     map sl_stateId refined
       = map sl_stateId (filter (refinable states) labels)).
Proof.
  intros. unfold run. rewrite renderAndRefineLabels_mapM.
  set (refine := refineLabel findClosestCell cellStateIds states radians
                   Math_sin Math_cos Math_atan2 stateLabelsMode letterLength
                   getTotalLength textBBox placedBBox splitInTwo).
  assert (Hcases : forall label,
             (refine label = None /\
              nth_error states (sl_stateId label) = None) \/
             (refine label = Some None /\ refinable states label = false) \/
             (exists r, refine label = Some (Some r) /\
                        refinable states label = true /\
                        sl_i r = sl_i label /\
                        sl_stateId r = sl_stateId label)).
  { intro label.
    destruct (nth_error states (sl_stateId label)) as [state|] eqn:E.
    - destruct (refineLabel_cases findClosestCell cellStateIds states radians
                  Math_sin Math_cos Math_atan2 stateLabelsMode letterLength
                  getTotalLength textBBox placedBBox splitInTwo label state E)
        as [[Hd Hr]|(Hl & n & r & p & Hr & _)].
      + right. left. auto.
      + right. right. eexists. split; [exact Hr|]. auto.
    - left. split; [|reflexivity]. unfold refine. apply refineLabel_none.
      exact E. }
  split.
  - destruct (mapM refine labels) as [results|] eqn:E.
    + split; [discriminate|]. intros (label & Hin & Hnone). exfalso.
      assert (Hn : mapM refine labels = None).
      { apply mapM_none_iff. exists label. split; [exact Hin|].
        unfold refine. now apply refineLabel_none. }
      congruence.
    + split; [|reflexivity]. intros _.
      apply mapM_none_iff in E. destruct E as (label & Hin & Hnone).
      exists label. split; [exact Hin|].
      unfold refine in Hnone. now apply refineLabel_none in Hnone.
  - intros refined H.
    destruct (mapM refine labels) as [results|] eqn:E; [|discriminate].
    simpl in H. injection H as <-. apply mapM_some_iff in E.
    clear run. induction E as [|label r rest rs Hr _ IH]; [split; reflexivity|].
    destruct IH as [I1 I2]. simpl.
    destruct (Hcases label) as [[Hn _]|[[Hn Hd]|(l & Hn & Hl & Hi & Hs)]];
      rewrite Hn in Hr; try discriminate; injection Hr as <-.
    + rewrite Hd. split; assumption.
    + rewrite Hl. simpl. rewrite Hi, Hs, I1, I2. split; reflexivity.
Qed.

Lemma renderAndRefineLabels_outcome_witness :
  map sl_i [mkStateLabel "stateLabel1" "Kingdom of Rus" 1
              [(205, 500); (500, 500); (795, 500)] 50 (Fin 170) 0 ""]
  = ["stateLabel1"%string].
Proof.
  destruct (renderAndRefineLabels_outcome OneState.findClosestCell
              OneState.cellStateIds Demo.states Q Demo.Math_sin Demo.Math_cos
              Demo.Math_atan2 "auto" 10 Demo.getTotalLength Demo.textBBox
              Demo.placedBBox Demo.splitInTwo
              [mkStateLabel "stateLabel1" "Rus" 1
                 [(205, 500); (500, 500); (795, 500)] 50 (Fin 100) 0 ""])
    as [_ H].
  destruct (H [mkStateLabel "stateLabel1" "Kingdom of Rus" 1
                 [(205, 500); (500, 500); (795, 500)] 50 (Fin 170) 0 ""])
    as [H1 _].
  - vm_compute. reflexivity.
  - exact H1.
Defined.

(** ** The store under [stateLabelsRenderer] *)

Lemma Forall2_forall_right {A B : Type} (R : A -> B -> Prop) (P : B -> Prop)
    (xs : list A) (ys : list B) :
  Forall2 R xs ys ->
  (forall x y, In x xs -> R x y -> P y) ->
  Forall P ys.
Proof.
  induction 1 as [|x y xs ys Hxy _ IH]; intro H; constructor.
  - apply (H x y); [now left | exact Hxy].
  - apply IH. intros a b Ha. apply H. now right.
Qed.

Section StoreFacts.

Variable graphWidth graphHeight : Q.
Variable findClosestCell : Q -> Q -> nat.
Variable cellStateIds : list nat.
Variable cells_f : list nat.
Variable features : list Feature.
Variable states : list State.
Variable radians : Type.
Variable toRadians : Q -> radians.
Variable Math_sin Math_cos : radians -> Q.
Variable Math_atan2 : Q -> Q -> radians.
Variable stateLabelsMode : string.
Variable letterLength : Q.
Variable getTotalLength : PathPoints -> Q.
Variable textBBox : list string -> jsnum -> BBox.
Variable placedBBox : PathPoints -> list string -> jsnum -> BBox.
Variable splitInTwo : string -> list string.

#[local] Abbreviation render :=
  (stateLabelsRenderer graphWidth graphHeight findClosestCell cellStateIds
     cells_f features states radians toRadians Math_sin Math_cos Math_atan2
     stateLabelsMode letterLength getTotalLength textBBox placedBBox
     splitInTwo).
#[local] Abbreviation fresh :=
  (regenerated graphWidth graphHeight findClosestCell cellStateIds cells_f
     features states radians toRadians Math_sin Math_cos Math_atan2
     stateLabelsMode letterLength getTotalLength textBBox placedBBox
     splitInTwo).

(** The renderer clears the store and appends what it regenerated. *)
Lemma stateLabelsRenderer_store (idList : option (list nat))
    (packLabels : option (list Label)) :
  render idList packLabels
  = let before := match packLabels with Some ls => ls | None => [] end in
    match fresh idList with
    | Some refined =>
        (clearStateLabels idList before ++ map StateL refined, true)
    | None => (clearStateLabels idList before, false)
    end.
Proof.
  unfold stateLabelsRenderer, regenerated, bind. cbv zeta.
  destruct (generateStateLabelsData _ _ _ _ _ _ _ _ _ _ _ idList);
    reflexivity.
Qed.

#[local] Abbreviation FromLabelled := (RegeneratedFor states).

Lemma regenerated_from_labelled (idList : option (list nat))
    (refined : list StateLabel) :
  fresh idList = Some refined -> Forall (FromLabelled idList) refined.
Proof.
  unfold regenerated, bind.
  destruct (generateStateLabelsData _ _ _ _ _ _ _ _ _ _ _ idList)
    as [generated|] eqn:Hg; [|discriminate].
  intro Hr.
  unfold generateStateLabelsData in Hg. rewrite generateLoop_mapM in Hg.
  destruct (mapM _ _) as [ls|] eqn:Em; [|discriminate].
  simpl in Hg. injection Hg as <-. apply mapM_some_iff in Em.
  assert (Hgen : Forall (FromLabelled idList) ls).
  { apply (Forall2_forall_right _ _ _ _ Em).
    intros state label Hin Hone. apply filter_In in Hin.
    destruct Hin as [Hin Hl].
    destruct (generateStateLabel_shape _ _ _ _ _ _ _ _ _ Hone)
      as (Hi & Hs & _).
    split; [now rewrite Hi, Hs|]. exists state. auto. }
  refine (renderAndRefineLabels_forall _ _ _ _ _ _ _ _ _ _ _ _ _ _ ls _ []
            refined (Forall_nil _) Hr).
  intros label r Hin Href.
  destruct (refineLabel_shape _ _ _ _ _ _ _ _ _ _ _ _ _ _ _ Href)
    as (Hi & Hs & _).
  rewrite Forall_forall in Hgen. destruct (Hgen _ Hin) as [Gi Gs].
  split; [now rewrite Hi, Hs|]. now rewrite Hs.
Qed.

(** What is regenerated is cleared by the next call. *)
Lemma clear_regenerated (idList : option (list nat)) (refined : list StateLabel) :
  Forall (FromLabelled idList) refined ->
  clearStateLabels idList (map StateL refined) = [].
Proof.
  intro H. unfold clearStateLabels. destruct idList as [ids|].
  - apply filter_none. apply Forall_map.
    eapply Forall_impl; [|exact H].
    intros r (Hi & state & _ & Hl & Hs). simpl.
    apply negb_false_iff, includesString_In, in_map_iff.
    exists (sl_stateId r). split; [now rewrite Hi|].
    unfold labelled in Hl. apply andb_true_iff in Hl.
    destruct Hl as [_ Hl]. apply includesNat_In in Hl. now rewrite <- Hs.
  - apply filter_none. apply Forall_map.
    apply Forall_forall. intros r _. reflexivity.
Qed.

Lemma clearStateLabels_idempotent (idList : option (list nat))
    (labels : list Label) :
  clearStateLabels idList (clearStateLabels idList labels)
  = clearStateLabels idList labels.
Proof.
  unfold clearStateLabels. destruct idList; apply filter_idempotent.
Qed.

Lemma clearStateLabels_app (idList : option (list nat)) (a b : list Label) :
  clearStateLabels idList (a ++ b)
  = clearStateLabels idList a ++ clearStateLabels idList b.
Proof.
  unfold clearStateLabels. destruct idList; apply filter_app.
Qed.

(** X16.  A full regeneration (no list given) touches the state labels
    only: the labels of type other than ["state"] are the same before and
    after, in the same order, so every burg label and every custom label
    stays; the state labels of the store afterwards are exactly the
    regenerated ones; and when the call throws, the store is left without
    any state label. *)
Theorem regeneration_of_all_frame : forall packLabels : option (list Label),
  let before := match packLabels with Some ls => ls | None => [] end in
  let after := fst (render None packLabels) in
  let other := fun l : Label => negb (String.eqb (label_type l) "state") in
  filter other after = filter other before /\
  (forall b, In (BurgL b) after <-> In (BurgL b) before) /\
  (forall c, In (CustomL c) after <-> In (CustomL c) before) /\
  (forall s, In (StateL s) after <->
             exists refined, fresh None = Some refined /\ In s refined) /\
  (snd (render None packLabels) = false ->
   forall s, ~ In (StateL s) after).
Proof.
  intros packLabels before after other.
  assert (Hafter : after = filter other before
                           ++ match fresh None with
                              | Some refined => map StateL refined
                              | None => []
                              end).
  { unfold after. rewrite stateLabelsRenderer_store. cbv zeta. fold before.
    destruct (fresh None); simpl; [reflexivity|now rewrite app_nil_r]. }
  assert (Hnew : forall refined l, In l (map StateL refined) ->
                                   other l = false).
  { intros refined l Hl. apply in_map_iff in Hl.
    destruct Hl as (s & <- & _). reflexivity. }
  assert (Hstate : forall s, ~ In (StateL s) (filter other before)).
  { intros s Hs. apply filter_In in Hs. destruct Hs as [_ Hs]. discriminate. }
  split; [|split; [|split; [|split]]].
  - rewrite Hafter, filter_app, filter_idempotent.
    rewrite (filter_none other
               match fresh None with
               | Some refined => map StateL refined
               | None => []
               end).
    + apply app_nil_r.
    + apply Forall_forall. intros l Hl.
      destruct (fresh None) as [refined|]; [|destruct Hl].
      exact (Hnew refined l Hl).
  - intro b. rewrite Hafter, in_app_iff, filter_In. split.
    + intros [[H _]|H]; [exact H|].
      destruct (fresh None) as [refined|]; [|destruct H].
      apply in_map_iff in H. destruct H as (s & Hs & _). discriminate.
    + intro H. left. split; [exact H|reflexivity].
  - intro c. rewrite Hafter, in_app_iff, filter_In. split.
    + intros [[H _]|H]; [exact H|].
      destruct (fresh None) as [refined|]; [|destruct H].
      apply in_map_iff in H. destruct H as (s & Hs & _). discriminate.
    + intro H. left. split; [exact H|reflexivity].
  - intro s. rewrite Hafter, in_app_iff. split.
    + intros [H|H]; [exfalso; exact (Hstate s H)|].
      destruct (fresh None) as [refined|]; [|destruct H].
      exists refined. split; [reflexivity|].
      apply in_map_iff in H. destruct H as (s' & Hs & Hin).
      injection Hs as <-. exact Hin.
    + intros (refined & Hf & Hin). right. rewrite Hf.
      apply in_map. exact Hin.
  - intros Hfail s Hs. rewrite stateLabelsRenderer_store in Hfail.
    cbv zeta in Hfail. rewrite Hafter in Hs.
    destruct (fresh None) as [refined|]; [discriminate Hfail|].
    rewrite app_nil_r in Hs. exact (Hstate s Hs).
Qed.

(** X17.  Regenerating twice in a row, with the same list and the same
    map, leaves the store as the first regeneration left it, and ends the
    same way. *)
Theorem regeneration_idempotent :
  forall (idList : option (list nat)) (packLabels : option (list Label)),
  render idList (Some (fst (render idList packLabels)))
  = render idList packLabels.
Proof.
  intros idList packLabels. rewrite !stateLabelsRenderer_store. cbv zeta.
  destruct (fresh idList) as [refined|] eqn:E; cbn [fst].
  - rewrite clearStateLabels_app, clearStateLabels_idempotent.
    rewrite (clear_regenerated idList refined
               (regenerated_from_labelled idList refined E)).
    now rewrite app_nil_r.
  - now rewrite clearStateLabels_idempotent.
Qed.

Lemma labelled_none_listed (state : State) : labelled (Some []) state = false.
Proof. unfold labelled. simpl. apply andb_false_r. Qed.

(** X18.  A regeneration for the empty list of states changes nothing:
    the store is the one before the call (the empty one if there was
    none) and the call ends normally. *)
Theorem regeneration_of_nothing : forall packLabels : option (list Label),
  render (Some []) packLabels
  = (match packLabels with Some ls => ls | None => [] end, true).
Proof.
  intro packLabels. rewrite stateLabelsRenderer_store. cbv zeta.
  assert (E : fresh (Some []) = Some []).
  { unfold regenerated, generateStateLabelsData.
    rewrite generateLoop_mapM.
    rewrite (filter_none (labelled (Some []))).
    - reflexivity.
    - apply Forall_forall. intros state _. apply labelled_none_listed. }
  rewrite E. simpl. rewrite app_nil_r. f_equal.
  induction (match packLabels with Some ls => ls | None => [] end)
    as [|l ls IH]; simpl; [reflexivity|now rewrite IH].
Qed.

(** X19.  A listed state that the generator does not label (every state of
    that number is the neutral state, removed or locked, or there is none)
    has no label in the store after the regeneration: its old label is
    cleared and none is made. *)
Theorem regeneration_drops_unlabelled :
  forall (ids : list nat) (packLabels : option (list Label)) (id : nat),
  In id ids ->
  (forall state, In state states -> st_i state = id ->
                 id = 0%nat \/ st_removed state = true
                 \/ st_lock state = true) ->
  forall l : Label,
    In l (fst (render (Some ids) packLabels)) ->
    label_i l <> stateLabelId id.
Proof.
  intros ids packLabels id Hid Hnone l Hin Heq.
  rewrite stateLabelsRenderer_store in Hin. cbv zeta in Hin.
  assert (Hclear : forall l', In l' (clearStateLabels (Some ids)
                     match packLabels with Some ls => ls | None => [] end) ->
                   label_i l' <> stateLabelId id).
  { intros l' Hl' E. unfold clearStateLabels in Hl'.
    apply filter_In in Hl'. destruct Hl' as [_ Hl'].
    apply negb_true_iff in Hl'.
    assert (Ht : includesString (map stateLabelId ids) (label_i l') = true).
    { apply includesString_In. rewrite E. now apply in_map. }
    congruence. }
  destruct (fresh (Some ids)) as [refined|] eqn:E; cbn [fst] in Hin.
  - apply in_app_or in Hin. destruct Hin as [Hin|Hin].
    + exact (Hclear l Hin Heq).
    + apply in_map_iff in Hin. destruct Hin as (r & <- & Hr).
      pose proof (regenerated_from_labelled (Some ids) refined E) as Hall.
      rewrite Forall_forall in Hall.
      destruct (Hall r Hr) as (Hi & state & Hs & Hl & Hst).
      simpl in Heq. rewrite Hi in Heq.
      apply stateLabelId_injective in Heq.
      assert (Hsi : st_i state = id) by congruence.
      unfold labelled in Hl. apply andb_true_iff in Hl.
      destruct Hl as [Hl _]. apply negb_true_iff in Hl.
      apply orb_false_iff in Hl. destruct Hl as [Hl Hlock].
      apply orb_false_iff in Hl. destruct Hl as [Hzero Hrem].
      apply Nat.eqb_neq in Hzero.
      destruct (Hnone state Hs Hsi) as [H0|[H0|H0]]; congruence.
  - exact (Hclear l Hin Heq).
Qed.

Hypothesis features_total : forall x y : Q,
  0 <= x <= graphWidth -> 0 <= y <= graphHeight ->
  featureOfCell cells_f features (findClosestCell x y) <> None.

Lemma isInsideState_total (stateId : nat) (maxLakeSize x y : Q) :
  isInsideState graphWidth graphHeight findClosestCell cellStateIds cells_f
                features stateId maxLakeSize x y <> None.
Proof.
  unfold isInsideState.
  destruct (Qlt_bool x 0 || Qlt_bool graphWidth x
            || Qlt_bool y 0 || Qlt_bool graphHeight y) eqn:E;
    [discriminate|].
  apply orb_false_iff in E. destruct E as [E Hy2].
  apply orb_false_iff in E. destruct E as [E Hy1].
  apply orb_false_iff in E. destruct E as [Hx1 Hx2].
  apply Qlt_bool_false_iff in Hx1, Hx2, Hy1, Hy2.
  assert (Hf := features_total x y (conj Hx1 Hx2) (conj Hy1 Hy2)).
  unfold bind.
  destruct (featureOfCell cells_f features (findClosestCell x y));
    [|congruence].
  destruct (String.eqb _ _); discriminate.
Qed.

Lemma raycast_total (stateId : nat) (x0 y0 dx dy maxLakeSize offset : Q) :
  raycast graphWidth graphHeight findClosestCell cellStateIds cells_f
          features stateId x0 y0 dx dy maxLakeSize offset <> None.
Proof.
  unfold raycast. rewrite raycast_candidates. intro H.
  apply (proj1 (castAlong_thrown _ _ _ _ _ _ _ _ _ _ _ _ _ _ _ _)) in H.
  destruct H as (m & _ & _ & H). unfold inState, andM in H.
  repeat match type of H with
         | context [isInsideState ?a ?b ?c ?d ?e ?f ?g ?h ?x ?y] =>
             let E := fresh "E" in
             destruct (isInsideState a b c d e f g h x y) as [[|]|] eqn:E;
             [| |exact (isInsideState_total _ _ _ _ E)]
         end; discriminate.
Qed.

Lemma castRays_total (angles : list AngleData) (state : State) :
  castRays graphWidth graphHeight findClosestCell cellStateIds cells_f
           features angles state <> None.
Proof.
  unfold castRays. destruct (st_pole state) as [x0 y0]. intro H.
  apply mapM_none_iff in H. destruct H as (a & _ & H). unfold bind in H.
  destruct (raycast _ _ _ _ _ _ _ _ _ _ _ _ _) eqn:E; [discriminate|].
  exact (raycast_total _ _ _ _ _ _ _ E).
Qed.

(** X20.  On a map where every point of the canvas has a cell with a
    feature, and where the number of every state that gets a label is a
    position of the table of states, the renderer never throws: it ends
    normally whatever the list and the store. *)
Theorem regeneration_completes :
  forall (idList : option (list nat)) (packLabels : option (list Label)),
  (forall state, In state states -> labelled idList state = true ->
                 (st_i state < List.length states)%nat) ->
  snd (render idList packLabels) = true.
Proof.
  intros idList packLabels Hstates.
  rewrite stateLabelsRenderer_store. cbv zeta.
  destruct (fresh idList) as [refined|] eqn:E; [reflexivity|exfalso].
  unfold regenerated, bind in E.
  destruct (generateStateLabelsData _ _ _ _ _ _ _ _ _ _ _ idList)
    as [generated|] eqn:Hg.
  - unfold generateStateLabelsData in Hg. rewrite generateLoop_mapM in Hg.
    destruct (mapM _ _) as [ls|] eqn:Em; [|discriminate].
    simpl in Hg. injection Hg as <-. apply mapM_some_iff in Em.
    rewrite renderAndRefineLabels_mapM in E.
    destruct (mapM _ ls) as [results|] eqn:Er; [discriminate|].
    apply mapM_none_iff in Er. destruct Er as (label & Hin & Hnone).
    apply refineLabel_none in Hnone.
    assert (Hgen : Forall (fun label : StateLabel =>
                             (sl_stateId label < List.length states)%nat) ls).
    { apply (Forall2_forall_right _ _ _ _ Em).
      intros state l Hs Hone. apply filter_In in Hs.
      destruct Hs as [Hs Hl].
      destruct (generateStateLabel_shape _ _ _ _ _ _ _ _ _ Hone)
        as (_ & -> & _).
      exact (Hstates state Hs Hl). }
    rewrite Forall_forall in Hgen. specialize (Hgen label Hin).
    apply nth_error_None in Hnone. lia.
  - unfold generateStateLabelsData in Hg. rewrite generateLoop_mapM in Hg.
    destruct (mapM _ _) as [ls|] eqn:Em; [discriminate|].
    apply mapM_none_iff in Em. destruct Em as (state & _ & Hnone).
    apply generateStateLabel_none in Hnone.
    + exact (castRays_total _ _ Hnone).
    + rewrite precalculateAngles_forty. lia.
Qed.

End StoreFacts.

Lemma regeneration_completes_witness :
  snd (Demo.run None (Some [Demo.kiev; Demo.oldRus])) = true.
Proof.
  apply (regeneration_completes OneState.graphWidth
           OneState.graphHeight OneState.findClosestCell
           OneState.cellStateIds OneState.cells_f OneState.features
           Demo.states Q Demo.toRadians Demo.Math_sin Demo.Math_cos
           Demo.Math_atan2 "auto" 10 Demo.getTotalLength Demo.textBBox
           Demo.placedBBox Demo.splitInTwo).
  - intros x y _ _. discriminate.
  - intros state [<-|[<-|[]]] _; simpl; lia.
Defined.

Lemma regeneration_drops_unlabelled_witness :
  label_i Demo.kiev <> stateLabelId 1.
Proof.
  apply (regeneration_drops_unlabelled OneState.graphWidth
           OneState.graphHeight OneState.findClosestCell
           OneState.cellStateIds OneState.cells_f OneState.features
           Locked.states Q Demo.toRadians Demo.Math_sin Demo.Math_cos
           Demo.Math_atan2 "auto" 10 Demo.getTotalLength Demo.textBBox
           Demo.placedBBox Demo.splitInTwo
           [1%nat] (Some [Demo.kiev; Demo.oldRus]) 1%nat).
  - left. reflexivity.
  - intros state [<-|[<-|[]]] Hi.
    + discriminate Hi.
    + right. right. reflexivity.
  - vm_compute. left. reflexivity.
Defined.

(** With the state locked, the regeneration of its label only removes
    it. *)
Example Locked_regeneration_removes :
  Locked.run (Some [1%nat]) (Some [Demo.kiev; Demo.oldRus])
  = ([Demo.kiev], true).
Proof. vm_compute. reflexivity. Qed.

(** ** Burg labels *)

Lemma push_all {A B : Type} (f : A -> B) (xs : list A) : forall acc : list B,
  fold_left (fun labels a => labels ++ [f a]) xs acc = acc ++ map f xs.
Proof.
  induction xs as [|a rest IH]; intro acc; simpl.
  - now rewrite app_nil_r.
  - rewrite IH, <- app_assoc. reflexivity.
Qed.

(** The two loops of [generateBurgLabelsData] list, group after group in
    the order of the options, the labels of the burgs of the group in the
    order of [pack.burgs]. *)
Lemma generateBurgLabelsData_flat (burgGroups : list BurgGroup) (burgs : list Burg) :
  generateBurgLabelsData burgGroups burgs
  = flat_map (fun group =>
                map (burgLabelOf (bg_name group))
                    (filter (inGroup (bg_name group)) burgs))
             burgGroups.
Proof.
  unfold generateBurgLabelsData.
  enough (H : forall acc,
             fold_left
               (fun labels group =>
                  let name := bg_name group in
                  let burgsInGroup := filter (inGroup name) burgs in
                  fold_left (fun labels burg => labels ++ [burgLabelOf name burg])
                            burgsInGroup labels)
               burgGroups acc
             = acc ++ flat_map (fun group =>
                                  map (burgLabelOf (bg_name group))
                                      (filter (inGroup (bg_name group)) burgs))
                               burgGroups)
    by exact (H []).
  induction burgGroups as [|group rest IH]; intro acc; simpl.
  - now rewrite app_nil_r.
  - rewrite push_all, IH, <- app_assoc. reflexivity.
Qed.

Lemma inGroup_true (name : string) (b : Burg) :
  inGroup name b = true <-> b_group b = Some name /\ b_removed b = false.
Proof.
  unfold inGroup. rewrite andb_true_iff, negb_true_iff.
  destruct (b_group b) as [group|].
  - rewrite String.eqb_eq. split; intros [H1 H2]; split; congruence.
  - split; intros [H1 H2]; discriminate.
Qed.

Lemma burgLabelId_injective (a b : nat) :
  burgLabelId a = burgLabelId b -> a = b.
Proof.
  unfold burgLabelId. intro H. apply append_cancel_l in H.
  assert (E : Nat.to_uint a = Nat.to_uint b).
  { pose proof (NilEmpty.usu (Nat.to_uint a)) as Ha.
    pose proof (NilEmpty.usu (Nat.to_uint b)) as Hb.
    rewrite H in Ha. congruence. }
  apply (f_equal Nat.of_uint) in E.
  now rewrite !Unsigned.of_to in E.
Qed.

Lemma generated_burg_label (burgGroups : list BurgGroup) (burgs : list Burg)
    (label : BurgLabel) :
  In label (generateBurgLabelsData burgGroups burgs) <->
  exists group burg,
    In group burgGroups /\ In burg burgs /\
    b_group burg = Some (bg_name group) /\ b_removed burg = false /\
    label = burgLabelOf (bg_name group) burg.
Proof.
  rewrite generateBurgLabelsData_flat, in_flat_map. split.
  - intros (group & Hg & Hl). apply in_map_iff in Hl.
    destruct Hl as (burg & <- & Hb). apply filter_In in Hb.
    destruct Hb as [Hb Hin]. apply inGroup_true in Hin.
    exists group, burg. tauto.
  - intros (group & burg & Hg & Hb & Hgr & Hrem & ->).
    exists group. split; [exact Hg|]. apply in_map, filter_In.
    split; [exact Hb|]. now apply inGroup_true.
Qed.

(** X21.  The labels that [generateBurgLabelsData] returns are those of
    the burgs that are not removed and whose group is one of the groups of
    the options, and no others: each label carries the id [burgLabel<i>],
    the name and the number of its burg and the name of its group. *)
Theorem generateBurgLabelsData_labels :
  forall (burgGroups : list BurgGroup) (burgs : list Burg),
  let labels := generateBurgLabelsData burgGroups burgs in
  (forall label, In label labels <->
     exists group burg,
       In group burgGroups /\ In burg burgs /\
       b_group burg = Some (bg_name group) /\ b_removed burg = false /\
       label = burgLabelOf (bg_name group) burg) /\
  (forall label, In label labels ->
     bl_i label = burgLabelId (bl_burgId label) /\
     exists burg, In burg burgs /\ b_i burg = bl_burgId label /\
                  b_name burg = bl_name label /\
                  b_group burg = Some (bl_group label) /\
                  b_removed burg = false).
Proof.
  intros burgGroups burgs labels.
  split.
  - intro label. apply generated_burg_label.
  - intros label Hl. apply generated_burg_label in Hl.
    destruct Hl as (group & burg & Hg & Hb & Hgr & Hrem & ->). simpl.
    split; [reflexivity|]. exists burg. auto.
Qed.

Lemma NoDup_map_filter {A B : Type} (f : A -> B) (p : A -> bool) (xs : list A) :
  NoDup (map f xs) -> NoDup (map f (filter p xs)).
Proof.
  induction xs as [|a rest IH]; simpl; intro H; [constructor|].
  inversion H as [|? ? Hnot Hrest]; subst.
  destruct (p a); simpl; [|now apply IH].
  constructor; [|now apply IH].
  intro Hin. apply Hnot. apply in_map_iff in Hin.
  destruct Hin as (b & <- & Hb). apply in_map. apply filter_In in Hb. tauto.
Qed.

Lemma NoDup_map_injective {A B : Type} (f : A -> B) (xs : list A) :
  (forall a b, f a = f b -> a = b) -> NoDup xs -> NoDup (map f xs).
Proof.
  intros Hinj H. induction H as [|a rest Hnot _ IH]; simpl; constructor;
    [|exact IH].
  intro Hin. apply in_map_iff in Hin. destruct Hin as (b & Hb & Hin).
  apply Hinj in Hb. now subst.
Qed.

Lemma NoDup_map_In_eq {A B : Type} (f : A -> B) (xs : list A) (a b : A) :
  NoDup (map f xs) -> In a xs -> In b xs -> f a = f b -> a = b.
Proof.
  induction xs as [|c rest IH]; simpl; intros H Ha Hb E; [destruct Ha|].
  inversion H as [|? ? Hnot Hrest]; subst.
  destruct Ha as [->|Ha], Hb as [->|Hb].
  - reflexivity.
  - exfalso. apply Hnot. rewrite E. now apply in_map.
  - exfalso. apply Hnot. rewrite <- E. now apply in_map.
  - now apply IH.
Qed.

Lemma NoDup_app_intro {A : Type} (xs ys : list A) :
  NoDup xs -> NoDup ys -> (forall a, In a xs -> ~ In a ys) -> NoDup (xs ++ ys).
Proof.
  intros Hx Hy Hd. induction Hx as [|a rest Hnot _ IH]; simpl; [exact Hy|].
  constructor.
  - intro Hin. apply in_app_or in Hin. destruct Hin as [Hin|Hin].
    + exact (Hnot Hin).
    + exact (Hd a (or_introl eq_refl) Hin).
  - apply IH. intros b Hb. apply Hd. now right.
Qed.

Lemma generated_burg_numbers_distinct (burgGroups : list BurgGroup) (burgs : list Burg) :
  NoDup (map bg_name burgGroups) ->
  NoDup (map b_i burgs) ->
  NoDup (map bl_burgId (generateBurgLabelsData burgGroups burgs)).
Proof.
  intros Hgroups Hburgs. rewrite generateBurgLabelsData_flat.
  induction burgGroups as [|group rest IH]; simpl; [constructor|].
  inversion Hgroups as [|? ? Hnot Hrest]; subst.
  rewrite map_app. apply NoDup_app_intro.
  - rewrite map_map. simpl. now apply NoDup_map_filter.
  - now apply IH.
  - intros n H1 H2. rewrite map_map in H1. simpl in H1.
    apply in_map_iff in H1. destruct H1 as (b1 & <- & Hb1).
    apply filter_In in Hb1. destruct Hb1 as [Hb1 Hg1].
    apply inGroup_true in Hg1. destruct Hg1 as [Hg1 _].
    apply in_map_iff in H2. destruct H2 as (label & Hl & Hin).
    apply in_flat_map in Hin. destruct Hin as (group' & Hg' & Hin).
    apply in_map_iff in Hin. destruct Hin as (b2 & <- & Hb2).
    apply filter_In in Hb2. destruct Hb2 as [Hb2 Hg2].
    apply inGroup_true in Hg2. destruct Hg2 as [Hg2 _]. simpl in Hl.
    assert (b2 = b1) by (apply (NoDup_map_In_eq b_i burgs); auto).
    subst b2. apply Hnot. apply in_map_iff. exists group'.
    split; [congruence|exact Hg'].
Qed.

(** X22.  When the groups of the options have distinct names and the burgs
    distinct numbers, no two labels of [generateBurgLabelsData] share a
    burg or an id, and a burg has a label exactly when it is not removed
    and its group is listed. *)
Theorem generateBurgLabelsData_distinct :
  forall (burgGroups : list BurgGroup) (burgs : list Burg),
  NoDup (map bg_name burgGroups) ->
  NoDup (map b_i burgs) ->
  let labels := generateBurgLabelsData burgGroups burgs in
  NoDup (map bl_burgId labels) /\
  NoDup (map bl_i labels) /\
  (forall burg, In burg burgs ->
     ((exists label, In label labels /\ bl_burgId label = b_i burg) <->
      b_removed burg = false /\
      exists group, In group burgGroups /\
                    b_group burg = Some (bg_name group))).
Proof.
  intros burgGroups burgs Hgroups Hburgs labels.
  assert (Hn : NoDup (map bl_burgId labels))
    by now apply generated_burg_numbers_distinct.
  split; [exact Hn|]. split.
  - assert (E : map bl_i labels = map burgLabelId (map bl_burgId labels)).
    { rewrite map_map. apply map_ext_in. intros label Hl.
      apply generated_burg_label in Hl.
      destruct Hl as (group & burg & _ & _ & _ & _ & ->). reflexivity. }
    rewrite E. apply NoDup_map_injective; [|exact Hn].
    intros a b. apply burgLabelId_injective.
  - intros burg Hb. split.
    + intros (label & Hl & Hi). apply generated_burg_label in Hl.
      destruct Hl as (group & burg' & Hg & Hb' & Hgr & Hrem & ->).
      simpl in Hi.
      assert (burg' = burg) by (apply (NoDup_map_In_eq b_i burgs); auto).
      subst burg'. split; [exact Hrem|]. exists group. auto.
    + intros (Hrem & group & Hg & Hgr).
      exists (burgLabelOf (bg_name group) burg). split; [|reflexivity].
      apply generated_burg_label. exists group, burg. auto.
Qed.

Lemma generateBurgLabelsData_distinct_witness :
  NoDup (map bl_i (generateBurgLabelsData Towns.burgGroups Towns.burgs)).
Proof.
  destruct (generateBurgLabelsData_distinct Towns.burgGroups Towns.burgs)
    as (_ & H & _).
  - vm_compute. repeat constructor; simpl; intuition discriminate.
  - vm_compute. repeat constructor; simpl; intuition discriminate.
  - exact H.
Defined.

(** A group listed twice in the options labels its burgs twice. *)
Example group_listed_twice :
  map bl_i (generateBurgLabelsData
              [mkBurgGroup "town" 1; mkBurgGroup "town" 2] Towns.burgs)
  = ["burgLabel2"; "burgLabel2"]%string.
Proof. reflexivity. Qed.

Lemma findIndex_none {A : Type} (p : A -> bool) (xs : list A) :
  findIndex p xs = None <-> forall a, In a xs -> p a = false.
Proof.
  induction xs as [|a rest IH]; simpl.
  - split; [intros _ a []|reflexivity].
  - destruct (p a) eqn:E.
    + split; [discriminate|]. intro H. rewrite (H a) in E by now left.
      discriminate.
    + destruct (findIndex p rest) as [k|]; simpl.
      * split; [discriminate|]. intro H. exfalso.
        assert (Hk : Some k = None)
          by (apply (proj2 IH); intros b Hb; apply H; now right).
        discriminate Hk.
      * split; [|reflexivity]. intros _ b [<-|Hb]; [exact E|].
        now apply (proj1 IH).
Qed.

Section BurgStoreFacts.

Variable burgGroups : list BurgGroup.
Variable burgs : list Burg.
Variable labelGroupEmpty : string -> bool.

#[local] Abbreviation redrawAll := (burgLabelsRenderer burgGroups burgs).
#[local] Abbreviation draw :=
  (drawBurgLabelRenderer burgGroups burgs labelGroupEmpty).
#[local] Abbreviation notBurg :=
  (fun label : Label => negb (String.eqb (label_type label) "burg")).
#[local] Abbreviation otherThan :=
  (fun (burgId : nat) (l : Label) =>
     negb (String.eqb (label_i l) (burgLabelId burgId))).

(** X23.  [burgLabelsRenderer] replaces the burg labels of the store by
    the generated ones and touches nothing else: the labels of another
    type are the same before and after, in the same order; the burg
    labels afterwards are exactly the generated ones; and a second call
    changes nothing more. *)
Theorem burgLabelsRenderer_store : forall packLabels : option (list Label),
  let before := match packLabels with Some ls => ls | None => [] end in
  let after := redrawAll packLabels in
  filter notBurg after = filter notBurg before /\
  (forall s, In (StateL s) after <-> In (StateL s) before) /\
  (forall c, In (CustomL c) after <-> In (CustomL c) before) /\
  (forall b, In (BurgL b) after <->
             In b (generateBurgLabelsData burgGroups burgs)) /\
  redrawAll (Some after) = after.
Proof.
  intros packLabels before after.
  assert (Hafter : after = filter notBurg before
                           ++ map BurgL (generateBurgLabelsData burgGroups
                                                                burgs))
    by reflexivity.
  assert (Hnew : filter notBurg
                   (map BurgL (generateBurgLabelsData burgGroups burgs)) = []).
  { apply filter_none, Forall_forall. intros l Hl.
    apply in_map_iff in Hl. destruct Hl as (b & <- & _). reflexivity. }
  assert (Hkeep : filter notBurg after = filter notBurg before).
  { rewrite Hafter, filter_app, filter_idempotent, Hnew. apply app_nil_r. }
  split; [exact Hkeep|]. split; [|split; [|split]].
  - intro s. rewrite Hafter, in_app_iff, filter_In, in_map_iff. split.
    + intros [[H _]|(b & Hb & _)]; [exact H|discriminate Hb].
    + intro H. left. split; [exact H|reflexivity].
  - intro c. rewrite Hafter, in_app_iff, filter_In, in_map_iff. split.
    + intros [[H _]|(b & Hb & _)]; [exact H|discriminate Hb].
    + intro H. left. split; [exact H|reflexivity].
  - intro b. rewrite Hafter, in_app_iff, filter_In, in_map_iff. split.
    + intros [[_ H]|(b' & Hb & Hin)]; [discriminate H|].
      injection Hb as <-. exact Hin.
    + intro H. right. exists b. auto.
  - unfold burgLabelsRenderer at 1. cbv zeta. rewrite Hkeep. exact (eq_sym Hafter).
Qed.

Lemma removeBurgLabelRenderer_clean (burgId : nat) (labels : list Label) :
  findIndex (fun l => String.eqb (label_i l) (burgLabelId burgId))
            (filter (otherThan burgId) labels) = None.
Proof.
  apply findIndex_none. intros l Hl. apply filter_In in Hl.
  destruct Hl as [_ Hl]. now apply negb_true_iff in Hl.
Qed.

Lemma drawBurgLabelRenderer_store (burg : Burg) (group : string)
    (packLabels : option (list Label)) :
  b_group burg = Some group ->
  labelGroupEmpty ("#" ++ group) = false ->
  draw burg packLabels
  = Some (filter (otherThan (b_i burg))
                 match packLabels with Some ls => ls | None => [] end
          ++ [BurgL (burgLabelOf group burg)]).
Proof.
  intros Hgroup Hdoc. unfold drawBurgLabelRenderer. cbv zeta.
  rewrite Hgroup, Hdoc. cbn [bind].
  destruct packLabels as [labels|]; cbn [removeBurgLabelRenderer].
  - cbv zeta. cbn [burgLabelOf bl_i].
    now rewrite removeBurgLabelRenderer_clean.
  - reflexivity.
Qed.

(** X24.  For a burg whose group has its element in the document,
    [drawBurgLabelRenderer] always appends the label at the end of the
    store: since the label of the burg has just been removed, the search
    for it never succeeds and the branch that would replace it in place is
    never taken.  The other labels keep their order; a label the burg had
    before moves to the end. *)
Theorem drawBurgLabelRenderer_appends :
  forall (burg : Burg) (group : string) (packLabels : option (list Label)),
  b_group burg = Some group ->
  labelGroupEmpty ("#" ++ group) = false ->
  let before := match packLabels with Some ls => ls | None => [] end in
  findIndex (fun l => String.eqb (label_i l) (burgLabelId (b_i burg)))
            match removeBurgLabelRenderer (b_i burg) packLabels with
            | Some ls => ls
            | None => []
            end = None /\
  draw burg packLabels
  = Some (filter (otherThan (b_i burg)) before
          ++ [BurgL (mkBurgLabel (burgLabelId (b_i burg)) (b_name burg)
                                 group (b_i burg))]).
Proof.
  intros burg group packLabels Hgroup Hdoc before. split.
  - destruct packLabels as [labels|]; [|reflexivity].
    apply removeBurgLabelRenderer_clean.
  - now apply drawBurgLabelRenderer_store.
Qed.

Lemma otherThan_label (group : string) (burg : Burg) :
  otherThan (b_i burg) (BurgL (burgLabelOf group burg)) = false.
Proof. simpl. now rewrite String.eqb_refl. Qed.

(** X25.  After [drawBurgLabelRenderer] (group element present) the store
    holds one label with the id of the burg, the new one; drawing the same
    burg again leaves the store as it is; and [removeBurgLabelRenderer]
    then gives the store that removing the label at the start would have
    given. *)
Theorem drawBurgLabelRenderer_round_trip :
  forall (burg : Burg) (group : string) (packLabels : option (list Label))
         (after : list Label),
  b_group burg = Some group ->
  labelGroupEmpty ("#" ++ group) = false ->
  draw burg packLabels = Some after ->
  filter (fun l => String.eqb (label_i l) (burgLabelId (b_i burg))) after
  = [BurgL (burgLabelOf group burg)] /\
  draw burg (Some after) = Some after /\
  removeBurgLabelRenderer (b_i burg) (Some after)
  = Some (filter (otherThan (b_i burg))
                 match packLabels with Some ls => ls | None => [] end).
Proof.
  intros burg group packLabels after Hgroup Hdoc Hdraw.
  rewrite (drawBurgLabelRenderer_store burg group packLabels Hgroup Hdoc)
    in Hdraw.
  injection Hdraw as <-.
  set (before := match packLabels with Some ls => ls | None => [] end).
  assert (Hclean : filter (otherThan (b_i burg))
                     (filter (otherThan (b_i burg)) before
                      ++ [BurgL (burgLabelOf group burg)])
                   = filter (otherThan (b_i burg)) before).
  { rewrite filter_app, filter_idempotent. cbn [filter].
    rewrite otherThan_label. apply app_nil_r. }
  split; [|split].
  - rewrite filter_app.
    rewrite (filter_none (fun l => String.eqb (label_i l)
                                     (burgLabelId (b_i burg)))
               (filter (otherThan (b_i burg)) before)).
    + simpl. now rewrite String.eqb_refl.
    + apply Forall_forall. intros l Hl. apply filter_In in Hl.
      destruct Hl as [_ Hl]. now apply negb_true_iff in Hl.
  - rewrite (drawBurgLabelRenderer_store burg group _ Hgroup Hdoc).
    now rewrite Hclean.
  - cbn [removeBurgLabelRenderer]. cbv zeta. now rewrite Hclean.
Qed.

End BurgStoreFacts.

Lemma drawBurgLabelRenderer_appends_witness :
  drawBurgLabelRenderer Towns.burgGroups Towns.burgs (fun _ => false)
    (mkBurg 1 "Kyiv" (Some "capital"%string) false 10 10)
    (Some [Towns.kiev; Towns.lviv])
  = Some [Towns.lviv; BurgL (mkBurgLabel "burgLabel1" "Kyiv" "capital" 1)].
Proof.
  destruct (drawBurgLabelRenderer_appends Towns.burgGroups Towns.burgs
              (fun _ => false)
              (mkBurg 1 "Kyiv" (Some "capital"%string) false 10 10)
              "capital" (Some [Towns.kiev; Towns.lviv])
              eq_refl eq_refl) as [_ H].
  exact H.
Defined.

Lemma drawBurgLabelRenderer_round_trip_witness :
  removeBurgLabelRenderer 1
    (Some [Towns.lviv; BurgL (mkBurgLabel "burgLabel1" "Kyiv" "capital" 1)])
  = Some [Towns.lviv].
Proof.
  destruct (drawBurgLabelRenderer_round_trip Towns.burgGroups Towns.burgs
              (fun _ => false)
              (mkBurg 1 "Kyiv" (Some "capital"%string) false 10 10)
              "capital" (Some [Towns.kiev; Towns.lviv])
              [Towns.lviv; BurgL (mkBurgLabel "burgLabel1" "Kyiv" "capital" 1)]
              eq_refl eq_refl eq_refl) as (_ & _ & H).
  exact H.
Defined.

(** Without the group element in the document the call redraws all the
    burg labels. *)
Example drawBurgLabelRenderer_redraws_all :
  drawBurgLabelRenderer Towns.burgGroups Towns.burgs (fun _ => true)
    (mkBurg 1 "Kyiv" (Some "capital"%string) false 10 10) (Some [Demo.oldRus])
  = Some [Demo.oldRus; Towns.kiev; Towns.lviv].
Proof. reflexivity. Qed.

(** ** The label store with numeric ids *)

Section LabelsStore.

Import Labels.

Lemma insertAscending_In (a x : nat) (xs : list nat) :
  In x (insertAscending a xs) <-> x = a \/ In x xs.
Proof.
  induction xs as [|b rest IH]; simpl.
  - intuition.
  - destruct (a <=? b)%nat; simpl; [intuition|].
    rewrite IH. intuition.
Qed.

Lemma sortAscending_In (x : nat) (xs : list nat) :
  In x (sortAscending xs) <-> In x xs.
Proof.
  induction xs as [|a rest IH]; simpl; [tauto|].
  rewrite insertAscending_In, IH. intuition.
Qed.

Lemma insertAscending_ascending (a : nat) (xs : list nat) :
  ascending xs -> ascending (insertAscending a xs).
Proof.
  induction xs as [|b rest IH]; simpl; intro H.
  - split; [intros b []|exact I].
  - destruct H as [Hb Hrest]. destruct (a <=? b)%nat eqn:E; simpl.
    + apply Nat.leb_le in E. split; [|split; assumption].
      intros c [<-|Hc]; [exact E|]. specialize (Hb c Hc). lia.
    + apply Nat.leb_gt in E. split; [|now apply IH].
      intros c Hc. apply insertAscending_In in Hc.
      destruct Hc as [->|Hc]; [lia|now apply Hb].
Qed.

Lemma sortAscending_ascending (xs : list nat) : ascending (sortAscending xs).
Proof.
  induction xs as [|a rest IH]; simpl; [exact I|].
  now apply insertAscending_ascending.
Qed.

Lemma ascending_last (xs : list nat) :
  ascending xs -> xs <> [] ->
  let last := nth (List.length xs - 1) xs 0%nat in
  In last xs /\ forall x, In x xs -> (x <= last)%nat.
Proof.
  induction xs as [|a rest IH]; intros H Hne; [congruence|].
  destruct H as [Ha Hrest]. destruct rest as [|b rest'].
  - simpl. split; [now left|]. intros x [<-|[]]. lia.
  - assert (Hne' : b :: rest' <> []) by discriminate.
    destruct (IH Hrest Hne') as [Hin Hmax].
    replace (List.length (a :: b :: rest') - 1)%nat
      with (S (List.length (b :: rest') - 1)) by (simpl; lia).
    cbv zeta. cbn [nth]. split; [now right|].
    intros x [<-|Hx]; [|now apply Hmax].
    specialize (Ha _ Hin). exact Ha.
Qed.

Lemma find_seq_first (p : nat -> bool) (len : nat) : forall (a id : nat),
  find p (seq a len) = Some id ->
  (a <= id < a + len)%nat /\ p id = true /\
  forall k, (a <= k < id)%nat -> p k = false.
Proof.
  induction len as [|len IH]; intros a id H; [discriminate|].
  simpl in H. destruct (p a) eqn:E.
  - injection H as <-. split; [lia|]. split; [exact E|]. intros; lia.
  - destruct (IH (S a) id H) as (Hr & Hp & Hk).
    split; [lia|]. split; [exact Hp|]. intros k Hk'.
    destruct (Nat.eq_dec k a) as [->|]; [exact E|]. apply Hk. lia.
Qed.

Lemma getNextId_spec (labels : list LabelData) :
  ~ In (getNextId labels) (map ld_i labels) /\
  forall k, (k < getNextId labels)%nat -> In k (map ld_i labels).
Proof.
  destruct labels as [|l rest]; [simpl; split; [tauto|intros; lia]|].
  unfold getNextId.
  set (ids := map ld_i (l :: rest)).
  set (existingIds := sortAscending ids).
  assert (Hne : existingIds <> []).
  { intro E. assert (Hin : In (ld_i l) existingIds)
      by (apply sortAscending_In; now left).
    rewrite E in Hin. destruct Hin. }
  destruct (ascending_last existingIds (sortAscending_ascending ids) Hne)
    as [Hin Hmax].
  cbv zeta.
  set (last := nth (List.length existingIds - 1) existingIds 0%nat) in *.
  destruct (find _ (seq 0 last)) as [id|] eqn:E.
  - apply find_seq_first in E. destruct E as (Hr & Hp & Hk). split.
    + intro H. apply sortAscending_In, includesNat_In in H.
      fold existingIds in H. rewrite H in Hp. discriminate.
    + intros k Hlt. specialize (Hk k (conj (Nat.le_0_l k) Hlt)).
      apply negb_false_iff, includesNat_In in Hk.
      now apply sortAscending_In.
  - split.
    + intro H. apply sortAscending_In, Hmax in H. lia.
    + intros k Hlt. destruct (Nat.eq_dec k last) as [->|Hne'].
      * now apply sortAscending_In.
      * assert (Hk : In k (seq 0 last)) by (apply in_seq; lia).
        apply (find_none _ _ E) in Hk.
        apply negb_false_iff, includesNat_In in Hk.
        now apply sortAscending_In.
Qed.

Lemma getNextId_unique (labels : list LabelData) (n : nat) :
  ~ In n (map ld_i labels) ->
  (forall k, (k < n)%nat -> In k (map ld_i labels)) ->
  n = getNextId labels.
Proof.
  intros Hn Hk. destruct (getNextId_spec labels) as [Hg Hl].
  destruct (Nat.lt_trichotomy n (getNextId labels)) as [H|[H|H]].
  - exfalso. exact (Hn (Hl n H)).
  - exact H.
  - exfalso. exact (Hg (Hk _ H)).
Qed.

(** X26.  [getNextId] gives the least number that is the id of no label
    of the store: it is unused, every smaller number is in use, and no
    other number has these two properties.  On the empty store it is
    0. *)
Theorem getNextId_least_unused : forall (labels : list LabelData) (n : nat),
  n = getNextId labels <->
  ~ In n (map ld_i labels) /\
  forall k, (k < n)%nat -> In k (map ld_i labels).
Proof.
  intros labels n. split.
  - intros ->. apply getNextId_spec.
  - intros [Hn Hk]. now apply getNextId_unique.
Qed.

Lemma get_none_iff (id : nat) (labels : list LabelData) :
  get id labels = None <-> ~ In id (map ld_i labels).
Proof.
  unfold get. induction labels as [|l rest IH]; simpl; [tauto|].
  destruct (Nat.eqb_spec (ld_i l) id) as [E|E].
  - split; [discriminate|]. intro H. exfalso. apply H. now left.
  - rewrite IH. tauto.
Qed.

Lemma get_app (id : nat) (xs ys : list LabelData) :
  get id (xs ++ ys)
  = match get id xs with Some l => Some l | None => get id ys end.
Proof.
  unfold get. induction xs as [|l rest IH]; simpl; [reflexivity|].
  destruct (Nat.eqb (ld_i l) id); [reflexivity|exact IH].
Qed.

Lemma pushed_fresh (labels : list LabelData) (label : LabelData) :
  ld_i label = getNextId labels ->
  ~ In (ld_i label) (map ld_i labels) /\
  get (ld_i label) (labels ++ [label]) = Some label /\
  (forall id, id <> ld_i label ->
              get id (labels ++ [label]) = get id labels) /\
  (NoDup (map ld_i labels) -> NoDup (map ld_i (labels ++ [label]))).
Proof.
  intro Hi.
  assert (Hfresh : ~ In (ld_i label) (map ld_i labels))
    by (rewrite Hi; apply getNextId_spec).
  split; [exact Hfresh|]. split; [|split].
  - rewrite get_app. apply get_none_iff in Hfresh. rewrite Hfresh.
    unfold get. simpl. now rewrite Nat.eqb_refl.
  - intros id Hid. rewrite get_app.
    destruct (get id labels); [reflexivity|].
    unfold get. simpl. destruct (Nat.eqb_spec (ld_i label) id); congruence.
  - intro H. rewrite map_app. apply NoDup_app_intro; [exact H| |].
    + simpl. constructor; [intros []|constructor].
    + intros a Ha [<-|[]]. exact (Hfresh Ha).
Qed.

(** X27.  Each of the three [add] methods pushes, at the end of the
    store, a label whose id was not in use; [get] with that id then gives
    the new label, [get] with another id gives what it gave before, and
    ids that were distinct stay distinct. *)
Theorem add_label_fresh :
  forall (labels : list LabelData) (r : list LabelData * LabelData),
  (exists data, r = addStateLabel data labels) \/
  (exists data, r = addBurgLabel data labels) \/
  (exists data, r = addCustomLabel data labels) ->
  fst r = labels ++ [snd r] /\
  ~ In (ld_i (snd r)) (map ld_i labels) /\
  get (ld_i (snd r)) (fst r) = Some (snd r) /\
  (forall id, id <> ld_i (snd r) -> get id (fst r) = get id labels) /\
  (NoDup (map ld_i labels) -> NoDup (map ld_i (fst r))).
Proof.
  intros labels r [[data ->]|[[data ->]|[data ->]]];
    (split; [reflexivity|]); cbn [fst snd];
    apply pushed_fresh; reflexivity.
Qed.

Lemma removeFirst_cons (p : LabelData -> bool) (l : LabelData)
    (rest : list LabelData) :
  removeFirst p (l :: rest) = if p l then rest else l :: removeFirst p rest.
Proof.
  unfold removeFirst. simpl. destruct (p l); [reflexivity|].
  destruct (findIndex p rest); reflexivity.
Qed.

Lemma removeFirst_filter (p : LabelData -> bool) (labels : list LabelData) :
  (forall a b, In a labels -> In b labels -> p a = true -> p b = true ->
               ld_i a = ld_i b) ->
  NoDup (map ld_i labels) ->
  removeFirst p labels = filter (fun l => negb (p l)) labels.
Proof.
  induction labels as [|l rest IH]; intros Hone Hnd; [reflexivity|].
  rewrite removeFirst_cons. simpl. inversion Hnd as [|? ? Hnot Hrest]; subst.
  destruct (p l) eqn:E; simpl.
  - symmetry. clear IH. induction rest as [|x xs IHx]; [reflexivity|].
    simpl. destruct (p x) eqn:Ex.
    + exfalso. apply Hnot. left. symmetry. apply Hone; simpl; auto.
    + simpl. f_equal. apply IHx.
      * intros a b Ha Hb. apply Hone; simpl in *; tauto.
      * simpl in Hnd. inversion Hnd as [|? ? H1 H2]; subst.
        inversion H2; subst. constructor; [|assumption].
        simpl in H1. tauto.
      * simpl in Hnot. tauto.
      * now inversion Hrest.
  - f_equal. apply IH; [|exact Hrest].
    intros a b Ha Hb. apply Hone; now right.
Qed.

Lemma removeFirst_sublist (p : LabelData -> bool) (labels : list LabelData) :
  (forall l, In l (removeFirst p labels) -> In l labels) /\
  (NoDup (map ld_i labels) -> NoDup (map ld_i (removeFirst p labels))).
Proof.
  induction labels as [|l rest [IH1 IH2]]; [split; [tauto|auto]|].
  rewrite removeFirst_cons. destruct (p l).
  - split; [intros; now right|]. simpl. intro H. now inversion H.
  - split.
    + intros x [<-|Hx]; [now left|right; now apply IH1].
    + simpl. intro H. inversion H as [|? ? Hnot Hrest]; subst.
      constructor; [|now apply IH2].
      intro Hin. apply Hnot. apply in_map_iff in Hin.
      destruct Hin as (x & Hx & Hin). apply in_map_iff. exists x.
      split; [exact Hx|now apply IH1].
Qed.

Lemma removeFirst_keeps (p q : LabelData -> bool) (labels : list LabelData) :
  (forall l, p l = true -> q l = false) ->
  filter q (removeFirst p labels) = filter q labels.
Proof.
  intro Hpq. induction labels as [|l rest IH]; [reflexivity|].
  rewrite removeFirst_cons. destruct (p l) eqn:E; simpl.
  - now rewrite (Hpq l E).
  - now rewrite IH.
Qed.

Lemma get_filter_other (id id' : nat) (labels : list LabelData) :
  id' <> id ->
  get id' (filter (fun l => negb (Nat.eqb (ld_i l) id)) labels)
  = get id' labels.
Proof.
  intro Hne. unfold get. induction labels as [|l rest IH]; [reflexivity|].
  simpl. destruct (Nat.eqb_spec (ld_i l) id) as [Ei|Ei]; simpl.
  - destruct (Nat.eqb_spec (ld_i l) id'); [congruence|exact IH].
  - destruct (Nat.eqb (ld_i l) id'); [reflexivity|exact IH].
Qed.

(** X28.  On a store whose ids are distinct, [removeLabel] takes out the
    label with the id, if there is one, and nothing else: what is left is
    the store filtered by id; [get] no longer finds the id and finds every
    other id as before; the ids stay distinct; and the id, when it was in
    use, becomes the next one handed out unless a smaller one is free. *)
Theorem removeLabel_unique : forall (id : nat) (labels : list LabelData),
  NoDup (map ld_i labels) ->
  removeLabel id labels = filter (fun l => negb (Nat.eqb (ld_i l) id)) labels /\
  get id (removeLabel id labels) = None /\
  (forall id', id' <> id ->
               get id' (removeLabel id labels) = get id' labels) /\
  NoDup (map ld_i (removeLabel id labels)) /\
  (In id (map ld_i labels) ->
   getNextId (removeLabel id labels) = Nat.min id (getNextId labels)).
Proof.
  intros id labels Hnd.
  assert (E : removeLabel id labels
              = filter (fun l => negb (Nat.eqb (ld_i l) id)) labels).
  { apply removeFirst_filter; [|exact Hnd].
    intros a b _ _ Ha Hb. apply Nat.eqb_eq in Ha, Hb. congruence. }
  assert (Hids : forall x, In x (map ld_i (removeLabel id labels)) <->
                           In x (map ld_i labels) /\ x <> id).
  { intro x. rewrite E, !in_map_iff. split.
    - intros (l & <- & Hl). apply filter_In in Hl. destruct Hl as [Hl Hne].
      apply negb_true_iff, Nat.eqb_neq in Hne. split; [|exact Hne].
      exists l. auto.
    - intros [(l & <- & Hl) Hne]. exists l. split; [reflexivity|].
      apply filter_In. split; [exact Hl|].
      now apply negb_true_iff, Nat.eqb_neq. }
  split; [exact E|]. split; [|split; [|split]].
  - apply get_none_iff. rewrite Hids. tauto.
  - intros id' Hne. rewrite E. now apply get_filter_other.
  - now apply removeFirst_sublist.
  - intro Hin. symmetry. apply getNextId_unique.
    + rewrite Hids. intros [H Hne].
      destruct (getNextId_spec labels) as [Hg _].
      destruct (Nat.min_spec id (getNextId labels)) as [[_ Em]|[_ Em]];
        rewrite Em in *; [now apply Hne|exact (Hg H)].
    + intros k Hk. rewrite Hids.
      destruct (getNextId_spec labels) as [_ Hl].
      split; [apply Hl|]; lia.
Qed.

End LabelsStore.

Lemma add_label_fresh_witness :
  Labels.get 1 (fst (Labels.addCustomLabel Stored.note
                       [Stored.rus; Stored.kiev]))
  = Some (Labels.CustomLabelData 1 Stored.note).
Proof.
  destruct (add_label_fresh [Stored.rus; Stored.kiev]
              (Labels.addCustomLabel Stored.note [Stored.rus; Stored.kiev]))
    as (_ & _ & H & _).
  - right. right. exists Stored.note. reflexivity.
  - exact H.
Defined.

Lemma removeLabel_unique_witness :
  Labels.getNextId (Labels.removeLabel 0 [Stored.rus; Stored.kiev]) = 0%nat.
Proof.
  destruct (removeLabel_unique 0 [Stored.rus; Stored.kiev]) as (_ & _ & _ & _ & H).
  - simpl. repeat constructor; simpl; intuition discriminate.
  - apply H. simpl. now left.
Defined.

(** With an id that two labels share, [removeLabel] leaves the second
    behind. *)
Example removeLabel_shared_id :
  Labels.get 0 (Labels.removeLabel 0
                  [Stored.rus; Labels.CustomLabelData 0 Stored.note])
  = Some (Labels.CustomLabelData 0 Stored.note).
Proof. reflexivity. Qed.

Section LabelsGenerate.

Import Labels.

Lemma getNextId_dense (labels : list LabelData) :
  map ld_i labels = seq 0 (List.length labels) ->
  getNextId labels = List.length labels.
Proof.
  intro H. symmetry. apply getNextId_unique; rewrite H.
  - rewrite in_seq. lia.
  - intros k Hk. apply in_seq. lia.
Qed.

Lemma numbered_ids {A : Type} (mk : nat -> A -> LabelData) (xs : list A) :
  (forall k a, ld_i (mk k a) = k) ->
  forall start,
    map ld_i (map (fun ka => mk (fst ka) (snd ka)) (numbered start xs))
    = seq start (List.length xs).
Proof.
  intro Hmk. unfold numbered.
  induction xs as [|a rest IH]; intro start; simpl; [reflexivity|].
  now rewrite Hmk, IH.
Qed.

(** A loop of [add]s on a store whose ids are 0, 1, ..., n - 1 numbers
    the new labels n, n + 1, ... *)
Lemma fold_add_dense {A : Type} (skip : A -> bool) (mk : nat -> A -> LabelData)
    (step : list LabelData -> A -> list LabelData) :
  (forall k a, ld_i (mk k a) = k) ->
  (forall labels a,
     step labels a
     = if skip a then labels else labels ++ [mk (getNextId labels) a]) ->
  forall (xs : list A) (acc : list LabelData),
    map ld_i acc = seq 0 (List.length acc) ->
    fold_left step xs acc
    = acc ++ map (fun ka => mk (fst ka) (snd ka))
                 (numbered (List.length acc)
                           (filter (fun a => negb (skip a)) xs)).
Proof.
  intros Hmk Hstep. induction xs as [|a rest IH]; intros acc Hacc; simpl.
  - unfold numbered. simpl. now rewrite app_nil_r.
  - rewrite Hstep. destruct (skip a) eqn:E; simpl.
    + now apply IH.
    + rewrite IH.
      * rewrite (getNextId_dense acc Hacc), <- app_assoc, length_app.
        simpl. rewrite Nat.add_1_r. reflexivity.
      * rewrite map_app, length_app, seq_app, Hacc. simpl.
        now rewrite Hmk, (getNextId_dense acc Hacc).
Qed.

(** A loop of [add]s on any store appends labels, leaves what was there and
    keeps distinct ids distinct. *)
Lemma fold_add_keeps {A : Type} (step : list LabelData -> A -> list LabelData)
    (keep : LabelData -> bool) :
  (forall labels a,
     step labels a = labels \/
     exists label, step labels a = labels ++ [label] /\
                   ld_i label = getNextId labels /\ keep label = false) ->
  forall (xs : list A) (acc : list LabelData),
    filter keep (fold_left step xs acc) = filter keep acc /\
    (NoDup (map ld_i acc) -> NoDup (map ld_i (fold_left step xs acc))).
Proof.
  intro Hstep. induction xs as [|a rest IH]; intro acc; simpl; [auto|].
  destruct (IH (step acc a)) as [IH1 IH2].
  destruct (Hstep acc a) as [E|(label & E & Hi & Hk)]; rewrite E in *.
  - auto.
  - split.
    + rewrite IH1, filter_app. simpl. rewrite Hk. apply app_nil_r.
    + intro H. apply IH2. now apply pushed_fresh.
Qed.

Lemma removeByType_none (type : string) (labels : list LabelData) :
  (forall l, In l labels -> ld_type l <> type) ->
  removeByType type labels = labels.
Proof.
  intro H. unfold removeByType.
  induction labels as [|l rest IH]; [reflexivity|]. simpl.
  destruct (String.eqb_spec (ld_type l) type) as [E|E].
  - exfalso. exact (H l (or_introl eq_refl) E).
  - simpl. f_equal. apply IH. intros x Hx. apply H. now right.
Qed.

(** X29.  [generate] forgets the store it finds and fills it anew: first
    one state label for each state that is neither neutral, removed nor
    locked, then one burg label for each burg with a non-zero number that
    is not removed, in the order of the tables; the ids are 0, 1, 2, ...
    in the order of the store. *)
Theorem generate_numbers_labels :
  forall (states : list State) (burgs : list Burg) (labels : list LabelData),
  let ss := filter (labelled None) states in
  let bs := filter (fun burg => negb (Nat.eqb (b_i burg) 0 || b_removed burg))
                   burgs in
  generate states burgs labels
  = map (fun ks => StateLabelData (fst ks)
                     (mkStateData (st_i (snd ks)) (st_name (snd ks))
                                  (Some 100)))
        (numbered 0 ss)
    ++ map (fun kb => BurgLabelData (fst kb)
                        (mkBurgData (b_i (snd kb)) (groupOrUnmarked (snd kb))
                                    (b_name (snd kb)) (b_x (snd kb))
                                    (b_y (snd kb)) 0 0))
           (numbered (List.length ss) bs) /\
  map ld_i (generate states burgs labels)
  = seq 0 (List.length ss + List.length bs).
Proof.
  intros states burgs labels ss bs.
  set (mkS := fun (k : nat) (state : State) =>
                StateLabelData k (mkStateData (st_i state) (st_name state)
                                              (Some 100))).
  set (mkB := fun (k : nat) (burg : Burg) =>
                BurgLabelData k (mkBurgData (b_i burg) (groupOrUnmarked burg)
                                            (b_name burg) (b_x burg)
                                            (b_y burg) 0 0)).
  assert (HS : generateStateLabels states None []
               = map (fun ks => mkS (fst ks) (snd ks)) (numbered 0 ss)).
  { unfold generateStateLabels. cbv zeta.
    change (removeByType "state" []) with (@nil LabelData).
    rewrite (fold_add_dense
               (fun state => Nat.eqb (st_i state) 0 || st_removed state
                             || st_lock state) mkS);
      [|reflexivity| |reflexivity].
    - simpl. unfold ss. do 2 f_equal. apply filter_ext. intro state.
      unfold labelled. now rewrite andb_true_r.
    - intros ls state. unfold addStateLabel. cbn [fst].
      destruct (Nat.eqb (st_i state) 0 || st_removed state || st_lock state);
        reflexivity. }
  assert (Hids : map ld_i (generateStateLabels states None [])
                 = seq 0 (List.length ss)).
  { rewrite HS. now apply (numbered_ids mkS). }
  assert (Hlen : List.length (generateStateLabels states None [])
                 = List.length ss).
  { rewrite <- (length_map ld_i), Hids. apply length_seq. }
  assert (HB : generate states burgs labels
               = map (fun ks => mkS (fst ks) (snd ks)) (numbered 0 ss)
                 ++ map (fun kb => mkB (fst kb) (snd kb))
                        (numbered (List.length ss) bs)).
  { unfold generate, clear. cbv zeta. unfold generateBurgLabels. cbv zeta.
    rewrite removeByType_none.
    - rewrite (fold_add_dense
                 (fun burg => Nat.eqb (b_i burg) 0 || b_removed burg) mkB);
        [|reflexivity| |now rewrite Hids, Hlen].
      + now rewrite Hlen, HS.
      + intros ls burg. unfold addBurgLabel. cbn [fst].
        destruct (Nat.eqb (b_i burg) 0 || b_removed burg); reflexivity.
    - intros l Hl. rewrite HS in Hl. apply in_map_iff in Hl.
      destruct Hl as (ks & <- & _). discriminate. }
  split; [exact HB|].
  rewrite HB, map_app, (numbered_ids mkS), (numbered_ids mkB), seq_app;
    reflexivity.
Qed.

(** X30.  [generateStateLabels] and [generateBurgLabels] leave the labels
    of the other types as they are, in their order, whatever the store
    and the list; and on a store whose ids are distinct they leave the
    ids distinct. *)
Theorem regeneration_keeps_store :
  forall (states : list State) (idList : option (list nat))
         (burgs : list Burg) (labels : list LabelData),
  let notState := fun l => negb (String.eqb (ld_type l) "state") in
  let notBurg := fun l => negb (String.eqb (ld_type l) "burg") in
  filter notState (generateStateLabels states idList labels)
  = filter notState labels /\
  filter notBurg (generateBurgLabels burgs labels) = filter notBurg labels /\
  (NoDup (map ld_i labels) ->
   NoDup (map ld_i (generateStateLabels states idList labels)) /\
   NoDup (map ld_i (generateBurgLabels burgs labels))).
Proof.
  intros states idList burgs labels notState notBurg.
  set (cleared := match idList with
                  | Some ids =>
                      fold_left (fun ls stateId => removeStateLabel stateId ls)
                                ids labels
                  | None => removeByType "state" labels
                  end).
  assert (Hcleared : filter notState cleared = filter notState labels /\
                     (NoDup (map ld_i labels) -> NoDup (map ld_i cleared))).
  { unfold cleared. destruct idList as [ids|].
    - clear cleared. revert labels.
      induction ids as [|id rest IH]; intro labels; simpl; [auto|].
      destruct (IH (removeStateLabel id labels)) as [IH1 IH2]. split.
      + rewrite IH1. apply removeFirst_keeps.
        intros [k d|k d|k d] Hl; try discriminate Hl. reflexivity.
      + intro H. apply IH2. now apply removeFirst_sublist.
    - split.
      + unfold removeByType. apply filter_idempotent.
      + apply NoDup_map_filter. }
  assert (HS : filter notState (generateStateLabels states idList labels)
               = filter notState cleared /\
               (NoDup (map ld_i cleared) ->
                NoDup (map ld_i (generateStateLabels states idList labels)))).
  { unfold generateStateLabels. cbv zeta. fold cleared.
    apply fold_add_keeps. intros ls state.
    destruct (Nat.eqb (st_i state) 0 || st_removed state || st_lock state);
      [now left|].
    destruct (match idList with
              | Some ids => negb (includesNat ids (st_i state))
              | None => false
              end); [now left|].
    right. eexists. split; [reflexivity|]. split; reflexivity. }
  assert (HB : filter notBurg (generateBurgLabels burgs labels)
               = filter notBurg (removeByType "burg" labels) /\
               (NoDup (map ld_i (removeByType "burg" labels)) ->
                NoDup (map ld_i (generateBurgLabels burgs labels)))).
  { unfold generateBurgLabels. cbv zeta.
    apply fold_add_keeps. intros ls burg.
    destruct (Nat.eqb (b_i burg) 0 || b_removed burg); [now left|].
    right. eexists. split; [reflexivity|]. split; reflexivity. }
  destruct Hcleared as [C1 C2], HS as [S1 S2], HB as [B1 B2].
  split; [now rewrite S1|]. split.
  - rewrite B1. unfold removeByType. apply filter_idempotent.
  - intro H. split; [now apply S2, C2|].
    apply B2. unfold removeByType. now apply NoDup_map_filter.
Qed.

End LabelsGenerate.

(** The ids of a store with a gap are kept and the gap is filled. *)
Example regeneration_fills_gap :
  map Labels.ld_i
      (Labels.generateBurgLabels Towns.burgs
         [Stored.rus; Labels.CustomLabelData 2 Stored.note])
  = [0; 2; 1; 3; 4]%nat.
Proof. reflexivity. Qed.
